(** * Verification of the research orchestrator of [app/think.py]

    The development embeds the orchestrator shallowly: texts are byte
    strings, Python objects shared between tasks live in one store (the
    [objectives] list of the think state, addressed by position), and the
    cooperative tasks of the program (the driver [_think], one runner
    [_run_objective] per objective, the two stream consumers) are a
    transition system whose steps are the code segments between two
    suspension points.  The replies of the completion adapters, which the
    program awaits, are the inputs of the transitions, and so is the
    failure of a call that a runner awaits. *)

From Stdlib Require Import String Ascii List Bool Arith Lia.
From stdpp Require Import base list strings.
Import ListNotations.
Open Scope string_scope.
Open Scope list_scope.
Open Scope nat_scope.

(** ** Texts *)

Module Text.

(** [c.lower()] on one character of the ASCII range; other bytes are
    kept, which is what [str.lower] does to every byte sequence that
    matters to an ASCII needle. *)
Definition lower_ascii (c : ascii) : ascii :=
  let n := nat_of_ascii c in
  if (65 <=? n) && (n <=? 90) then ascii_of_nat (n + 32) else c.

(** [s.lower()] *)
Fixpoint lower (s : string) : string :=
  match s with
  | EmptyString => EmptyString
  | String c s' => String (lower_ascii c) (lower s')
  end.

(** [sub in s] on Python strings: [sub] occurs in [s] at some offset. *)
Fixpoint contains (sub s : string) : bool :=
  String.prefix sub s ||
  match s with
  | EmptyString => false
  | String _ s' => contains sub s'
  end.

(** Truth value of a string, as in [if s] and [not s]. *)
Definition truthy (s : string) : bool :=
  match s with EmptyString => false | String _ _ => true end.

(** [sep.join(ls)] *)
Definition join (sep : string) (ls : list string) : string :=
  String.concat sep ls.

(** [s[::-1]] *)
Fixpoint rev (s : string) : string :=
  match s with
  | EmptyString => EmptyString
  | String c s' => rev s' +:+ String c EmptyString
  end.

(** The characters that [str.isspace] accepts, as the bytes of their
    UTF-8 encoding: one byte for U+0009 to U+000D, U+001C to U+001F and
    U+0020, two for U+0085 and U+00A0, three for U+1680, U+2000 to U+200A,
    U+2028, U+2029, U+202F, U+205F and U+3000. *)
Definition space1 (a : ascii) : bool :=
  let n := nat_of_ascii a in
  ((9 <=? n) && (n <=? 13)) || ((28 <=? n) && (n <=? 32)).

Definition space2 (a b : ascii) : bool :=
  (nat_of_ascii a =? 194) &&
  ((nat_of_ascii b =? 133) || (nat_of_ascii b =? 160)).

Definition space3 (a b c : ascii) : bool :=
  let x := nat_of_ascii a in
  let y := nat_of_ascii b in
  let z := nat_of_ascii c in
  ((x =? 225) && (y =? 154) && (z =? 128)) ||
  ((x =? 226) && (y =? 128) &&
   (((128 <=? z) && (z <=? 138)) || (z =? 168) || (z =? 169) || (z =? 175))) ||
  ((x =? 226) && (y =? 129) && (z =? 159)) ||
  ((x =? 227) && (y =? 128) && (z =? 128)).

(** Drops the white space that [s] begins with.  With [back] the bytes
    of [s] are those of a text taken from its end, so that the bytes of
    one character come last first. *)
Fixpoint drop_space (back : bool) (s : string) : string :=
  match s with
  | String a s1 =>
      if space1 a then drop_space back s1 else
      match s1 with
      | String b s2 =>
          if (if back then space2 b a else space2 a b) then drop_space back s2 else
          match s2 with
          | String c s3 =>
              if (if back then space3 c b a else space3 a b c)
              then drop_space back s3 else s
          | EmptyString => s
          end
      | EmptyString => s
      end
  | EmptyString => s
  end.

(** [s.lstrip()] and [s.rstrip()] *)
Definition lstrip (s : string) : string := drop_space false s.

Definition rstrip (s : string) : string := rev (drop_space true (rev s)).

(** [s.strip()]: the white space at both ends is dropped. *)
Definition strip (s : string) : string := lstrip (rstrip s).

(** A character of the ASCII range that is not white space. *)
Definition visible (a : ascii) : bool :=
  (nat_of_ascii a <? 128) && negb (space1 a).

End Text.

(** The line feed of Python's ["\n"]. *)
Definition nl : string := String (ascii_of_nat 10) EmptyString.

(** ** Data model

    The state classes are declared in [app/models/state.py] and the chat
    classes in [app/models/chat_completion.py]; the records below have the
    fields that [app/think.py] reads and writes. *)

Inductive ObjectiveStatus := PENDING | IN_PROGRESS | COMPLETED | FAILED.

#[global] Instance ObjectiveStatus_eq_dec : EqDecision ObjectiveStatus.
Proof. solve_decision. Defined.

Record KnowledgeState := {
  k_description : string;
  k_short_name : string;
  k_source : string }.

(** A step carries its [short_name]; the other fields that the step call
    fills are kept as one opaque text. *)
Record StepState := {
  s_short_name : string;
  s_fields : string }.

Record Usage := {
  prompt_tokens : nat;
  completion_tokens : nat }.

Definition usage_zero : Usage := {| prompt_tokens := 0; completion_tokens := 0 |}.

(** [+] on the two counters. *)
Definition usage_add (u d : Usage) : Usage :=
  {| prompt_tokens := prompt_tokens u + prompt_tokens d;
     completion_tokens := completion_tokens u + completion_tokens d |}.

Record ObjectiveState := {
  answer : option string;
  completion_criteria : string;
  description : string;
  knowledges : list KnowledgeState;
  short_name : string;
  status : ObjectiveStatus;
  steps : list StepState }.

(** Modelled from the spec: the constructor of [ObjectiveState], whose
    class declaration is missing.  The three texts are always given; an
    objective is created PENDING, without answer, with no step, and with
    the knowledge items passed to the constructor, none by default. *)
Definition ObjectiveState_init (criteria descr name : string)
    (given : option (list KnowledgeState)) : ObjectiveState :=
  {| answer := None;
     completion_criteria := criteria;
     description := descr;
     knowledges := default [] given;
     short_name := name;
     status := PENDING;
     steps := [] |}.

Record ChatMessage := {
  content : option string;
  role : string }.

Record ChatChoiceChunk := {
  delta : ChatMessage;
  index : nat;
  finish_reason : option string }.

Record ChatCompletionResponse := {
  model : string;
  object : string;
  usage : option Usage;
  choices : list ChatChoiceChunk }.

Record ThinkState := {
  req_model : string;
  user_question : string;
  objectives : list ObjectiveState;
  think_usage : Usage }.

Definition MAX_OBJECTIVES : nat := 3.
Definition MIN_STEPS : nat := 3.
Definition MAX_STEPS : nat := 5.

(** Assignments to the fields of an objective. *)
Definition set_status (s : ObjectiveStatus) (o : ObjectiveState) : ObjectiveState :=
  {| answer := answer o; completion_criteria := completion_criteria o;
     description := description o; knowledges := knowledges o;
     short_name := short_name o; status := s; steps := steps o |}.

Definition set_answer (a : string) (o : ObjectiveState) : ObjectiveState :=
  {| answer := Some a; completion_criteria := completion_criteria o;
     description := description o; knowledges := knowledges o;
     short_name := short_name o; status := status o; steps := steps o |}.

(** [objective.steps.append(step)] *)
Definition append_step (st : StepState) (o : ObjectiveState) : ObjectiveState :=
  {| answer := answer o; completion_criteria := completion_criteria o;
     description := description o; knowledges := knowledges o;
     short_name := short_name o; status := status o; steps := steps o ++ [st] |}.

(** [objective.knowledges.append(...)], the effect of [_knowledge_tool]. *)
Definition append_knowledge (k : KnowledgeState) (o : ObjectiveState) : ObjectiveState :=
  {| answer := answer o; completion_criteria := completion_criteria o;
     description := description o; knowledges := knowledges o ++ [k];
     short_name := short_name o; status := status o; steps := steps o |}.

Definition is_terminal (s : ObjectiveStatus) : bool :=
  match s with COMPLETED | FAILED => true | _ => false end.

(** ** Completion adapters

    The adapters of [app/helpers/llm.py] are awaited; the text or value
    that the model produced is an input of the transition that resumes the
    caller.  An adapter can raise.  Inside a runner the exception leaves
    [_run_objective] and ends the job of the runner, and nothing else: the
    scheduler keeps it from [_think], which never awaits a job.  Inside
    [_think] the exception leaves [_think] and the session is over. *)

(** Modelled from the spec: [non_empty_completion] returns the text of the
    model, which is never empty; an empty output makes it raise. *)
Definition non_empty_completion (out : string) : option string :=
  if Text.truthy out then Some out else None.

(** ** Stop-check *)

(** [_should_stop_objective] from the text [res] that the completion call
    returned; [None] stands for Python's [False]. *)
Definition _should_stop_objective (res : string) : option string :=
  if Text.contains "can't answer" (Text.lower res) then None else Some res.

(** ** Objective runner

    [_run_objective] is suspended in one of its two completion calls or
    has not started or has returned: that is its control state.  The
    functions below are the segments of its body between two suspensions. *)

Inductive RunnerPc :=
| RSpawned      (* handed to the scheduler, body not entered *)
| RAwaitStop    (* suspended in the call of [_should_stop_objective] *)
| RAwaitStep    (* suspended in the call of [_new_step] *)
| RDone.        (* returned *)

#[global] Instance RunnerPc_eq_dec : EqDecision RunnerPc.
Proof. solve_decision. Defined.

(** From the test of the step cap to the call of [_new_step]. *)
Definition after_stop_check (o : ObjectiveState) : ObjectiveState * RunnerPc :=
  if MAX_STEPS <=? length (steps o)
  then (set_status FAILED o, RDone)
  else (o, RAwaitStep).

(** From the test of the [while] to the next completion call. *)
Definition loop_head (o : ObjectiveState) : ObjectiveState * RunnerPc :=
  match status o with
  | IN_PROGRESS =>
      if MIN_STEPS <=? length (steps o)
      then (o, RAwaitStop)
      else after_stop_check o
  | _ => (o, RDone)
  end.

(** Entry of the body. *)
Definition runner_start (o : ObjectiveState) : ObjectiveState * RunnerPc :=
  loop_head (set_status IN_PROGRESS o).

(** The stop-check call returned [res]. *)
Definition runner_on_stop (res : string) (o : ObjectiveState) : ObjectiveState * RunnerPc :=
  match _should_stop_objective res with
  | Some should_stop => (set_answer should_stop (set_status COMPLETED o), RDone)
  | None => after_stop_check o
  end.

(** [_new_step] returned [st]. *)
Definition runner_on_step (st : StepState) (o : ObjectiveState) : ObjectiveState * RunnerPc :=
  loop_head (append_step st o).

(** ** Detector and synthesizer *)

(** The class [_Objective] of [_detect_new_objectives]. *)
Record _Objective := {
  t_completion_criteria : string;
  t_description : string;
  t_short_name : string }.

(** The class [_Res]: [validated_completion] returns a value of that shape
    or raises, and the shape bounds [tasks] by [max_length=3]. *)
Definition _Res_validate (tasks : list _Objective) : option (list _Objective) :=
  if length tasks <=? 3 then Some tasks else None.

(** The value that [_detect_new_objectives] builds from the model output. *)
Definition _detect_new_objectives (out : list _Objective) : option (list ObjectiveState) :=
  tasks ← _Res_validate out;
  Some (map (fun task =>
               ObjectiveState_init (t_completion_criteria task) (t_description task)
                 (t_short_name task) None) tasks).

(** An optional text inside an f-string. *)
Definition fmt_answer (a : option string) : string :=
  match a with Some s => s | None => "None" end.

(** [if objective.answer] *)
Definition has_answer (o : ObjectiveState) : bool :=
  match answer o with Some s => Text.truthy s | None => false end.

Definition is_completed (o : ObjectiveState) : bool :=
  bool_decide (status o = COMPLETED).

Fixpoint spaces (n : nat) : string :=
  match n with 0 => EmptyString | S m => String " " (spaces m) end.

(** The [answers] text of [_answer_user]. *)
Definition answer_context (objs : list ObjectiveState) : string :=
  Text.join nl
    (map (fun o => "## " +:+ short_name o +:+ nl +:+ fmt_answer (answer o))
       (List.filter is_completed objs)).

Section Rendering.

(** How an [ObjectiveStatus] prints inside an f-string: the enumeration
    is declared outside of [app/think.py]. *)
Variable status_str : ObjectiveStatus -> string.

(** The turns that a step contributes to the transcript of its
    objective. *)
Variable step_turns : StepState -> list ChatMessage.

(** Modelled from the spec: [objective.history], a transcript derived
    from the sequence of steps of the objective. *)
Definition history (o : ObjectiveState) : list ChatMessage :=
  flat_map step_turns (steps o).

Definition digest_answered (objs : list ObjectiveState) : list string :=
  map (fun o => description o +:+ ": " +:+ fmt_answer (answer o))
    (List.filter has_answer objs).

Definition digest_open (objs : list ObjectiveState) : list string :=
  map (fun o => description o +:+ ": " +:+ status_str (status o))
    (List.filter (fun o => negb (has_answer o)) objs).

(** The user message of the detector call. *)
Definition detect_digest (objs : list ObjectiveState) : string :=
  nl +:+ spaces 20 +:+ Text.join nl (digest_answered objs) +:+
  nl +:+ spaces 20 +:+ Text.join nl (digest_open objs) +:+
  nl +:+ spaces 16.

End Rendering.

(** ** Queues and scheduler *)

(** An [asyncio.Queue] of texts: the items waiting and the number of
    items put and not yet acknowledged by [task_done]. *)
Record Queue := {
  items : list string;
  unfinished : nat }.

Definition queue_empty : Queue := {| items := []; unfinished := 0 |}.

Definition queue_put (x : string) (q : Queue) : Queue :=
  {| items := items q ++ [x]; unfinished := S (unfinished q) |}.

(** [get] returns at once when an item waits and suspends otherwise. *)
Definition queue_get (q : Queue) : option (string * Queue) :=
  match items q with
  | [] => None
  | x :: rest => Some (x, {| items := rest; unfinished := unfinished q |})
  end.

(** [task_done] raises when nothing is left to acknowledge. *)
Definition queue_task_done (q : Queue) : option Queue :=
  match unfinished q with
  | 0 => None
  | S n => Some {| items := items q; unfinished := n |}
  end.

(** [join] returns when every item put was acknowledged. *)
Definition queue_joined (q : Queue) : bool := unfinished q =? 0.

(** A job of the scheduler: the objective that its runner was given, as a
    position in [state.objectives], the control state of the runner, and
    whether an exception left its body, at the call that [job_pc] names.
    The list of jobs of a session holds every job spawned, in the order of
    [spawn]; the scheduler itself lets go of a job that ended. *)
Record Job := {
  job_objective : nat;
  job_pc : RunnerPc;
  job_raised : bool }.

(** A job is active until its runner returns or raises. *)
Definition job_active (j : Job) : bool :=
  negb (job_raised j) && negb (bool_decide (job_pc j = RDone)).

(** [scheduler.active_count] *)
Definition active_count (js : list Job) : nat := length (List.filter job_active js).

(** [scheduler.spawn] of the runner of objective [i]: below the limit of
    the scheduler the job is started without suspending the caller. *)
Definition spawn (i : nat) (js : list Job) : list Job :=
  js ++ [{| job_objective := i; job_pc := RSpawned; job_raised := false |}].

(** ** Think driver *)

Inductive DriverPc :=
| DPoll                  (* suspended in [asyncio.sleep] of the poll loop *)
| DAwaitDetect           (* suspended in the call of the detector *)
| DAwaitAnswer           (* past the loop, suspended in the call of [_answer_user] *)
| DReturned (u : Usage). (* [_think] returned [u] *)

#[global] Instance Usage_eq_dec : EqDecision Usage.
Proof. solve_decision. Defined.

#[global] Instance DriverPc_eq_dec : EqDecision DriverPc.
Proof. solve_decision. Defined.

(** The completion calls issued so far, in order: a record kept beside
    the program state, with what each call was given. *)
Inductive Call :=
| CallStep (i n : nat)                       (* [_new_step] for objective [i] holding [n] steps *)
| CallStop (i n : nat)                       (* stop-check for objective [i] holding [n] steps *)
| CallDetect (digest : string) (started : nat)
| CallAnswer (answers : string).

Record Core := {
  think : ThinkState;
  jobs : list Job;
  driver : DriverPc;
  thinking_queue : Queue;
  content_queue : Queue;
  calls : list Call }.

Inductive QueueId := Thinking | Content.

#[global] Instance QueueId_eq_dec : EqDecision QueueId.
Proof. solve_decision. Defined.

(** What resumes a task of the session. *)
Inductive Event :=
| RunnerStart (j : nat)                              (* the loop enters the body of job [j] *)
| KnowledgeTool (j : nat) (k : KnowledgeState)       (* the step call of job [j] runs the tool *)
| StepReply (j : nat) (st : StepState) (u : Usage)   (* the step call of job [j] returns *)
| StopReply (j : nat) (out : string) (u : Usage)     (* the model answers the stop-check of job [j] *)
| PollWake                                           (* the sleep of the poll loop ends *)
| DetectReply (out : list _Objective) (u : Usage)    (* the detector call returns *)
| AnswerReply (out : string) (u : Usage)             (* the call of [_answer_user] returns *)
| QueueGet (q : QueueId)                             (* the owner of the queues takes an item *)
| QueueTaskDone (q : QueueId)                        (* the owner acknowledges an item *)
| StepRaise (j : nat)                                (* the step call of job [j] raises *)
| StopRaise (j : nat).                               (* the stop-check call of job [j] raises *)

Definition set_objectives (objs : list ObjectiveState) (t : ThinkState) : ThinkState :=
  {| req_model := req_model t; user_question := user_question t;
     objectives := objs; think_usage := think_usage t |}.

Definition add_usage (u : Usage) (t : ThinkState) : ThinkState :=
  {| req_model := req_model t; user_question := user_question t;
     objectives := objectives t; think_usage := usage_add (think_usage t) u |}.

(** The [any(...)] of the [while] of [_think]. *)
Definition any_unfinished (objs : list ObjectiveState) : bool :=
  existsb (fun o => match status o with IN_PROGRESS | PENDING => true | _ => false end) objs.

(** The admission loop: each proposal is appended unless the cap is
    reached, which ends the loop.  Returns [new_objectives] and the new
    [state.objectives]. *)
Fixpoint admission (proposed objs : list ObjectiveState)
    : list ObjectiveState * list ObjectiveState :=
  match proposed with
  | [] => ([], objs)
  | objective :: rest =>
      if MAX_OBJECTIVES <=? length objs then ([], objs)
      else let '(new, objs') := admission rest (objs ++ [objective]) in
           (objective :: new, objs')
  end.

(** The loop that spawns one runner per admitted objective; [i] is the
    position of the first of them in [state.objectives]. *)
Fixpoint spawn_new (new : list ObjectiveState) (i : nat) (js : list Job) : list Job :=
  match new with
  | [] => js
  | _ :: rest => spawn_new rest (S i) (spawn i js)
  end.

(** What the runner of objective [i] asks next. *)
Definition runner_call (i : nat) (o : ObjectiveState) (pc : RunnerPc) : list Call :=
  match pc with
  | RAwaitStop => [CallStop i (length (steps o))]
  | RAwaitStep => [CallStep i (length (steps o))]
  | _ => []
  end.

Definition get_queue (q : QueueId) (c : Core) : Queue :=
  match q with Thinking => thinking_queue c | Content => content_queue c end.

Definition set_queue (q : QueueId) (v : Queue) (c : Core) : Core :=
  {| think := think c; jobs := jobs c; driver := driver c;
     thinking_queue := match q with Thinking => v | Content => thinking_queue c end;
     content_queue := match q with Content => v | Thinking => content_queue c end;
     calls := calls c |}.

Definition set_driver (d : DriverPc) (c : Core) : Core :=
  {| think := think c; jobs := jobs c; driver := d;
     thinking_queue := thinking_queue c; content_queue := content_queue c;
     calls := calls c |}.

Definition add_call (k : Call) (c : Core) : Core :=
  {| think := think c; jobs := jobs c; driver := driver c;
     thinking_queue := thinking_queue c; content_queue := content_queue c;
     calls := calls c ++ [k] |}.

Definition set_think (t : ThinkState) (c : Core) : Core :=
  {| think := t; jobs := jobs c; driver := driver c;
     thinking_queue := thinking_queue c; content_queue := content_queue c;
     calls := calls c |}.

Definition set_jobs (js : list Job) (c : Core) : Core :=
  {| think := think c; jobs := js; driver := driver c;
     thinking_queue := thinking_queue c; content_queue := content_queue c;
     calls := calls c |}.

(** Modelled from the spec: the adapters, which are missing, are given
    [think.usage] and add to it the tokens that their call consumed. *)
Definition charge (u : Usage) (c : Core) : Core := set_think (add_usage u (think c)) c.

(** The root objective of [_think]. *)
Definition seed_objective (question : string) : ObjectiveState :=
  ObjectiveState_init "User meaning is clear."
    "Rephrase if needed. If it helps, cut the question into smaller parts."
    "Identify question"
    (Some [{| k_description := question;
              k_short_name := "User question";
              k_source := "User message" |}]).

Section Session.

Variable status_str : ObjectiveStatus -> string.

(** Past the loop of [_think]: [_answer_user] issues its call. *)
Definition leave_loop (c : Core) : Core :=
  add_call (CallAnswer (answer_context (objectives (think c))))
    (set_driver DAwaitAnswer c).

(** The poll loop, then the call of the detector. *)
Definition poll (c : Core) : Core :=
  if 0 <? active_count (jobs c)
  then set_driver DPoll c
  else add_call (CallDetect (detect_digest status_str (objectives (think c)))
                   (length (objectives (think c))))
         (set_driver DAwaitDetect c).

(** The test of the [while] of [_think]. *)
Definition while_head (c : Core) : Core :=
  if any_unfinished (objectives (think c)) then poll c else leave_loop c.

(** The body of the [while] once the detector returned [proposed]. *)
Definition on_detect (proposed : list ObjectiveState) (c : Core) : Core :=
  let before := objectives (think c) in
  let '(new_objectives, objs) := admission proposed before in
  let c1 := set_think (set_objectives objs (think c)) c in
  match new_objectives with
  | [] =>
      if active_count (jobs c1) =? 0 then leave_loop c1 else while_head c1
  | _ :: _ =>
      while_head (set_jobs (spawn_new new_objectives (length before) (jobs c1)) c1)
  end.

(** The end of [_think] once [_answer_user] returned [res]. *)
Definition on_answer (res : string) (c : Core) : Core :=
  set_driver (DReturned (think_usage (think c)))
    (set_queue Content (queue_put res (content_queue c)) c).

(** Job [j], suspended at [expect], runs [segment] on its objective;
    [say] is what it puts on the thinking queue. *)
Definition resume_runner (j : nat) (expect : RunnerPc)
    (segment : ObjectiveState -> ObjectiveState * RunnerPc)
    (say : option string) (c : Core) : option Core :=
  job ← jobs c !! j;
  if decide (job_pc job = expect /\ job_raised job = false) then
    o ← objectives (think c) !! job_objective job;
    let '(o', pc') := segment o in
    Some {| think := set_objectives (<[job_objective job := o']> (objectives (think c)))
                       (think c);
            jobs := <[j := {| job_objective := job_objective job; job_pc := pc';
                              job_raised := false |}]> (jobs c);
            driver := driver c;
            thinking_queue :=
              match say with
              | Some x => queue_put x (thinking_queue c)
              | None => thinking_queue c
              end;
            content_queue := content_queue c;
            calls := calls c ++ runner_call (job_objective job) o' pc' |}
  else None.

(** [_knowledge_tool] runs inside the step call of job [j]. *)
Definition tool_call (j : nat) (k : KnowledgeState) (c : Core) : option Core :=
  job ← jobs c !! j;
  if decide (job_pc job = RAwaitStep /\ job_raised job = false) then
    o ← objectives (think c) !! job_objective job;
    Some (set_think
            (set_objectives
               (<[job_objective job := append_knowledge k o]> (objectives (think c)))
               (think c)) c)
  else None.

(** The completion call that job [j] awaits at [expect] raises: the
    exception leaves [_run_objective], whose body catches nothing, and the
    job ends.  The objective keeps the status that it has. *)
Definition runner_raises (j : nat) (expect : RunnerPc) (c : Core) : option Core :=
  job ← jobs c !! j;
  if decide (job_pc job = expect /\ job_raised job = false) then
    Some (set_jobs
            (<[j := {| job_objective := job_objective job; job_pc := job_pc job;
                       job_raised := true |}]> (jobs c)) c)
  else None.

(** One transition of the session; [None] when the event resumes
    nothing in [c] or when a call of [_think] itself raises, which ends
    the session. *)
Definition step (c : Core) (e : Event) : option Core :=
  match e with
  | RunnerStart j => resume_runner j RSpawned runner_start None c
  | KnowledgeTool j k => tool_call j k c
  | StepReply j st u =>
      resume_runner j RAwaitStep (runner_on_step st) (Some (s_short_name st)) (charge u c)
  | StepRaise j => runner_raises j RAwaitStep c
  | StopReply j out u =>
      match non_empty_completion out with
      | Some res => resume_runner j RAwaitStop (runner_on_stop res) None (charge u c)
      | None => runner_raises j RAwaitStop (charge u c)
      end
  | StopRaise j => runner_raises j RAwaitStop c
  | PollWake =>
      if decide (driver c = DPoll) then Some (poll c) else None
  | DetectReply out u =>
      if decide (driver c = DAwaitDetect) then
        proposed ← _detect_new_objectives out;
        Some (on_detect proposed (charge u c))
      else None
  | AnswerReply out u =>
      if decide (driver c = DAwaitAnswer) then
        res ← non_empty_completion out;
        Some (on_answer res (charge u c))
      else None
  | QueueGet q =>
      '(_, v) ← queue_get (get_queue q c);
      Some (set_queue q v c)
  | QueueTaskDone q =>
      v ← queue_task_done (get_queue q c);
      Some (set_queue q v c)
  end.

(** [_think] up to its first suspension: the state is created, the root
    objective is appended and its runner spawned, the loop is entered. *)
Definition think_start (model_id question : string) : Core :=
  while_head
    {| think := {| req_model := model_id; user_question := question;
                   objectives := [seed_objective question];
                   think_usage := usage_zero |};
       jobs := spawn 0 [];
       driver := DPoll;
       thinking_queue := queue_empty;
       content_queue := queue_empty;
       calls := [] |}.

Fixpoint run (c : Core) (es : list Event) : option Core :=
  match es with
  | [] => Some c
  | e :: rest => c' ← step c e; run c' rest
  end.

(** The states that a session passes through. *)
Inductive reachable (model_id question : string) : Core -> Prop :=
| reach_start : reachable model_id question (think_start model_id question)
| reach_step c e c' :
    reachable model_id question c -> step c e = Some c' ->
    reachable model_id question c'.

End Session.

(** ** Streaming driver

    [think_stream] runs [_think] and two consumers as tasks and puts
    chunks on the queue of its caller. *)

Inductive ConsumerPc :=
| CIdle                  (* suspended in [get] *)
| CHolding (x : string)  (* took [x], suspended in the [put] of its chunk *)
| CCancelled.

Inductive MainPc :=
| MAwaitThink            (* suspended in [await think_task] *)
| MAwaitJoin (u : Usage) (* suspended in the [gather] of the two [join] *)
| MAwaitPut (u : Usage)  (* consumers cancelled, suspended in the last [put] *)
| MReturned.

#[global] Instance ConsumerPc_eq_dec : EqDecision ConsumerPc.
Proof. solve_decision. Defined.

#[global] Instance MainPc_eq_dec : EqDecision MainPc.
Proof. solve_decision. Defined.

Record Stream := {
  core : Core;
  content_task : ConsumerPc;
  thinking_task : ConsumerPc;
  main : MainPc;
  completions_queue : list ChatCompletionResponse }.

(** The one shape of the chunks of [think_stream]. *)
Definition chunk (model_id : string) (text : option string) (u : option Usage)
    (reason : option string) : ChatCompletionResponse :=
  {| model := model_id;
     object := "chat.completion.chunk";
     usage := u;
     choices := [{| delta := {| content := text; role := "assistant" |};
                    index := 0;
                    finish_reason := reason |}] |}.

(** The chunk that a consumer builds from the item it took. *)
Definition consumer_chunk (q : QueueId) (model_id x : string) : ChatCompletionResponse :=
  match q with
  | Content => chunk model_id (Some x) None None
  | Thinking => chunk model_id (Some ("<think>" +:+ x +:+ "</think>")) None None
  end.

(** The end of stream. *)
Definition terminal_chunk (model_id : string) (u : Usage) : ChatCompletionResponse :=
  chunk model_id None (Some u) (Some "stop").

Definition consumer (q : QueueId) (s : Stream) : ConsumerPc :=
  match q with Content => content_task s | Thinking => thinking_task s end.

Definition set_consumer (q : QueueId) (pc : ConsumerPc) (s : Stream) : Stream :=
  {| core := core s;
     content_task := match q with Content => pc | Thinking => content_task s end;
     thinking_task := match q with Thinking => pc | Content => thinking_task s end;
     main := main s;
     completions_queue := completions_queue s |}.

Definition set_core (c : Core) (s : Stream) : Stream :=
  {| core := c; content_task := content_task s; thinking_task := thinking_task s;
     main := main s; completions_queue := completions_queue s |}.

Definition set_main (m : MainPc) (s : Stream) : Stream :=
  {| core := core s; content_task := content_task s; thinking_task := thinking_task s;
     main := m; completions_queue := completions_queue s |}.

(** [completions_queue.put] *)
Definition emit (r : ChatCompletionResponse) (s : Stream) : Stream :=
  {| core := core s; content_task := content_task s; thinking_task := thinking_task s;
     main := main s; completions_queue := completions_queue s ++ [r] |}.

Inductive StreamEvent :=
| Inner (e : Event)            (* a task of [_think] is resumed *)
| ConsumerGet (q : QueueId)    (* the [get] of a consumer returns *)
| ConsumerPut (q : QueueId)    (* the [put] of a consumer returns *)
| ThinkReturned                (* [await think_task] returns *)
| Joined                       (* the [gather] of the two [join] returns *)
| TerminalPut.                 (* the last [put] returns *)

(** The two queues are local to [think_stream]: nothing but its consumers
    takes from them. *)
Definition inner_event (e : Event) : bool :=
  match e with QueueGet _ | QueueTaskDone _ => false | _ => true end.

Section Streaming.

Variable status_str : ObjectiveStatus -> string.

Definition stream_step (s : Stream) (e : StreamEvent) : option Stream :=
  match e with
  | Inner e =>
      if inner_event e then
        c ← step status_str (core s) e; Some (set_core c s)
      else None
  | ConsumerGet q =>
      if decide (consumer q s = CIdle) then
        '(x, v) ← queue_get (get_queue q (core s));
        Some (set_consumer q (CHolding x) (set_core (set_queue q v (core s)) s))
      else None
  | ConsumerPut q =>
      match consumer q s with
      | CHolding x =>
          v ← queue_task_done (get_queue q (core s));
          Some (set_consumer q CIdle
                  (set_core (set_queue q v (core s))
                     (emit (consumer_chunk q (req_model (think (core s))) x) s)))
      | _ => None
      end
  | ThinkReturned =>
      match main s, driver (core s) with
      | MAwaitThink, DReturned u => Some (set_main (MAwaitJoin u) s)
      | _, _ => None
      end
  | Joined =>
      match main s with
      | MAwaitJoin u =>
          if queue_joined (content_queue (core s)) && queue_joined (thinking_queue (core s))
          then Some (set_main (MAwaitPut u)
                       (set_consumer Thinking CCancelled (set_consumer Content CCancelled s)))
          else None
      | _ => None
      end
  | TerminalPut =>
      match main s with
      | MAwaitPut u =>
          Some (set_main MReturned (emit (terminal_chunk (req_model (think (core s))) u) s))
      | _ => None
      end
  end.

(** [think_stream] up to its first suspension, all three tasks started. *)
Definition stream_start (model_id question : string) : Stream :=
  {| core := think_start status_str model_id question;
     content_task := CIdle;
     thinking_task := CIdle;
     main := MAwaitThink;
     completions_queue := [] |}.

Fixpoint stream_run (s : Stream) (es : list StreamEvent) : option Stream :=
  match es with
  | [] => Some s
  | e :: rest => s' ← stream_step s e; stream_run s' rest
  end.

Inductive stream_reachable (model_id question : string) : Stream -> Prop :=
| sreach_start : stream_reachable model_id question (stream_start model_id question)
| sreach_step s e s' :
    stream_reachable model_id question s -> stream_step s e = Some s' ->
    stream_reachable model_id question s'.

End Streaming.

(** ** Invariants *)

(** What holds of the objective of a runner at each of its control
    states. *)
Definition runner_inv (pc : RunnerPc) (o : ObjectiveState) : Prop :=
  match pc with
  | RSpawned => status o = PENDING /\ steps o = [] /\ answer o = None
  | RAwaitStep =>
      status o = IN_PROGRESS /\ length (steps o) < MAX_STEPS /\ answer o = None
  | RAwaitStop =>
      status o = IN_PROGRESS /\ MIN_STEPS <= length (steps o) <= MAX_STEPS /\
      answer o = None
  | RDone =>
      (status o = COMPLETED /\ MIN_STEPS <= length (steps o) <= MAX_STEPS /\
       exists a, answer o = Some a /\ Text.truthy a = true /\
                 _should_stop_objective a = Some a) \/
      (status o = FAILED /\ length (steps o) = MAX_STEPS /\ answer o = None)
  end.

(** The status of an objective moves along these edges only. *)
Inductive status_edge : ObjectiveStatus -> ObjectiveStatus -> Prop :=
| edge_start : status_edge PENDING IN_PROGRESS
| edge_complete : status_edge IN_PROGRESS COMPLETED
| edge_fail : status_edge IN_PROGRESS FAILED.

(** One segment of a runner changes its objective in one of these ways. *)
Inductive objective_move (o o' : ObjectiveState) : Prop :=
| move_same :
    status o' = status o -> answer o' = answer o ->
    (steps o' = steps o \/ exists st, steps o' = steps o ++ [st]) ->
    objective_move o o'
| move_start :
    status o = PENDING -> status o' = IN_PROGRESS -> answer o' = answer o ->
    steps o' = steps o -> objective_move o o'
| move_complete a :
    status o = IN_PROGRESS -> status o' = COMPLETED ->
    answer o = None -> answer o' = Some a -> steps o' = steps o ->
    objective_move o o'
| move_fail :
    status o = IN_PROGRESS -> status o' = FAILED -> answer o' = answer o ->
    steps o' = steps o -> length (steps o) = MAX_STEPS ->
    objective_move o o'.

(** No job is active. *)
Definition all_ended (js : list Job) : Prop := Forall (fun j => job_active j = false) js.

(** Job and objective at the same position belong together. *)
Definition job_inv (j : Job) (o : ObjectiveState) : Prop := runner_inv (job_pc j) o.

(** The store of a session: one job per objective, in order; a runner
    raises from a completion call only. *)
Record store_inv (c : Core) : Prop := {
  inv_jobs : Forall2 job_inv (jobs c) (objectives (think c));
  inv_index : forall k j, jobs c !! k = Some j -> job_objective j = k;
  inv_count : 1 <= length (objectives (think c)) <= MAX_OBJECTIVES;
  inv_raised : forall k j, jobs c !! k = Some j -> job_raised j = true ->
      job_pc j = RAwaitStep \/ job_pc j = RAwaitStop }.

(** The driver leaves the poll loop only when no job is active. *)
Record core_inv (c : Core) : Prop := {
  inv_store : store_inv c;
  inv_driver : driver c <> DPoll -> all_ended (jobs c) }.

(** What the segment resumed by an event does to the objective of its
    runner: the event, the control state the runner was suspended at, the
    objective before and after. *)
Inductive runner_move : Event -> nat -> RunnerPc -> ObjectiveState -> ObjectiveState -> Prop :=
| rm_start j o :
    runner_move (RunnerStart j) j RSpawned o (set_status IN_PROGRESS o)
| rm_tool j k o :
    runner_move (KnowledgeTool j k) j RAwaitStep o (append_knowledge k o)
| rm_step j st u o :
    runner_move (StepReply j st u) j RAwaitStep o (append_step st o)
| rm_stop j out u o :
    Text.truthy out = true ->
    runner_move (StopReply j out u) j RAwaitStop o (fst (runner_on_stop out o)).

(** What one transition does to [state.objectives]. *)
Inductive store_change (c : Core) (e : Event) (c' : Core) : Prop :=
| change_none :
    (forall j st u, e <> StepReply j st u) ->
    (forall out u, e <> DetectReply out u) ->
    objectives (think c') = objectives (think c) ->
    store_change c e c'
| change_admit out u proposed :
    e = DetectReply out u ->
    driver c = DAwaitDetect ->
    _detect_new_objectives out = Some proposed ->
    objectives (think c') =
      objectives (think c) ++
      firstn (MAX_OBJECTIVES - length (objectives (think c))) proposed ->
    store_change c e c'
| change_runner j pc o o' :
    jobs c !! j = Some {| job_objective := j; job_pc := pc; job_raised := false |} ->
    objectives (think c) !! j = Some o ->
    runner_inv pc o ->
    runner_move e j pc o o' ->
    objectives (think c') = <[j := o']> (objectives (think c)) ->
    store_change c e c'.

(** The runner that issued a call, when a runner did. *)
Definition call_runner (k : Call) : option nat :=
  match k with
  | CallStep i _ | CallStop i _ => Some i
  | _ => None
  end.

(** The calls of the runner of objective [i], in order. *)
Definition calls_of (i : nat) (ks : list Call) : list Call :=
  List.filter (fun k => bool_decide (call_runner k = Some i)) ks.

(** When a stop-check may be asked, and when a step. *)
Definition call_ok (k : Call) : Prop :=
  match k with
  | CallStop _ n => MIN_STEPS <= n <= MAX_STEPS
  | CallStep _ n => n < MAX_STEPS
  | _ => True
  end.

(** What the latest call of a runner is at each of its control states. *)
Definition log_at (i : nat) (pc : RunnerPc) (o : ObjectiveState) (ks : list Call) : Prop :=
  match pc with
  | RSpawned => calls_of i ks = []
  | RAwaitStep => last (calls_of i ks) = Some (CallStep i (length (steps o)))
  | RAwaitStop | RDone => last (calls_of i ks) = Some (CallStop i (length (steps o)))
  end.

Record log_inv (c : Core) : Prop := {
  log_ok : Forall call_ok (calls c);
  log_jobs : forall i k, In k (calls c) -> call_runner k = Some i -> i < length (jobs c);
  log_last : forall i job o,
      jobs c !! i = Some job -> objectives (think c) !! i = Some o ->
      log_at i (job_pc job) o (calls c) }.

(** A segment ends the runner only from the stop-check, steps unchanged,
    and never brings it back to its start. *)
Definition segment_ok (expect : RunnerPc)
    (segment : ObjectiveState -> ObjectiveState * RunnerPc) : Prop :=
  forall o, runner_inv expect o ->
    snd (segment o) <> RSpawned /\
    (snd (segment o) = RDone ->
     expect = RAwaitStop /\ steps (fst (segment o)) = steps o).

(** A segment of the driver that spawns nothing leaves jobs and
    objectives as they are and records calls of its own only. *)
Definition driver_frame (c c' : Core) : Prop :=
  jobs c' = jobs c /\ objectives (think c') = objectives (think c) /\
  exists extra, calls c' = calls c ++ extra /\
                forall k, In k extra -> call_runner k = None.

(** ** Sample sessions *)

Module Sample.

(** A printing of the statuses. *)
Definition status_str (s : ObjectiveStatus) : string :=
  match s with
  | PENDING => "pending"
  | IN_PROGRESS => "in_progress"
  | COMPLETED => "completed"
  | FAILED => "failed"
  end.

Definition tokens : Usage := {| prompt_tokens := 7; completion_tokens := 2 |}.

Definition a_step (name : string) : StepState :=
  {| s_short_name := name; s_fields := "" |}.

Definition a_task (name : string) : _Objective :=
  {| t_completion_criteria := "criteria of " +:+ name;
     t_description := "description of " +:+ name;
     t_short_name := name |}.

Definition start : Core := think_start status_str "model" "What is the capital of France?".

(** The root objective takes three steps. *)
Definition three_steps : list Event :=
  [RunnerStart 0; StepReply 0 (a_step "read") tokens;
   StepReply 0 (a_step "search") tokens; StepReply 0 (a_step "check") tokens].

(** ... and its first stop-check answers: the detector proposes nothing
    and the answer is written. *)
Definition capital_of_france : list Event :=
  three_steps ++
  [StopReply 0 "Paris is the capital." tokens; PollWake; DetectReply [] tokens;
   AnswerReply "Paris." tokens].

(** The root objective is refused at three, four and five steps, up to
    the last stop-check, whose reply is awaited. *)
Definition before_last_stop_check : list Event :=
  three_steps ++
  [StopReply 0 "Can't answer" tokens; StepReply 0 (a_step "again") tokens;
   StopReply 0 "I can't answer yet." tokens; StepReply 0 (a_step "once more") tokens].

Definition never_answered : list Event :=
  before_last_stop_check ++ [StopReply 0 "CAN'T ANSWER." tokens].

(** The root objective failed and the detector proposes three. *)
Definition three_proposals : list Event :=
  never_answered ++
  [PollWake; DetectReply [a_task "first"; a_task "second"; a_task "third"] tokens].

(** An objective in a given state. *)
Definition an_objective (name : string) (s : ObjectiveStatus) (a : option string)
    : ObjectiveState :=
  {| answer := a;
     completion_criteria := "criteria of " +:+ name;
     description := "description of " +:+ name;
     knowledges := [];
     short_name := name;
     status := s;
     steps := [] |}.

(** The root objective failed, nothing is proposed, the answer is written. *)
Definition nothing_completed : list Event :=
  never_answered ++ [PollWake; DetectReply [] tokens].

(** The first step call of the root objective raises; the detector is
    asked and proposes nothing. *)
Definition step_call_raises : list Event :=
  [RunnerStart 0; StepRaise 0; PollWake; DetectReply [] tokens].

End Sample.

(** The call that the driver awaits is the latest of the record and was
    given the objectives as they are. *)
Definition driver_inv (status_str : ObjectiveStatus -> string) (c : Core) : Prop :=
  match driver c with
  | DAwaitDetect =>
      last (calls c) =
      Some (CallDetect (detect_digest status_str (objectives (think c)))
              (length (objectives (think c))))
  | DAwaitAnswer =>
      last (calls c) = Some (CallAnswer (answer_context (objectives (think c))))
  | _ => True
  end.

(** ** Invariants of the streaming driver *)

(** The item that a consumer took and has not acknowledged. *)
Definition holding (pc : ConsumerPc) : nat :=
  match pc with CHolding _ => 1 | _ => 0 end.

(** A chunk that is not the end of stream: no usage, no finish reason. *)
Definition nonterminal (r : ChatCompletionResponse) : Prop :=
  usage r = None /\ Forall (fun ch => finish_reason ch = None) (choices r).

(** Nothing waits in the queue and nothing is left to acknowledge. *)
Definition drained (q : Queue) : Prop := items q = [] /\ unfinished q = 0.

Definition main_inv (model_id : string) (s : Stream) : Prop :=
  match main s with
  | MAwaitThink =>
      Forall nonterminal (completions_queue s) /\
      content_task s <> CCancelled /\ thinking_task s <> CCancelled
  | MAwaitJoin u =>
      driver (core s) = DReturned u /\
      Forall nonterminal (completions_queue s) /\
      content_task s <> CCancelled /\ thinking_task s <> CCancelled
  | MAwaitPut u =>
      driver (core s) = DReturned u /\
      Forall nonterminal (completions_queue s) /\
      content_task s = CCancelled /\ thinking_task s = CCancelled /\
      drained (content_queue (core s)) /\ drained (thinking_queue (core s))
  | MReturned =>
      (exists body u,
         completions_queue s = body ++ [terminal_chunk model_id u] /\
         Forall nonterminal body /\ driver (core s) = DReturned u) /\
      content_task s = CCancelled /\ thinking_task s = CCancelled /\
      drained (content_queue (core s)) /\ drained (thinking_queue (core s))
  end.

Record stream_inv (status_str : ObjectiveStatus -> string) (model_id question : string)
    (s : Stream) : Prop := {
  sinv_core : reachable status_str model_id question (core s);
  sinv_balance : forall q,
      unfinished (get_queue q (core s)) =
      length (items (get_queue q (core s))) + holding (consumer q s);
  sinv_main : main_inv model_id s }.

Module StreamSample.

(** The session of [Sample.capital_of_france] under [think_stream]: the
    consumers run between the steps, then the queues are joined. *)
Definition session : list StreamEvent :=
  [Inner (RunnerStart 0);
   Inner (StepReply 0 (Sample.a_step "read") Sample.tokens);
   ConsumerGet Thinking;
   Inner (StepReply 0 (Sample.a_step "search") Sample.tokens);
   ConsumerPut Thinking;
   Inner (StepReply 0 (Sample.a_step "check") Sample.tokens);
   Inner (StopReply 0 "Paris is the capital." Sample.tokens);
   ConsumerGet Thinking; ConsumerPut Thinking;
   Inner PollWake; Inner (DetectReply [] Sample.tokens);
   Inner (AnswerReply "Paris." Sample.tokens);
   ThinkReturned;
   ConsumerGet Content; ConsumerGet Thinking; ConsumerPut Content; ConsumerPut Thinking;
   Joined; TerminalPut].

Definition start : Stream :=
  stream_start Sample.status_str "model" "What is the capital of France?".

End StreamSample.

(** ** The calls of a runner *)

(** The calls that a runner has made once it appended [n] steps: each
    step call, preceded by a stop-check from MIN_STEPS steps on. *)
Fixpoint runner_script (i n : nat) : list Call :=
  match n with
  | 0 => []
  | S k =>
      runner_script i k ++
      (if MIN_STEPS <=? k then [CallStop i k] else []) ++ [CallStep i k]
  end.

(** The calls of a runner at a control state, [n] steps appended. *)
Definition script_at (i : nat) (pc : RunnerPc) (n : nat) : list Call :=
  match pc with
  | RSpawned => []
  | RAwaitStep => runner_script i (S n)
  | RAwaitStop | RDone => runner_script i n ++ [CallStop i n]
  end.

(** All the calls that a runner can make. *)
Definition full_script (i : nat) : list Call :=
  [CallStep i 0; CallStep i 1; CallStep i 2; CallStop i 3; CallStep i 3;
   CallStop i 4; CallStep i 4; CallStop i 5].

Definition script_inv (c : Core) : Prop :=
  forall i job o,
    jobs c !! i = Some job -> objectives (think c) !! i = Some o ->
    calls_of i (calls c) = script_at i (job_pc job) (length (steps o)).

(** A segment adds to the script of its runner the call that it issues. *)
Definition segment_script (expect : RunnerPc)
    (segment : ObjectiveState -> ObjectiveState * RunnerPc) : Prop :=
  forall i o, runner_inv expect o ->
    script_at i (snd (segment o)) (length (steps (fst (segment o)))) =
    script_at i expect (length (steps o)) ++
    runner_call i (fst (segment o)) (snd (segment o)).

Definition is_detect (k : Call) : bool :=
  match k with CallDetect _ _ => true | _ => false end.

Definition is_answer (k : Call) : bool :=
  match k with CallAnswer _ => true | _ => false end.

Definition is_runner_call (k : Call) : bool :=
  match call_runner k with Some _ => true | None => false end.

(** The calls of the driver so far, by the place the driver is at. *)
Definition budget_inv (c : Core) : Prop :=
  let detects := length (List.filter is_detect (calls c)) in
  let answers := length (List.filter is_answer (calls c)) in
  match driver c with
  | DPoll => detects + 1 <= length (objectives (think c)) /\ answers = 0
  | DAwaitDetect => detects <= length (objectives (think c)) /\ answers = 0
  | DAwaitAnswer | DReturned _ =>
      detects <= length (objectives (think c)) /\ answers = 1
  end.

(** ** What the stream puts and emits *)

(** The item that an event of [think_stream] puts on a queue. *)
Definition stream_put (q : QueueId) (e : StreamEvent) : list string :=
  match q, e with
  | Thinking, Inner (StepReply _ st _) => [s_short_name st]
  | Content, Inner (AnswerReply out _) => [out]
  | _, _ => []
  end.

(** The items put on a queue by the events of a session, in order. *)
Definition stream_puts (q : QueueId) (es : list StreamEvent) : list string :=
  flat_map (stream_put q) es.

Definition held (pc : ConsumerPc) : list string :=
  match pc with CHolding x => [x] | _ => [] end.

(** [l] takes its elements from [l1] and [l2], each in its order. *)
Inductive interleaved {A : Type} : list A -> list A -> list A -> Prop :=
| il_nil : interleaved [] [] []
| il_left l1 l2 l x : interleaved l1 l2 l -> interleaved (l1 ++ [x]) l2 (l ++ [x])
| il_right l1 l2 l x : interleaved l1 l2 l -> interleaved l1 (l2 ++ [x]) (l ++ [x]).

(** The chunks put so far are those of the items that the consumers
    acknowledged, and every item put is acknowledged, held or waiting. *)
Definition fifo_inv (model_id : string) (es : list StreamEvent) (s : Stream) : Prop :=
  exists ct th body,
    interleaved (map (consumer_chunk Content model_id) ct)
      (map (consumer_chunk Thinking model_id) th) body /\
    completions_queue s =
      body ++
      (if decide (main s = MReturned)
       then [terminal_chunk model_id (think_usage (think (core s)))] else []) /\
    ct ++ held (content_task s) ++ items (content_queue (core s)) =
      stream_puts Content es /\
    th ++ held (thinking_task s) ++ items (thinking_queue (core s)) =
      stream_puts Thinking es /\
    match driver (core s) with
    | DReturned _ => exists a, stream_puts Content es = [a]
    | _ => stream_puts Content es = []
    end.

(** ** Synchronous driver

    [think_sync] awaits [_think], with no consumer beside it, then takes
    every item of the two queues and returns one message. *)

Record ChatChoiceMessage := {
  m_index : nat;
  message : ChatMessage;
  m_finish_reason : option string }.

(** The response of [think_sync], a [ChatCompletionResponse] whose choice
    is a message. *)
Record ChatCompletion := {
  c_model : string;
  c_object : string;
  c_usage : option Usage;
  c_choices : list ChatChoiceMessage }.

(** The loop [while not q.empty(): acc += render(await q.get());
    q.task_done()]; [fuel] bounds its iterations. *)
Fixpoint drain (render : string -> string) (fuel : nat) (q : Queue) (acc : string)
    : option (string * Queue) :=
  match items q, fuel with
  | [], _ => Some (acc, q)
  | _ :: _, 0 => None
  | _ :: _, S k =>
      '(x, q1) ← queue_get q;
      q2 ← queue_task_done q1;
      drain render k q2 (acc +:+ render x)
  end.

(** [think_sync] once [_think] has returned. *)
Definition think_sync (c : Core) : option (ChatCompletion * Core) :=
  match driver c with
  | DReturned u =>
      '(thinking_str, tq) ←
        drain (fun x => "- " +:+ x +:+ nl) (length (items (thinking_queue c)))
          (thinking_queue c) "";
      '(content_str, cq) ←
        drain (fun x => x +:+ nl) (length (items (content_queue c)))
          (content_queue c) "";
      Some ({| c_model := req_model (think c);
               c_object := "chat.completion";
               c_usage := Some u;
               c_choices :=
                 [{| m_index := 0;
                     message :=
                       {| content := Some ("<think>" +:+ Text.strip thinking_str +:+
                                           "</think>" +:+ Text.strip content_str);
                          role := "assistant" |};
                     m_finish_reason := Some "stop" |}] |},
            set_queue Content cq (set_queue Thinking tq c))
  | _ => None
  end.

(** The short names put on the thinking queue and the answers put on the
    content queue by the events of [_think], in order. *)
Definition narrations (es : list Event) : list string :=
  flat_map (fun e => match e with StepReply _ st _ => [s_short_name st] | _ => [] end) es.

Definition answers_put (es : list Event) : list string :=
  flat_map (fun e => match e with AnswerReply out _ => [out] | _ => [] end) es.

(** [acc] followed by the rendering of each item. *)
Definition rendered (render : string -> string) (acc : string) (its : list string) : string :=
  fold_left (fun a x => a +:+ render x) its acc.


(** ** How far a session is from its end *)

(** The replies that a runner still needs at least: one per step up to
    MIN_STEPS, at least one, then one stop-check. *)
Definition runner_distance (pc : RunnerPc) (n : nat) : nat :=
  match pc with
  | RSpawned => S (S (Nat.max 1 (MIN_STEPS - 0)))
  | RAwaitStep => S (Nat.max 1 (MIN_STEPS - n))
  | RAwaitStop => 1
  | RDone => 0
  end.

Definition job_distance (j : Job) (o : ObjectiveState) : nat :=
  if job_raised j then 0 else runner_distance (job_pc j) (length (steps o)).

Definition driver_distance (d : DriverPc) : nat :=
  match d with
  | DPoll => 3
  | DAwaitDetect => 2
  | DAwaitAnswer => 1
  | DReturned _ => 0
  end.

Definition distance (c : Core) : nat :=
  list_sum (zip_with job_distance (jobs c) (objectives (think c))) +
  driver_distance (driver c).

(** An event that brings a runner nearer to its end: it starts, its step
    call returns a step, its stop-check call returns an answer. *)
Definition runner_event (j : nat) (pc : RunnerPc) : Event :=
  match pc with
  | RSpawned => RunnerStart j
  | RAwaitStep => StepReply j {| s_short_name := "step"; s_fields := "" |} usage_zero
  | _ => StopReply j "answer" usage_zero
  end.

(** An event that brings the driver nearer to its end. *)
Definition driver_event (d : DriverPc) : Event :=
  match d with
  | DPoll => PollWake
  | DAwaitDetect => DetectReply [] usage_zero
  | _ => AnswerReply "answer" usage_zero
  end.

Definition main_distance (m : MainPc) : nat :=
  match m with
  | MAwaitThink => 3
  | MAwaitJoin _ => 2
  | MAwaitPut _ => 1
  | MReturned => 0
  end.

(** How far a streaming session is from its end of stream: an item costs
    a [get] and a [put], and a reply of the model can add an item. *)
Definition stream_distance (s : Stream) : nat :=
  3 * distance (core s) +
  2 * (length (items (thinking_queue (core s))) + length (items (content_queue (core s)))) +
  holding (thinking_task s) + holding (content_task s) +
  main_distance (main s).

(** * Properties *)

(** ** Texts *)

Module TextFacts.
Import Text.

Lemma prefix_app (p s : string) :
  String.prefix p s = true <-> exists post, s = p +:+ post.
Proof.
  revert s. induction p as [|c p IH]; intros s; simpl.
  - destruct s; simpl; split; eauto.
  - destruct s as [|d s]; simpl.
    + split; [discriminate | intros [post H]; discriminate].
    + destruct (ascii_dec c d) as [->|Hne].
      * rewrite IH. split; intros [post H]; exists post.
        -- now rewrite H.
        -- now injection H.
      * split; [discriminate | intros [post H]; injection H; congruence].
Qed.

Lemma contains_nil (sub : string) :
  contains sub "" = String.prefix sub "".
Proof. simpl. apply orb_false_r. Qed.

Lemma contains_cons (sub : string) (c : ascii) (s : string) :
  contains sub (String c s) = String.prefix sub (String c s) || contains sub s.
Proof. reflexivity. Qed.

Lemma contains_app (sub s : string) :
  contains sub s = true <-> exists pre post, s = pre +:+ sub +:+ post.
Proof.
  induction s as [|c s IH].
  - rewrite contains_nil, prefix_app. split.
    + intros [post H]. exists "", post. exact H.
    + intros [pre [post H]]. destruct pre; simpl in H; [eauto | discriminate].
  - rewrite contains_cons, orb_true_iff, prefix_app, IH. split.
    + intros [[post H] | [pre [post H]]].
      * exists "", post. exact H.
      * exists (String c pre), post. simpl. now rewrite H.
    + intros [pre [post H]]. destruct pre as [|d pre]; simpl in H.
      * left. eauto.
      * right. exists pre, post. now injection H.
Qed.

Lemma lower_app (s t : string) : lower (s +:+ t) = lower s +:+ lower t.
Proof. induction s as [|c s IH]; simpl; [reflexivity | now rewrite IH]. Qed.

Lemma contains_lower (sub s : string) :
  contains sub s = true -> contains (lower sub) (lower s) = true.
Proof.
  rewrite !contains_app. intros [pre [post ->]].
  exists (lower pre), (lower post). now rewrite !lower_app.
Qed.

End TextFacts.


(** ** The runner, one segment at a time *)

Lemma length_append_step st o :
  length (steps (append_step st o)) = S (length (steps o)).
Proof. simpl. rewrite length_app. simpl. lia. Qed.

Lemma after_stop_check_inv o :
  status o = IN_PROGRESS -> length (steps o) <= MAX_STEPS -> answer o = None ->
  runner_inv (snd (after_stop_check o)) (fst (after_stop_check o)).
Proof.
  intros Hs Hl Ha. unfold after_stop_check.
  destruct (Nat.leb_spec MAX_STEPS (length (steps o))); simpl.
  - right. repeat split; [lia | assumption].
  - repeat split; assumption.
Qed.

Lemma loop_head_inv o :
  status o = IN_PROGRESS -> length (steps o) <= MAX_STEPS -> answer o = None ->
  runner_inv (snd (loop_head o)) (fst (loop_head o)).
Proof.
  intros Hs Hl Ha. unfold loop_head. rewrite Hs.
  destruct (Nat.leb_spec MIN_STEPS (length (steps o))); simpl.
  - repeat split; assumption.
  - now apply after_stop_check_inv.
Qed.

Lemma runner_start_inv o :
  runner_inv RSpawned o ->
  runner_inv (snd (runner_start o)) (fst (runner_start o)).
Proof.
  intros (Hs & Hl & Ha). unfold runner_start.
  apply loop_head_inv; simpl; [reflexivity | rewrite Hl; simpl; unfold MAX_STEPS; lia | assumption].
Qed.

Lemma runner_on_step_inv st o :
  runner_inv RAwaitStep o ->
  runner_inv (snd (runner_on_step st o)) (fst (runner_on_step st o)).
Proof.
  intros (Hs & Hl & Ha). unfold runner_on_step.
  apply loop_head_inv; [assumption | rewrite length_append_step; lia | assumption].
Qed.

Lemma runner_on_stop_inv res o :
  Text.truthy res = true ->
  runner_inv RAwaitStop o ->
  runner_inv (snd (runner_on_stop res o)) (fst (runner_on_stop res o)).
Proof.
  intros Hres (Hs & Hl & Ha). unfold runner_on_stop.
  destruct (_should_stop_objective res) as [a|] eqn:E.
  - simpl. left. repeat split; try lia. exists a. repeat split.
    + unfold _should_stop_objective in E.
      destruct (Text.contains _ _); congruence.
    + unfold _should_stop_objective in *.
      destruct (Text.contains _ (Text.lower res)) eqn:C; [discriminate|].
      injection E as <-. now rewrite C.
  - apply after_stop_check_inv; [assumption | lia | assumption].
Qed.

Lemma append_knowledge_inv k pc o :
  runner_inv pc o -> runner_inv pc (append_knowledge k o).
Proof. destruct pc; simpl; trivial. Qed.

(** ** Scheduler, admission and spawning *)

Lemma active_count_0 js : active_count js = 0 <-> all_ended js.
Proof.
  unfold active_count, all_ended. induction js as [|j js IH]; simpl.
  - split; [constructor | reflexivity].
  - destruct (job_active j) eqn:E; simpl.
    + split; [discriminate | inversion 1; congruence].
    + rewrite IH. split; [intros; constructor; assumption | inversion 1; assumption].
Qed.

Lemma all_ended_lookup js k j :
  all_ended js -> js !! k = Some j -> job_active j = false.
Proof. intros H Hk. exact (proj1 (Forall_lookup _ js) H k j Hk). Qed.

Lemma job_active_running job :
  job_raised job = false -> job_pc job <> RDone -> job_active job = true.
Proof.
  intros Hr Hpc. unfold job_active. rewrite Hr. simpl.
  now rewrite bool_decide_eq_false_2.
Qed.

Lemma job_active_done job : job_pc job = RDone -> job_active job = false.
Proof.
  intros Hpc. unfold job_active. rewrite Hpc. simpl. apply andb_false_r.
Qed.

Lemma admission_cons o rest objs :
  admission (o :: rest) objs =
  if MAX_OBJECTIVES <=? length objs then ([], objs)
  else (o :: fst (admission rest (objs ++ [o])), snd (admission rest (objs ++ [o]))).
Proof.
  cbn [admission]. destruct (MAX_OBJECTIVES <=? length objs); [reflexivity|].
  now destruct (admission rest (objs ++ [o])).
Qed.

Lemma admission_firstn proposed objs :
  admission proposed objs =
  (firstn (MAX_OBJECTIVES - length objs) proposed,
   objs ++ firstn (MAX_OBJECTIVES - length objs) proposed).
Proof.
  revert objs. induction proposed as [|o rest IH]; intros objs.
  - rewrite firstn_nil, app_nil_r. reflexivity.
  - rewrite admission_cons.
    destruct (Nat.leb_spec MAX_OBJECTIVES (length objs)) as [H|H].
    + replace (MAX_OBJECTIVES - length objs) with 0 by lia.
      rewrite firstn_O. now rewrite app_nil_r.
    + rewrite IH, length_app.
      replace (MAX_OBJECTIVES - length objs)
        with (S (MAX_OBJECTIVES - (length objs + length [o]))) by (simpl length; lia).
      rewrite firstn_cons. cbn [fst snd]. now rewrite <- app_assoc.
Qed.

Lemma admission_length proposed objs :
  length objs <= MAX_OBJECTIVES ->
  length (snd (admission proposed objs)) = Nat.min MAX_OBJECTIVES (length objs + length proposed).
Proof.
  intros H. rewrite admission_firstn. cbn [snd].
  rewrite length_app, length_firstn. lia.
Qed.

Lemma spawn_new_app new i js :
  spawn_new new i js =
  js ++ map (fun k => {| job_objective := k; job_pc := RSpawned; job_raised := false |})
          (seq i (length new)).
Proof.
  revert i js. induction new as [|o rest IH]; intros i js; simpl.
  - now rewrite app_nil_r.
  - rewrite IH. unfold spawn. now rewrite <- app_assoc.
Qed.

Lemma ObjectiveState_init_spawned criteria descr name given :
  runner_inv RSpawned (ObjectiveState_init criteria descr name given).
Proof. repeat split. Qed.

Lemma detected_spawned out proposed :
  _detect_new_objectives out = Some proposed ->
  Forall (runner_inv RSpawned) proposed.
Proof.
  unfold _detect_new_objectives, _Res_validate.
  destruct (length out <=? 3); simpl; [|discriminate].
  intros [= <-]. induction out as [|t out IH]; simpl; constructor.
  - apply ObjectiveState_init_spawned.
  - exact IH.
Qed.

(** ** The store invariant *)

Lemma store_inv_ext c c' :
  jobs c' = jobs c -> objectives (think c') = objectives (think c) ->
  store_inv c -> store_inv c'.
Proof.
  intros Hj Ho [H1 H2 H3]. split; rewrite ?Hj, ?Ho; assumption.
Qed.

Lemma resume_runner_Some j expect segment say c c' :
  resume_runner j expect segment say c = Some c' ->
  exists job o,
    jobs c !! j = Some job /\ job_pc job = expect /\
    objectives (think c) !! job_objective job = Some o /\
    c' = {| think := set_objectives
                       (<[job_objective job := fst (segment o)]> (objectives (think c)))
                       (think c);
            jobs := <[j := {| job_objective := job_objective job;
                              job_pc := snd (segment o); job_raised := false |}]> (jobs c);
            driver := driver c;
            thinking_queue :=
              match say with
              | Some x => queue_put x (thinking_queue c)
              | None => thinking_queue c
              end;
            content_queue := content_queue c;
            calls := calls c ++
                     runner_call (job_objective job) (fst (segment o)) (snd (segment o)) |}.
Proof.
  unfold resume_runner. intros H.
  destruct (jobs c !! j) as [job|] eqn:Hjob; simpl in H; [|discriminate].
  destruct (decide (job_pc job = expect /\ job_raised job = false)) as [[Hpc Hr]|];
    [|discriminate].
  destruct (objectives (think c) !! job_objective job) as [o|] eqn:Ho; simpl in H;
    [|discriminate].
  exists job, o. destruct (segment o) as [o' pc']. simpl.
  injection H as <-. auto.
Qed.

Lemma resume_runner_running j expect segment say c c' :
  resume_runner j expect segment say c = Some c' ->
  exists job, jobs c !! j = Some job /\ job_pc job = expect /\ job_raised job = false.
Proof.
  unfold resume_runner. intros H.
  destruct (jobs c !! j) as [job|] eqn:Hjob; simpl in H; [|discriminate].
  destruct (decide (job_pc job = expect /\ job_raised job = false)) as [[Hpc Hr]|];
    [|discriminate].
  eauto.
Qed.

Lemma tool_call_Some j k c c' :
  tool_call j k c = Some c' ->
  exists job o,
    jobs c !! j = Some job /\ job_pc job = RAwaitStep /\
    objectives (think c) !! job_objective job = Some o /\
    c' = set_think
           (set_objectives
              (<[job_objective job := append_knowledge k o]> (objectives (think c)))
              (think c)) c.
Proof.
  unfold tool_call. intros H.
  destruct (jobs c !! j) as [job|] eqn:Hjob; simpl in H; [|discriminate].
  destruct (decide (job_pc job = RAwaitStep /\ job_raised job = false)) as [[Hpc Hr]|];
    [|discriminate].
  destruct (objectives (think c) !! job_objective job) as [o|] eqn:Ho; simpl in H;
    [|discriminate].
  exists job, o. injection H as <-. auto.
Qed.

Lemma tool_call_running j k c c' :
  tool_call j k c = Some c' ->
  exists job, jobs c !! j = Some job /\ job_pc job = RAwaitStep /\ job_raised job = false.
Proof.
  unfold tool_call. intros H.
  destruct (jobs c !! j) as [job|] eqn:Hjob; simpl in H; [|discriminate].
  destruct (decide (job_pc job = RAwaitStep /\ job_raised job = false)) as [[Hpc Hr]|];
    [|discriminate].
  eauto.
Qed.

Lemma runner_raises_Some j expect c c' :
  runner_raises j expect c = Some c' ->
  exists job,
    jobs c !! j = Some job /\ job_pc job = expect /\ job_raised job = false /\
    c' = set_jobs
           (<[j := {| job_objective := job_objective job; job_pc := job_pc job;
                      job_raised := true |}]> (jobs c)) c.
Proof.
  unfold runner_raises. intros H.
  destruct (jobs c !! j) as [job|] eqn:Hjob; simpl in H; [|discriminate].
  destruct (decide (job_pc job = expect /\ job_raised job = false)) as [[Hpc Hr]|];
    [|discriminate].
  exists job. injection H as <-. auto.
Qed.

(** A job that raises keeps its place, its objective and its control
    state. *)
Lemma raised_lookup (j : nat) (job : Job) (js : list Job) (i : nat) (job' : Job) :
  js !! j = Some job ->
  <[j := {| job_objective := job_objective job; job_pc := job_pc job;
            job_raised := true |}]> js !! i = Some job' ->
  exists job0, js !! i = Some job0 /\ job_objective job' = job_objective job0 /\
               job_pc job' = job_pc job0 /\
               (job_raised job' = true -> i = j \/ job_raised job0 = true).
Proof.
  intros Hj Hi. apply list_lookup_insert_Some in Hi as [(-> & <- & _) | (Hne & Hi)].
  - exists job. simpl. auto.
  - exists job'. auto.
Qed.

Lemma store_inv_lookup c k job :
  store_inv c -> jobs c !! k = Some job ->
  job_objective job = k /\
  exists o, objectives (think c) !! k = Some o /\ runner_inv (job_pc job) o.
Proof.
  intros [H1 H2 H3] Hk. split; [now apply H2|].
  destruct (Forall2_lookup_l _ _ _ _ _ H1 Hk) as (o & Ho & HR). eauto.
Qed.

Lemma store_inv_lookup_obj c k o :
  store_inv c -> objectives (think c) !! k = Some o ->
  exists job, jobs c !! k = Some job /\ job_objective job = k /\ runner_inv (job_pc job) o.
Proof.
  intros [H1 H2 H3] Hk.
  destruct (Forall2_lookup_r _ _ _ _ _ H1 Hk) as (job & Hj & HR). eauto.
Qed.

Lemma store_inv_update c k job o' pc' :
  store_inv c -> jobs c !! k = Some job ->
  runner_inv pc' o' ->
  Forall2 job_inv
    (<[k := {| job_objective := job_objective job; job_pc := pc';
               job_raised := false |}]> (jobs c))
    (<[job_objective job := o']> (objectives (think c))) /\
  (forall i j,
     <[k := {| job_objective := job_objective job; job_pc := pc';
               job_raised := false |}]> (jobs c) !! i = Some j ->
     job_objective j = i).
Proof.
  intros Hc Hk Hinv. destruct (store_inv_lookup _ _ _ Hc Hk) as [Hidx _].
  destruct Hc as [H1 H2 H3]. split.
  - rewrite Hidx. apply Forall2_insert; assumption.
  - intros i j Hi. apply list_lookup_insert_Some in Hi as [(-> & <- & _) | (Hne & Hi)].
    + exact Hidx.
    + now apply H2.
Qed.

Lemma terminal_done c :
  store_inv c -> any_unfinished (objectives (think c)) = false -> all_ended (jobs c).
Proof.
  intros [H1 _ _ _]. unfold all_ended.
  induction H1 as [|j o js os HR _ IH]; simpl; intros Hany; [constructor|].
  apply orb_false_iff in Hany as [Ho Hos]. constructor; [|now apply IH].
  unfold job_inv in HR. destruct (job_pc j) eqn:Epc; simpl in HR.
  1-3: destruct HR as (Hs & _); now rewrite Hs in Ho.
  now apply job_active_done.
Qed.

(** When no job is active, an objective is terminal unless the call that
    its runner awaited raised, which left it IN_PROGRESS. *)
Lemma ended_objective c k job o :
  store_inv c -> all_ended (jobs c) ->
  jobs c !! k = Some job -> objectives (think c) !! k = Some o ->
  (job_raised job = false /\ job_pc job = RDone /\ is_terminal (status o) = true) \/
  (job_raised job = true /\ status o = IN_PROGRESS).
Proof.
  intros Hs Hd Hjob Ho.
  pose proof (all_ended_lookup _ _ _ Hd Hjob) as Hact.
  destruct (Forall2_lookup_l _ _ _ _ _ (inv_jobs _ Hs) Hjob) as (o0 & Ho0 & Hinv).
  rewrite Ho in Ho0. injection Ho0 as <-. unfold job_inv in Hinv.
  destruct (job_raised job) eqn:Hr.
  - right. split; [reflexivity|].
    destruct (inv_raised _ Hs k job Hjob Hr) as [E | E]; rewrite E in Hinv;
      now destruct Hinv as (Hst & _).
  - left. split; [reflexivity|].
    destruct (decide (job_pc job = RDone)) as [E | E].
    + split; [exact E|]. rewrite E in Hinv.
      destruct Hinv as [(-> & _) | (-> & _)]; reflexivity.
    + rewrite (job_active_running job Hr E) in Hact. discriminate.
Qed.

Lemma poll_inv status_str c : store_inv c -> core_inv (poll status_str c).
Proof.
  intros Hc. unfold poll. destruct (Nat.ltb_spec 0 (active_count (jobs c))) as [H|H].
  - split; [now apply (store_inv_ext c) | simpl; congruence].
  - split; [now apply (store_inv_ext c) | simpl; intros _; apply active_count_0; lia].
Qed.

Lemma leave_loop_inv c : store_inv c -> all_ended (jobs c) -> core_inv (leave_loop c).
Proof.
  intros Hc Hd. split; [now apply (store_inv_ext c) | intros _; exact Hd].
Qed.

Lemma while_head_inv status_str c : store_inv c -> core_inv (while_head status_str c).
Proof.
  intros Hc. unfold while_head.
  destruct (any_unfinished (objectives (think c))) eqn:E.
  - now apply poll_inv.
  - apply leave_loop_inv; [assumption | now apply terminal_done].
Qed.

Lemma think_start_inv status_str model_id question :
  core_inv (think_start status_str model_id question).
Proof.
  apply while_head_inv. split; simpl.
  - repeat constructor.
  - intros [|k] j; simpl; [now intros [= <-] | destruct k; discriminate].
  - unfold MAX_OBJECTIVES. lia.
  - intros [|k] j; simpl; [intros [= <-]; discriminate | destruct k; discriminate].
Qed.

Lemma resume_runner_inv j expect segment say c c' :
  (forall o, runner_inv expect o -> runner_inv (snd (segment o)) (fst (segment o))) ->
  expect <> RDone ->
  core_inv c -> resume_runner j expect segment say c = Some c' -> core_inv c'.
Proof.
  intros Hseg Hne [Hc Hd] H.
  destruct (resume_runner_running _ _ _ _ _ _ H) as (job1 & Hjob1 & _ & Hr).
  apply resume_runner_Some in H as (job & o & Hjob & Hpc & Ho & ->).
  rewrite Hjob in Hjob1. injection Hjob1 as <-.
  destruct (store_inv_lookup _ _ _ Hc Hjob) as (Hidx & o0 & Ho0 & Hinv).
  rewrite Hidx in Ho. rewrite Ho in Ho0. injection Ho0 as <-. rewrite Hpc in Hinv.
  destruct (store_inv_update c j job (fst (segment o)) (snd (segment o)) Hc Hjob (Hseg o Hinv))
    as [HF Hindex].
  split.
  - split; simpl; [exact HF | exact Hindex | rewrite length_insert; apply Hc |].
    intros i j' Hi Hr'.
    apply list_lookup_insert_Some in Hi as [(-> & <- & _) | (Hne' & Hi)]; [discriminate|].
    exact (inv_raised _ Hc i j' Hi Hr').
  - simpl. intros Hdrv. specialize (Hd Hdrv).
    pose proof (all_ended_lookup _ _ _ Hd Hjob) as Hact.
    rewrite (job_active_running job Hr) in Hact; [discriminate | congruence].
Qed.

Lemma runner_raises_inv j expect c c' :
  expect = RAwaitStep \/ expect = RAwaitStop ->
  core_inv c -> runner_raises j expect c = Some c' -> core_inv c'.
Proof.
  intros Hexp [Hc Hd] H.
  apply runner_raises_Some in H as (job & Hjob & Hpc & Hr & ->).
  destruct (store_inv_lookup _ _ _ Hc Hjob) as (Hidx & o & Ho & Hinv).
  split.
  - split; simpl.
    + rewrite <- (list_insert_id (objectives (think c)) j o Ho).
      apply Forall2_insert; [apply Hc | exact Hinv].
    + intros i j' Hi.
      destruct (raised_lookup _ _ _ _ _ Hjob Hi) as (job0 & Hi0 & -> & _).
      exact (inv_index _ Hc i job0 Hi0).
    + apply Hc.
    + intros i j' Hi Hr'.
      destruct (raised_lookup _ _ _ _ _ Hjob Hi) as (job0 & Hi0 & _ & -> & Hor).
      destruct (Hor Hr') as [-> | Hr0].
      * rewrite Hjob in Hi0. injection Hi0 as <-. rewrite Hpc. exact Hexp.
      * exact (inv_raised _ Hc i job0 Hi0 Hr0).
  - simpl. intros Hdrv. specialize (Hd Hdrv).
    pose proof (all_ended_lookup _ _ _ Hd Hjob) as Hact.
    rewrite (job_active_running job Hr) in Hact; [discriminate|].
    rewrite Hpc. destruct Hexp as [-> | ->]; discriminate.
Qed.

Lemma charge_inv u c : core_inv c -> core_inv (charge u c).
Proof.
  intros [Hc Hd]. split; [now apply (store_inv_ext c) | exact Hd].
Qed.

Lemma tool_call_inv j k c c' : core_inv c -> tool_call j k c = Some c' -> core_inv c'.
Proof.
  intros [Hc Hd] H.
  destruct (tool_call_running _ _ _ _ H) as (job1 & Hjob1 & _ & Hr).
  apply tool_call_Some in H as (job & o & Hjob & Hpc & Ho & ->).
  rewrite Hjob in Hjob1. injection Hjob1 as <-.
  destruct (store_inv_lookup _ _ _ Hc Hjob) as (Hidx & o0 & Ho0 & Hinv).
  rewrite Hidx in Ho. rewrite Ho in Ho0. injection Ho0 as <-.
  destruct (store_inv_update c j job (append_knowledge k o) (job_pc job) Hc Hjob
              (append_knowledge_inv k _ _ Hinv)) as [HF Hindex].
  assert (Hsame : <[j := {| job_objective := job_objective job; job_pc := job_pc job;
                            job_raised := false |}]> (jobs c)
                  = jobs c).
  { apply list_insert_id. rewrite Hjob. destruct job. simpl in Hr. now rewrite Hr. }
  rewrite Hsame in HF, Hindex.
  split.
  - split; simpl; [exact HF | exact Hindex | rewrite length_insert; apply Hc | apply Hc].
  - exact Hd.
Qed.

Lemma spawned_jobs_inv i new :
  Forall (runner_inv RSpawned) new ->
  Forall2 job_inv
    (map (fun k => {| job_objective := k; job_pc := RSpawned; job_raised := false |})
       (seq i (length new))) new.
Proof.
  intros H. revert i. induction H as [|o new Ho _ IH]; intros i; simpl; constructor.
  - exact Ho.
  - apply IH.
Qed.

Lemma on_detect_inv status_str proposed c :
  Forall (runner_inv RSpawned) proposed ->
  core_inv c -> driver c = DAwaitDetect ->
  core_inv (on_detect status_str proposed c).
Proof.
  intros Hp [Hc Hd] Hdrv. unfold on_detect. rewrite admission_firstn.
  set (new := firstn (MAX_OBJECTIVES - length (objectives (think c))) proposed).
  assert (Hnew : Forall (runner_inv RSpawned) new) by now apply Forall_take.
  assert (Hlen : length new <= MAX_OBJECTIVES - length (objectives (think c))).
  { unfold new. rewrite length_firstn. lia. }
  assert (Hdone : all_ended (jobs c)) by (apply Hd; congruence).
  destruct new as [|o new'] eqn:Enew.
  - assert (Hc1 : store_inv
                    (set_think (set_objectives (objectives (think c) ++ []) (think c)) c)).
    { apply (store_inv_ext c); simpl; [reflexivity | apply app_nil_r | assumption]. }
    destruct (_ =? 0).
    + apply leave_loop_inv; [exact Hc1 | exact Hdone].
    + now apply while_head_inv.
  - rewrite <- Enew in *. clear Enew. apply while_head_inv.
    rewrite spawn_new_app. destruct Hc as [H1 H2 H3 H4].
    pose proof (Forall2_length _ _ _ H1) as HL.
    split; simpl.
    + apply Forall2_app; [exact H1 |]. now apply spawned_jobs_inv.
    + intros k j Hk. apply lookup_app_Some in Hk as [Hk | [Hge Hk]].
      * now apply H2.
      * rewrite list_lookup_fmap in Hk.
        destruct (seq _ _ !! _) as [n|] eqn:Hseq; simpl in Hk; [|discriminate].
        injection Hk as <-. simpl. apply lookup_seq in Hseq as [-> _]. lia.
    + rewrite length_app. lia.
    + intros k j Hk Hr. apply lookup_app_Some in Hk as [Hk | [Hge Hk]].
      * now apply (H4 k j).
      * rewrite list_lookup_fmap in Hk.
        destruct (seq _ _ !! _) as [n|]; simpl in Hk; [|discriminate].
        injection Hk as <-. discriminate.
Qed.

Lemma on_answer_inv res c :
  core_inv c -> driver c = DAwaitAnswer -> core_inv (on_answer res c).
Proof.
  intros [Hc Hd] Hdrv. split.
  - now apply (store_inv_ext c).
  - intros _. apply Hd. congruence.
Qed.

Lemma set_queue_inv q v c : core_inv c -> core_inv (set_queue q v c).
Proof.
  intros [Hc Hd]. split; [now apply (store_inv_ext c) | exact Hd].
Qed.

Lemma step_inv status_str c e c' :
  core_inv c -> step status_str c e = Some c' -> core_inv c'.
Proof.
  intros Hc H. destruct e as [j|j k|j st u|j out u| |out u|out u|q|q|j|j]; simpl in H.
  - eapply resume_runner_inv; [apply runner_start_inv | discriminate | exact Hc | exact H].
  - eapply tool_call_inv; eassumption.
  - eapply resume_runner_inv;
      [apply runner_on_step_inv | discriminate | apply charge_inv, Hc | exact H].
  - unfold non_empty_completion in H.
    destruct (Text.truthy out) eqn:Hout; simpl in H;
      [|eapply runner_raises_inv; [right; reflexivity | apply charge_inv, Hc | exact H]].
    apply (resume_runner_inv j RAwaitStop (runner_on_stop out) None (charge u c) c');
      [intros o; now apply runner_on_stop_inv | discriminate | apply charge_inv, Hc | exact H].
  - destruct (decide (driver c = DPoll)); [|discriminate].
    injection H as <-. apply poll_inv, Hc.
  - destruct (decide (driver c = DAwaitDetect)) as [Hd|]; [|discriminate].
    destruct (_detect_new_objectives out) as [proposed|] eqn:Hp; simpl in H; [|discriminate].
    injection H as <-.
    apply on_detect_inv; [eapply detected_spawned, Hp | apply charge_inv, Hc | exact Hd].
  - destruct (decide (driver c = DAwaitAnswer)) as [Hd|]; [|discriminate].
    unfold non_empty_completion in H.
    destruct (Text.truthy out); simpl in H; [|discriminate].
    injection H as <-. apply on_answer_inv; [apply charge_inv, Hc | exact Hd].
  - destruct (queue_get (get_queue q c)) as [[x v]|]; simpl in H; [|discriminate].
    injection H as <-. apply set_queue_inv, Hc.
  - destruct (queue_task_done (get_queue q c)) as [v|]; simpl in H; [|discriminate].
    injection H as <-. apply set_queue_inv, Hc.
  - eapply runner_raises_inv; [left; reflexivity | exact Hc | exact H].
  - eapply runner_raises_inv; [right; reflexivity | exact Hc | exact H].
Qed.

Lemma reachable_inv status_str model_id question c :
  reachable status_str model_id question c -> core_inv c.
Proof.
  induction 1 as [|c e c' _ IH Hstep].
  - apply think_start_inv.
  - eapply step_inv; eassumption.
Qed.

Lemma run_reachable status_str model_id question es c c' :
  reachable status_str model_id question c ->
  run status_str c es = Some c' ->
  reachable status_str model_id question c'.
Proof.
  revert c. induction es as [|e es IH]; intros c Hc H; simpl in H.
  - now injection H as <-.
  - destruct (step status_str c e) as [c1|] eqn:E; simpl in H; [|discriminate].
    eapply IH; [eapply reach_step; eassumption | exact H].
Qed.

Lemma session_reachable status_str model_id question es c :
  run status_str (think_start status_str model_id question) es = Some c ->
  reachable status_str model_id question c.
Proof. apply run_reachable. constructor. Qed.

(** ** Stop-check *)

Lemma sentinel_in_lower (pre post : string) :
  Text.contains "can't answer" (Text.lower (pre +:+ "can't answer" +:+ post)) = true.
Proof.
  change "can't answer" with (Text.lower "can't answer") at 1.
  apply TextFacts.contains_lower, TextFacts.contains_app. eauto.
Qed.

(** C1: the stop-check reports "not ready" exactly when the lowercased
    text returned by its completion call contains "can't answer"; in every
    other case the whole text, unchanged, becomes the answer of the
    objective, which completes.  A text that holds the sentinel beside a
    real answer is "not ready" all the same; the sentinel counts in any
    casing, and a text without the apostrophe is an answer. *)
Theorem C1_stop_check_sentinel (res : string) :
  (_should_stop_objective res = None <->
   Text.contains "can't answer" (Text.lower res) = true) /\
  (_should_stop_objective res = Some res <->
   Text.contains "can't answer" (Text.lower res) = false) /\
  (forall pre post : string,
     _should_stop_objective (pre +:+ "can't answer" +:+ post) = None) /\
  (forall o : ObjectiveState,
     (Text.contains "can't answer" (Text.lower res) = false /\
      runner_on_stop res o = (set_answer res (set_status COMPLETED o), RDone)) \/
     (Text.contains "can't answer" (Text.lower res) = true /\
      runner_on_stop res o = after_stop_check o /\
      answer (fst (runner_on_stop res o)) = answer o /\
      (fst (runner_on_stop res o) = o \/
       fst (runner_on_stop res o) = set_status FAILED o))) /\
  _should_stop_objective "Paris is the capital." = Some "Paris is the capital." /\
  _should_stop_objective "Paris, but I CAN'T ANSWER the second part." = None /\
  _should_stop_objective "I cant answer." = Some "I cant answer.".
Proof.
  repeat split.
  - unfold _should_stop_objective. destruct (Text.contains _ _); [reflexivity | discriminate].
  - unfold _should_stop_objective. now intros ->.
  - unfold _should_stop_objective. destruct (Text.contains _ _); [discriminate | reflexivity].
  - unfold _should_stop_objective. now intros ->.
  - intros pre post. unfold _should_stop_objective. now rewrite sentinel_in_lower.
  - intros o. unfold runner_on_stop, _should_stop_objective.
    destruct (Text.contains "can't answer" (Text.lower res)); [right | left; auto].
    repeat split; unfold after_stop_check;
      destruct (MAX_STEPS <=? length (steps o)); simpl; auto.
Qed.

(** ** What a transition does to the objectives *)

Lemma runner_start_eq o :
  runner_inv RSpawned o -> runner_start o = (set_status IN_PROGRESS o, RAwaitStep).
Proof.
  intros (Hs & Hl & Ha). unfold runner_start, loop_head, after_stop_check. simpl.
  rewrite Hl. reflexivity.
Qed.

Lemma loop_head_fst o :
  status o = IN_PROGRESS -> length (steps o) < MIN_STEPS \/ length (steps o) <= MAX_STEPS ->
  MIN_STEPS <= length (steps o) \/ length (steps o) < MAX_STEPS ->
  fst (loop_head o) = o.
Proof.
  intros Hs _ H. unfold loop_head, after_stop_check. rewrite Hs.
  destruct (Nat.leb_spec MIN_STEPS (length (steps o))); [reflexivity|].
  destruct (Nat.leb_spec MAX_STEPS (length (steps o))); [lia | reflexivity].
Qed.

Lemma runner_on_step_fst st o :
  runner_inv RAwaitStep o -> fst (runner_on_step st o) = append_step st o.
Proof.
  intros (Hs & Hl & Ha). unfold runner_on_step.
  apply loop_head_fst; [exact Hs | rewrite length_append_step; lia |].
  rewrite length_append_step. unfold MIN_STEPS, MAX_STEPS in *. lia.
Qed.

Lemma step_change status_str c e c' :
  core_inv c -> step status_str c e = Some c' -> store_change c e c'.
Proof.
  intros [Hc Hd] H.
  assert (Hrun : forall j expect segment say c0,
            jobs c0 = jobs c -> objectives (think c0) = objectives (think c) ->
            resume_runner j expect segment say c0 = Some c' ->
            exists o,
              jobs c !! j =
                Some {| job_objective := j; job_pc := expect; job_raised := false |} /\
              objectives (think c) !! j = Some o /\ runner_inv expect o /\
              objectives (think c') = <[j := fst (segment o)]> (objectives (think c))).
  { intros j expect segment say c0 Hj0 Ho0 H0.
    destruct (resume_runner_running _ _ _ _ _ _ H0) as (job1 & Hjob1 & _ & Hr).
    apply resume_runner_Some in H0 as (job & o & Hjob & Hpc & Ho & ->).
    rewrite Hjob in Hjob1. injection Hjob1 as <-.
    rewrite Hj0 in Hjob. rewrite Ho0 in Ho.
    destruct (store_inv_lookup _ _ _ Hc Hjob) as (Hidx & o1 & Ho1 & Hinv).
    destruct job as [i pc r]. simpl in *. subst i pc r.
    rewrite Ho in Ho1. injection Ho1 as <-.
    exists o. rewrite Ho0. auto. }
  destruct e as [j|j k|j st u|j out u| |out u|out u|q|q|j|j]; simpl in H.
  - destruct (Hrun _ _ _ _ c eq_refl eq_refl H) as (o & Hjob & Ho & Hinv & Hobjs).
    eapply change_runner; [exact Hjob | exact Ho | exact Hinv | apply rm_start |].
    rewrite Hobjs. now rewrite runner_start_eq.
  - destruct (tool_call_running _ _ _ _ H) as (job1 & Hjob1 & _ & Hr).
    apply tool_call_Some in H as (job & o & Hjob & Hpc & Ho & ->).
    rewrite Hjob in Hjob1. injection Hjob1 as <-.
    destruct (store_inv_lookup _ _ _ Hc Hjob) as (Hidx & o0 & Ho0 & Hinv).
    destruct job as [i pc r]. simpl in *. subst i pc r.
    rewrite Ho in Ho0. injection Ho0 as <-.
    eapply change_runner; [exact Hjob | exact Ho | exact Hinv | apply rm_tool |].
    reflexivity.
  - destruct (Hrun _ _ _ _ (charge u c) eq_refl eq_refl H)
      as (o & Hjob & Ho & Hinv & Hobjs).
    eapply change_runner; [exact Hjob | exact Ho | exact Hinv | apply (rm_step j st u) |].
    rewrite Hobjs. now rewrite runner_on_step_fst.
  - unfold non_empty_completion in H.
    destruct (Text.truthy out) eqn:Hout; simpl in H.
    + destruct (Hrun _ _ _ _ (charge u c) eq_refl eq_refl H)
        as (o & Hjob & Ho & Hinv & Hobjs).
      eapply change_runner;
        [exact Hjob | exact Ho | exact Hinv | apply (rm_stop j out u); exact Hout |].
      exact Hobjs.
    + apply runner_raises_Some in H as (job & _ & _ & _ & ->).
      apply change_none; try discriminate. reflexivity.
  - destruct (decide (driver c = DPoll)); [|discriminate].
    injection H as <-. apply change_none; try discriminate.
    unfold poll. now destruct (0 <? _).
  - destruct (decide (driver c = DAwaitDetect)) as [Hdrv|]; [|discriminate].
    destruct (_detect_new_objectives out) as [proposed|] eqn:Hp; simpl in H; [|discriminate].
    injection H as <-. eapply change_admit; [reflexivity | exact Hdrv | exact Hp |].
    unfold on_detect. rewrite admission_firstn. simpl.
    destruct (firstn _ proposed) as [|o new].
    + destruct (_ =? 0); [reflexivity|]. unfold while_head, poll. simpl.
      destruct (any_unfinished _); [now destruct (0 <? _) | reflexivity].
    + unfold while_head, poll. simpl.
      destruct (any_unfinished _); [now destruct (0 <? _) | reflexivity].
  - destruct (decide (driver c = DAwaitAnswer)) as [Hdrv|]; [|discriminate].
    destruct (non_empty_completion out) as [res|]; simpl in H; [|discriminate].
    injection H as <-. apply change_none; try discriminate. reflexivity.
  - destruct (queue_get (get_queue q c)) as [[x v]|]; simpl in H; [|discriminate].
    injection H as <-. apply change_none; try discriminate. reflexivity.
  - destruct (queue_task_done (get_queue q c)) as [v|]; simpl in H; [|discriminate].
    injection H as <-. apply change_none; try discriminate. reflexivity.
  - apply runner_raises_Some in H as (job & _ & _ & _ & ->).
    apply change_none; try discriminate. reflexivity.
  - apply runner_raises_Some in H as (job & _ & _ & _ & ->).
    apply change_none; try discriminate. reflexivity.
Qed.

(** ** The record of calls *)

Lemma calls_of_app i ks ks' : calls_of i (ks ++ ks') = calls_of i ks ++ calls_of i ks'.
Proof. unfold calls_of. apply List.filter_app. Qed.

Lemma calls_of_runner_call i j o pc :
  calls_of i (runner_call j o pc) = if decide (j = i) then runner_call j o pc else [].
Proof.
  unfold calls_of.
  destruct pc; simpl; try (now destruct (decide (j = i)));
    case_bool_decide as H; destruct (decide (j = i)); congruence.
Qed.

Lemma runner_call_ok i o pc : runner_inv pc o -> Forall call_ok (runner_call i o pc).
Proof.
  destruct pc; simpl; intros H.
  - apply Forall_nil_2.
  - apply Forall_cons; split; [simpl; tauto | apply Forall_nil_2].
  - apply Forall_cons; split; [simpl; tauto | apply Forall_nil_2].
  - apply Forall_nil_2.
Qed.

Lemma runner_start_ok : segment_ok RSpawned runner_start.
Proof.
  intros o Ho. rewrite (runner_start_eq o Ho). simpl. split; discriminate.
Qed.

Lemma runner_on_step_ok st : segment_ok RAwaitStep (runner_on_step st).
Proof.
  intros o (Hs & Hl & Ha). unfold runner_on_step, loop_head, after_stop_check.
  cbn [status append_step]. rewrite Hs.
  destruct (Nat.leb_spec MIN_STEPS (length (steps (append_step st o)))) as [H|H];
    cbn [fst snd]; [split; discriminate|].
  destruct (Nat.leb_spec MAX_STEPS (length (steps (append_step st o)))) as [H'|H'];
    cbn [fst snd]; [|split; discriminate].
  unfold MIN_STEPS, MAX_STEPS in *. lia.
Qed.

Lemma runner_on_stop_ok res : segment_ok RAwaitStop (runner_on_stop res).
Proof.
  intros o _. unfold runner_on_stop, after_stop_check.
  destruct (_should_stop_objective res); [simpl; split; [discriminate | auto]|].
  destruct (MAX_STEPS <=? length (steps o)); simpl; split; auto; discriminate.
Qed.

Lemma log_at_ext i pc o o' ks ks' :
  calls_of i ks' = calls_of i ks -> steps o' = steps o ->
  log_at i pc o ks -> log_at i pc o' ks'.
Proof. unfold log_at. intros -> ->. trivial. Qed.

Lemma calls_of_nil i ks :
  (forall k, In k ks -> call_runner k <> Some i) -> calls_of i ks = [].
Proof.
  unfold calls_of. induction ks as [|k ks IH]; simpl; intros H; [reflexivity|].
  case_bool_decide as E.
  - exfalso. apply (H k); auto.
  - apply IH. intros k' Hk'. apply H. auto.
Qed.

Lemma resume_runner_log j expect segment say c c' :
  (forall o, runner_inv expect o -> runner_inv (snd (segment o)) (fst (segment o))) ->
  segment_ok expect segment ->
  core_inv c -> log_inv c -> resume_runner j expect segment say c = Some c' -> log_inv c'.
Proof.
  intros Hseg Hok [Hc Hd] [L1 L2 L3] H.
  apply resume_runner_Some in H as (job & o & Hjob & Hpc & Ho & ->).
  destruct (store_inv_lookup _ _ _ Hc Hjob) as (Hidx & o0 & Ho0 & Hinv).
  rewrite Hidx in *. rewrite Ho in Ho0. injection Ho0 as <-. rewrite Hpc in Hinv.
  pose proof (lookup_lt_Some _ _ _ Hjob) as Hlt.
  pose proof (lookup_lt_Some _ _ _ Ho) as Hlt'.
  destruct (Hok o Hinv) as [Hns Hdone].
  split; simpl.
  - apply Forall_app. split; [exact L1 | apply runner_call_ok, Hseg, Hinv].
  - intros i k Hin Hk. rewrite length_insert. apply in_app_or in Hin as [Hin | Hin].
    + now apply (L2 i k).
    + destruct (snd (segment o)); simpl in Hin; try contradiction;
        destruct Hin as [<- | []]; simpl in Hk; congruence.
  - intros i job' o' Hj' Ho'.
    destruct (decide (i = j)) as [-> | Hne].
    + rewrite list_lookup_insert_eq in Hj' by assumption.
      rewrite list_lookup_insert_eq in Ho' by assumption.
      injection Hj' as <-. injection Ho' as <-. simpl.
      specialize (L3 j job o Hjob Ho). rewrite Hpc in L3.
      unfold log_at. rewrite calls_of_app, calls_of_runner_call.
      destruct (decide (j = j)) as [_|]; [|congruence].
      destruct (snd (segment o)) eqn:Epc; simpl.
      * congruence.
      * apply last_snoc.
      * apply last_snoc.
      * rewrite app_nil_r. destruct (Hdone eq_refl) as [-> ->]. exact L3.
    + rewrite list_lookup_insert_ne in Hj' by congruence.
      rewrite list_lookup_insert_ne in Ho' by congruence.
      eapply log_at_ext; [| reflexivity | apply (L3 i job' o' Hj' Ho')].
      rewrite calls_of_app, calls_of_runner_call.
      destruct (decide (j = i)); [congruence | apply app_nil_r].
Qed.

Lemma driver_frame_same c c' :
  jobs c' = jobs c -> objectives (think c') = objectives (think c) ->
  calls c' = calls c -> driver_frame c c'.
Proof.
  intros Hj Ho Hk. split; [exact Hj|]. split; [exact Ho|].
  exists []. split; [now rewrite app_nil_r | intros k []].
Qed.

Lemma driver_frame_call c c' k :
  jobs c' = jobs c -> objectives (think c') = objectives (think c) ->
  calls c' = calls c ++ [k] -> call_runner k = None -> driver_frame c c'.
Proof.
  intros Hj Ho Hk Hr. split; [exact Hj|]. split; [exact Ho|].
  exists [k]. split; [exact Hk | now intros k' [<- | []]].
Qed.

Lemma poll_frame status_str c : driver_frame c (poll status_str c).
Proof.
  unfold poll. destruct (0 <? active_count (jobs c)).
  - now apply driver_frame_same.
  - now eapply driver_frame_call.
Qed.

Lemma leave_loop_frame c : driver_frame c (leave_loop c).
Proof. now eapply driver_frame_call. Qed.

Lemma while_head_frame status_str c : driver_frame c (while_head status_str c).
Proof.
  unfold while_head. destruct (any_unfinished _);
    [apply poll_frame | apply leave_loop_frame].
Qed.

Lemma call_runner_None_ok k : call_runner k = None -> call_ok k.
Proof. destruct k; simpl; [discriminate | discriminate | trivial | trivial]. Qed.

Lemma log_inv_extend c c' new_objs extra :
  jobs c' =
    jobs c ++ map (fun k => {| job_objective := k; job_pc := RSpawned; job_raised := false |})
                (seq (length (jobs c)) (length new_objs)) ->
  objectives (think c') = objectives (think c) ++ new_objs ->
  calls c' = calls c ++ extra ->
  (forall k, In k extra -> call_runner k = None) ->
  store_inv c -> log_inv c -> log_inv c'.
Proof.
  intros Hj Ho Hk Hextra [H1 H2 H3] [L1 L2 L3].
  pose proof (Forall2_length _ _ _ H1) as HL.
  assert (Hcalls : forall i, calls_of i (calls c') = calls_of i (calls c)).
  { intros i. rewrite Hk, calls_of_app. rewrite (calls_of_nil i extra), app_nil_r; [reflexivity|].
    intros k Hin. rewrite (Hextra k Hin). discriminate. }
  split.
  - rewrite Hk. apply Forall_app. split; [exact L1|].
    apply List.Forall_forall. intros k Hin. apply call_runner_None_ok, Hextra, Hin.
  - intros i k Hin Hr. rewrite Hj, length_app. rewrite Hk in Hin.
    apply in_app_or in Hin as [Hin | Hin].
    + pose proof (L2 i k Hin Hr). lia.
    + rewrite (Hextra k Hin) in Hr. discriminate.
  - intros i job o Hjob Hobj. rewrite Hj in Hjob. rewrite Ho in Hobj.
    apply lookup_app_Some in Hjob as [Hjob | [Hge Hjob]].
    + pose proof (lookup_lt_Some _ _ _ Hjob) as Hlt.
      rewrite lookup_app_l in Hobj by lia.
      eapply log_at_ext; [apply Hcalls | reflexivity | now apply L3].
    + rewrite list_lookup_fmap in Hjob.
      destruct (seq _ _ !! _) as [n|]; simpl in Hjob; [|discriminate].
      injection Hjob as <-. simpl. rewrite Hcalls.
      apply calls_of_nil. intros k Hin Hr. pose proof (L2 i k Hin Hr). lia.
Qed.

Lemma driver_frame_log c c' :
  driver_frame c c' -> store_inv c -> log_inv c -> log_inv c'.
Proof.
  intros (Hj & Ht & extra & Hk & Hextra).
  apply (log_inv_extend c c' [] extra); simpl; rewrite ?app_nil_r; auto.
Qed.

Lemma tool_call_log j k c c' :
  core_inv c -> log_inv c -> tool_call j k c = Some c' -> log_inv c'.
Proof.
  intros [Hc Hd] [L1 L2 L3] H.
  apply tool_call_Some in H as (job & o & Hjob & Hpc & Ho & ->).
  destruct (store_inv_lookup _ _ _ Hc Hjob) as (Hidx & _).
  rewrite Hidx in *.
  split; simpl; [exact L1 | exact L2 |].
  intros i job' o' Hj' Ho'.
  apply list_lookup_insert_Some in Ho' as [(-> & <- & _) | (Hne & Ho')].
  - eapply log_at_ext; [reflexivity | | apply (L3 i job' o Hj' Ho)]. reflexivity.
  - now apply L3.
Qed.

Lemma on_detect_log status_str proposed c :
  core_inv c -> log_inv c -> log_inv (on_detect status_str proposed c).
Proof.
  intros [Hc Hd] HL. unfold on_detect. rewrite admission_firstn.
  set (new := firstn (MAX_OBJECTIVES - length (objectives (think c))) proposed).
  pose proof (Forall2_length _ _ _ (inv_jobs _ Hc)) as Hlen.
  destruct new as [|o new'] eqn:Enew.
  - set (c1 := set_think _ c).
    assert (H1 : store_inv c1).
    { apply (store_inv_ext c); simpl; [reflexivity | apply app_nil_r | assumption]. }
    assert (L1 : log_inv c1).
    { apply (log_inv_extend c c1 [] []); simpl; rewrite ?app_nil_r; auto.
      intros k []. }
    destruct (_ =? 0).
    + eapply driver_frame_log; [apply leave_loop_frame | exact H1 | exact L1].
    + eapply driver_frame_log; [apply while_head_frame | exact H1 | exact L1].
  - rewrite <- Enew. set (c2 := set_jobs _ _).
    destruct (while_head_frame status_str c2) as (Hj & Ht & extra & Hk & Hextra).
    apply (log_inv_extend c (while_head status_str c2) new extra);
      [ | | exact Hk | exact Hextra | exact Hc | exact HL].
    + rewrite Hj. unfold c2. simpl. rewrite spawn_new_app, Hlen. reflexivity.
    + rewrite Ht. reflexivity.
Qed.

Lemma runner_raises_log j expect c c' :
  log_inv c -> runner_raises j expect c = Some c' -> log_inv c'.
Proof.
  intros [L1 L2 L3] H.
  apply runner_raises_Some in H as (job & Hjob & Hpc & Hr & ->).
  split; simpl.
  - exact L1.
  - intros i k Hin Hk. rewrite length_insert. now apply (L2 i k).
  - intros i job' o Hi Ho.
    destruct (raised_lookup _ _ _ _ _ Hjob Hi) as (job0 & Hi0 & _ & -> & _).
    now apply L3.
Qed.

Lemma step_log status_str c e c' :
  core_inv c -> log_inv c -> step status_str c e = Some c' -> log_inv c'.
Proof.
  intros Hc HL H.
  assert (Hcharge : forall u, log_inv (charge u c)).
  { intros u. apply (driver_frame_log c); [| apply Hc | exact HL].
    now apply driver_frame_same. }
  destruct e as [j|j k|j st u|j out u| |out u|out u|q|q|j|j]; simpl in H.
  - apply (resume_runner_log j RSpawned runner_start None c c');
      [apply runner_start_inv | apply runner_start_ok | exact Hc | exact HL | exact H].
  - eapply tool_call_log; eassumption.
  - apply (resume_runner_log j RAwaitStep (runner_on_step st) (Some (s_short_name st))
             (charge u c) c');
      [apply runner_on_step_inv | apply runner_on_step_ok | apply charge_inv, Hc
      | apply Hcharge | exact H].
  - unfold non_empty_completion in H.
    destruct (Text.truthy out) eqn:Hout; simpl in H;
      [|eapply runner_raises_log; [apply Hcharge | exact H]].
    apply (resume_runner_log j RAwaitStop (runner_on_stop out) None (charge u c) c');
      [intros o; now apply runner_on_stop_inv | apply runner_on_stop_ok
      | apply charge_inv, Hc | apply Hcharge | exact H].
  - destruct (decide (driver c = DPoll)); [|discriminate].
    injection H as <-.
    eapply driver_frame_log; [apply poll_frame | apply Hc | exact HL].
  - destruct (decide (driver c = DAwaitDetect)) as [Hd|]; [|discriminate].
    destruct (_detect_new_objectives out) as [proposed|] eqn:Hp; simpl in H; [|discriminate].
    injection H as <-. apply on_detect_log; [apply charge_inv, Hc | apply Hcharge].
  - destruct (decide (driver c = DAwaitAnswer)) as [Hd|]; [|discriminate].
    destruct (non_empty_completion out); simpl in H; [|discriminate].
    injection H as <-.
    apply (driver_frame_log (charge u c)); [| apply charge_inv, Hc | apply Hcharge].
    now apply driver_frame_same.
  - destruct (queue_get (get_queue q c)) as [[x v]|]; simpl in H; [|discriminate].
    injection H as <-. apply (driver_frame_log c); [| apply Hc | exact HL].
    now apply driver_frame_same.
  - destruct (queue_task_done (get_queue q c)) as [v|]; simpl in H; [|discriminate].
    injection H as <-. apply (driver_frame_log c); [| apply Hc | exact HL].
    now apply driver_frame_same.
  - eapply runner_raises_log; eassumption.
  - eapply runner_raises_log; eassumption.
Qed.

Lemma think_start_log status_str model_id question :
  log_inv (think_start status_str model_id question).
Proof.
  unfold think_start.
  eapply driver_frame_log; [apply while_head_frame | |].
  - split; simpl.
    + repeat constructor.
    + intros [|k] j; simpl; [now intros [= <-] | destruct k; discriminate].
    + unfold MAX_OBJECTIVES. lia.
    + intros [|k] j; simpl; [intros [= <-]; discriminate | destruct k; discriminate].
  - split; simpl.
    + constructor.
    + intros i k [].
    + intros [|i] job o; simpl; [|destruct i; discriminate].
      intros [= <-] _. reflexivity.
Qed.

Lemma reachable_log status_str model_id question c :
  reachable status_str model_id question c -> log_inv c.
Proof.
  induction 1 as [|c e c' Hr IH Hstep].
  - apply think_start_log.
  - eapply step_log; [eapply reachable_inv, Hr | exact IH | exact Hstep].
Qed.

(** ** What a transition does to one objective *)

Lemma runner_move_objective e j pc o o' :
  runner_inv pc o -> runner_move e j pc o o' -> objective_move o o'.
Proof.
  intros Hinv Hm. destruct Hm as [j o|j k o|j st u o|j out u o Hout]; simpl in Hinv.
  - destruct Hinv as (Hs & _). now apply move_start.
  - apply move_same; auto.
  - apply move_same; simpl; eauto.
  - destruct Hinv as (Hs & Hl & Ha). unfold runner_on_stop.
    destruct (_should_stop_objective out) as [a|].
    + now apply (move_complete _ _ a).
    + unfold after_stop_check.
      destruct (Nat.leb_spec MAX_STEPS (length (steps o))); simpl.
      * apply move_fail; auto. lia.
      * apply move_same; auto.
Qed.

Lemma objective_move_refl o : objective_move o o.
Proof. apply move_same; auto. Qed.

Lemma step_objective status_str c e c' i o :
  core_inv c -> step status_str c e = Some c' ->
  objectives (think c) !! i = Some o ->
  exists o', objectives (think c') !! i = Some o' /\ objective_move o o'.
Proof.
  intros Hc H Ho.
  destruct (step_change _ _ _ _ Hc H)
    as [_ _ Hsame | out u proposed _ _ _ Happ | j pc o1 o1' Hjob Ho1 Hinv Hm Hins].
  - exists o. rewrite Hsame. split; [exact Ho | apply objective_move_refl].
  - exists o. rewrite Happ. split; [now apply lookup_app_l_Some | apply objective_move_refl].
  - rewrite Hins. destruct (decide (j = i)) as [-> | Hne].
    + rewrite Ho in Ho1. injection Ho1 as <-. exists o1'.
      split; [apply list_lookup_insert_eq; eapply lookup_lt_Some, Ho|].
      eapply runner_move_objective; eassumption.
    + exists o. rewrite list_lookup_insert_ne by exact Hne.
      split; [exact Ho | apply objective_move_refl].
Qed.

Lemma core_inv_objective c i o :
  core_inv c -> objectives (think c) !! i = Some o ->
  length (steps o) <= MAX_STEPS /\
  (status o = COMPLETED <-> exists a, answer o = Some a) /\
  (status o = FAILED -> answer o = None /\ length (steps o) = MAX_STEPS) /\
  (forall a, answer o = Some a -> Text.truthy a = true).
Proof.
  intros [Hc _] Ho.
  destruct (store_inv_lookup_obj _ _ _ Hc Ho) as (job & _ & _ & Hinv).
  destruct (job_pc job); simpl in Hinv.
  - destruct Hinv as (Hs & Hl & Ha). rewrite Hs, Hl, Ha. simpl. unfold MAX_STEPS.
    repeat split; try lia; try discriminate. intros [a Hx]; discriminate.
  - destruct Hinv as (Hs & Hl & Ha). rewrite Hs, Ha.
    repeat split; try lia; try discriminate. intros [a Hx]; discriminate.
  - destruct Hinv as (Hs & Hl & Ha). rewrite Hs, Ha.
    repeat split; try lia; try discriminate. intros [a Hx]; discriminate.
  - destruct Hinv as [(Hs & Hl & a & Ha & Ht & _) | (Hs & Hl & Ha)].
    + rewrite Hs, Ha. repeat split; try lia; try discriminate; eauto.
      intros a' [= <-]. exact Ht.
    + rewrite Hs, Ha. repeat split; try lia; try discriminate.
      intros [a Hx]; discriminate.
Qed.

(** ** The objective runner in a session *)

(** C2: an objective becomes FAILED only in the segment that receives the
    reply of a stop-check asked at MAX_STEPS steps, and only when that
    reply is "not ready": every FAILED objective holds exactly MAX_STEPS
    steps and the latest call of its runner is that stop-check. *)
Theorem C2_failed_only_after_stop_check_at_cap
    status_str model_id question es c :
  run status_str (think_start status_str model_id question) es = Some c ->
  (forall i o,
     objectives (think c) !! i = Some o -> status o = FAILED ->
     length (steps o) = MAX_STEPS /\
     last (calls_of i (calls c)) = Some (CallStop i MAX_STEPS)) /\
  (forall e c' i o o',
     step status_str c e = Some c' ->
     objectives (think c) !! i = Some o ->
     objectives (think c') !! i = Some o' ->
     status o <> FAILED -> status o' = FAILED ->
     exists out u,
       e = StopReply i out u /\
       _should_stop_objective out = None /\
       jobs c !! i =
         Some {| job_objective := i; job_pc := RAwaitStop; job_raised := false |} /\
       last (calls_of i (calls c)) = Some (CallStop i MAX_STEPS) /\
       length (steps o) = MAX_STEPS /\ steps o' = steps o).
Proof.
  intros Hrun. apply session_reachable in Hrun.
  pose proof (reachable_inv _ _ _ _ Hrun) as Hc.
  pose proof (reachable_log _ _ _ _ Hrun) as HL.
  split.
  - intros i o Ho Hs.
    destruct (core_inv_objective _ _ _ Hc Ho) as (_ & _ & HF & _).
    destruct (HF Hs) as [_ Hlen]. split; [exact Hlen|].
    destruct (store_inv_lookup_obj _ _ _ (inv_store _ Hc) Ho) as (job & Hjob & _ & Hinv).
    pose proof (log_last _ HL i job o Hjob Ho) as Hlast.
    destruct (job_pc job); simpl in Hinv, Hlast.
    + destruct Hinv as (Hp & _). congruence.
    + destruct Hinv as (Hp & _). congruence.
    + destruct Hinv as (Hp & _). congruence.
    + now rewrite <- Hlen.
  - intros e c' i o o' Hstep Ho Ho' Hn Hf.
    destruct (step_change _ _ _ _ Hc Hstep)
      as [_ _ Hsame | out u proposed _ _ _ Happ | j pc o1 o1' Hjob Ho1 Hinv Hm Hins].
    + rewrite Hsame, Ho in Ho'. congruence.
    + rewrite Happ, (lookup_app_l_Some _ _ _ _ Ho) in Ho'. congruence.
    + rewrite Hins in Ho'. destruct (decide (j = i)) as [-> | Hne].
      * rewrite Ho in Ho1. injection Ho1 as <-.
        rewrite list_lookup_insert_eq in Ho' by (eapply lookup_lt_Some, Ho).
        injection Ho' as <-.
        pose proof (log_last _ HL i _ o Hjob Ho) as Hlast.
        destruct Hm as [j o|j k o|j st u o|j out u o Hout]; simpl in Hf;
          try congruence.
        destruct Hinv as (Hs & Hl & Ha). simpl in Hlast.
        unfold runner_on_stop in *. exists out, u.
        destruct (_should_stop_objective out) as [a|]; [simpl in Hf; discriminate|].
        unfold after_stop_check in *.
        destruct (Nat.leb_spec MAX_STEPS (length (steps o))); simpl in *; [|congruence].
        assert (Hlen : length (steps o) = MAX_STEPS) by lia.
        rewrite Hlen in Hlast. auto 10.
      * rewrite list_lookup_insert_ne in Ho' by exact Hne. congruence.
Qed.

Lemma C2_witness :
  exists c o,
    run Sample.status_str Sample.start Sample.never_answered = Some c /\
    objectives (think c) !! 0 = Some o /\ status o = FAILED /\
    length (steps o) = MAX_STEPS /\
    last (calls_of 0 (calls c)) = Some (CallStop 0 MAX_STEPS).
Proof.
  eexists. eexists.
  split; [vm_compute; reflexivity|]. split; [reflexivity|]. split; [reflexivity|].
  eapply (proj1 (C2_failed_only_after_stop_check_at_cap
                   Sample.status_str "model" "What is the capital of France?"
                   Sample.never_answered _ ltac:(vm_compute; reflexivity)));
    reflexivity.
Defined.

(** C3: in every state of a session at most MAX_OBJECTIVES objectives
    exist and each holds at most MAX_STEPS steps.  The proposals of the
    detector are admitted in order until MAX_OBJECTIVES objectives exist
    and the rest of the batch is dropped: three proposals beside one
    objective give two admissions. *)
Theorem C3_bounds_and_admission status_str model_id question es c :
  run status_str (think_start status_str model_id question) es = Some c ->
  length (objectives (think c)) <= MAX_OBJECTIVES /\
  Forall (fun o => length (steps o) <= MAX_STEPS) (objectives (think c)) /\
  (forall proposed,
     admission proposed (objectives (think c)) =
       (firstn (MAX_OBJECTIVES - length (objectives (think c))) proposed,
        objectives (think c) ++
        firstn (MAX_OBJECTIVES - length (objectives (think c))) proposed)) /\
  (forall out u c',
     step status_str c (DetectReply out u) = Some c' ->
     exists proposed,
       _detect_new_objectives out = Some proposed /\
       objectives (think c') = snd (admission proposed (objectives (think c))) /\
       length (objectives (think c')) =
         Nat.min MAX_OBJECTIVES (length (objectives (think c)) + length proposed)) /\
  (forall root p1 p2 p3 : ObjectiveState,
     admission [p1; p2; p3] [root] = ([p1; p2], [root; p1; p2])).
Proof.
  intros Hrun. apply session_reachable in Hrun.
  pose proof (reachable_inv _ _ _ _ Hrun) as Hc.
  pose proof (inv_count _ (inv_store _ Hc)) as Hcount.
  split; [lia|]. split; [|split; [|split]].
  - apply Forall_lookup. intros i o Ho.
    now destruct (core_inv_objective _ _ _ Hc Ho) as (Hlen & _).
  - intros proposed. apply admission_firstn.
  - intros out u c' Hstep.
    destruct (step_change _ _ _ _ Hc Hstep)
      as [_ Hne _ | out' u' proposed [= <- <-] _ Hp Happ | j pc o1 o1' _ _ _ Hm _].
    + now destruct (Hne out u).
    + exists proposed. split; [exact Hp|]. rewrite admission_firstn. cbn [snd].
      split; [exact Happ|]. rewrite Happ, length_app, length_firstn. lia.
    + inversion Hm.
  - reflexivity.
Qed.

Lemma C3_witness :
  exists c,
    run Sample.status_str Sample.start Sample.three_proposals = Some c /\
    length (objectives (think c)) = 3 /\
    length (objectives (think c)) <= MAX_OBJECTIVES.
Proof.
  eexists. split; [vm_compute; reflexivity|]. split; [reflexivity|].
  exact (proj1 (C3_bounds_and_admission
                  Sample.status_str "model" "What is the capital of France?"
                  Sample.three_proposals _ ltac:(vm_compute; reflexivity))).
Defined.

(** C4: the status of an objective moves along PENDING, IN_PROGRESS,
    then COMPLETED or FAILED, and stays once terminal; the answer is
    written once, in the transition that completes the objective, and a
    FAILED objective has none. *)
Theorem C4_status_lifecycle status_str model_id question es c :
  run status_str (think_start status_str model_id question) es = Some c ->
  (forall i o,
     objectives (think c) !! i = Some o ->
     (status o = COMPLETED <-> exists a, answer o = Some a) /\
     (status o = FAILED -> answer o = None)) /\
  (forall e c' i o,
     step status_str c e = Some c' ->
     objectives (think c) !! i = Some o ->
     exists o',
       objectives (think c') !! i = Some o' /\
       (status o' = status o \/ status_edge (status o) (status o')) /\
       (is_terminal (status o) = true -> status o' = status o /\ answer o' = answer o) /\
       (answer o' <> answer o ->
        answer o = None /\ status o = IN_PROGRESS /\ status o' = COMPLETED) /\
       (status o' = COMPLETED -> status o <> COMPLETED ->
        answer o = None /\ exists a, answer o' = Some a)) /\
  (forall e c' i o',
     step status_str c e = Some c' ->
     objectives (think c) !! i = None ->
     objectives (think c') !! i = Some o' ->
     status o' = PENDING /\ answer o' = None).
Proof.
  intros Hrun. apply session_reachable in Hrun.
  pose proof (reachable_inv _ _ _ _ Hrun) as Hc.
  split; [|split].
  - intros i o Ho.
    destruct (core_inv_objective _ _ _ Hc Ho) as (_ & H1 & H2 & _).
    split; [exact H1 | intros Hf; apply H2, Hf].
  - intros e c' i o Hstep Ho.
    destruct (step_objective _ _ _ _ _ _ Hc Hstep Ho) as (o' & Ho' & Hm).
    exists o'. split; [exact Ho'|].
    destruct Hm as [Hs Ha _ | Hs Hs' Ha _ | a Hs Hs' Ha Ha' _ | Hs Hs' Ha _ _].
    + rewrite Hs, Ha. repeat split; auto; congruence.
    + rewrite Hs, Hs', Ha.
      repeat split; try discriminate; try congruence.
      right. constructor.
    + rewrite Hs, Hs', Ha, Ha'.
      repeat split; try discriminate; eauto. right. constructor.
    + rewrite Hs, Hs', Ha.
      repeat split; try discriminate; try congruence. right. constructor.
  - intros e c' i o' Hstep Hnone Ho'.
    destruct (step_change _ _ _ _ Hc Hstep)
      as [_ _ Hsame | out u proposed _ _ Hp Happ | j pc o1 o1' _ Ho1 _ _ Hins].
    + rewrite Hsame, Hnone in Ho'. discriminate.
    + rewrite Happ in Ho'. apply lookup_app_Some in Ho' as [Ho' | [_ Ho']];
        [congruence|].
      apply list_elem_of_lookup_2, elem_of_take in Ho' as (k & Ho' & _).
      pose proof (detected_spawned _ _ Hp) as HF.
      destruct (proj1 (Forall_lookup _ _) HF k o' Ho') as (Hs & _ & Ha). auto.
    + rewrite Hins in Ho'. apply lookup_lt_Some in Ho'. rewrite length_insert in Ho'.
      apply lookup_ge_None in Hnone. lia.
Qed.

Lemma C4_witness :
  exists c o,
    run Sample.status_str Sample.start Sample.capital_of_france = Some c /\
    objectives (think c) !! 0 = Some o /\
    (status o = COMPLETED <-> exists a, answer o = Some a) /\
    answer o = Some "Paris is the capital.".
Proof.
  eexists. eexists. split; [vm_compute; reflexivity|]. split; [reflexivity|].
  split; [|reflexivity].
  exact (proj1 (proj1 (C4_status_lifecycle
                         Sample.status_str "model" "What is the capital of France?"
                         Sample.capital_of_france _ ltac:(vm_compute; reflexivity))
                  0 _ eq_refl)).
Defined.

(** C5: no stop-check is asked for an objective that holds fewer than
    MIN_STEPS steps.  With fewer than MIN_STEPS steps the loop goes to the
    step call, and the step that the call returns is appended; a runner
    whose step call raised has ended and is not resumed. *)
Theorem C5_no_stop_check_before_min_steps status_str model_id question es c :
  run status_str (think_start status_str model_id question) es = Some c ->
  (forall i n, In (CallStop i n) (calls c) -> MIN_STEPS <= n) /\
  (forall j job o,
     jobs c !! j = Some job -> job_pc job = RAwaitStop ->
     objectives (think c) !! job_objective job = Some o ->
     MIN_STEPS <= length (steps o)) /\
  (forall o,
     status o = IN_PROGRESS -> length (steps o) < MIN_STEPS ->
     loop_head o = (o, RAwaitStep)) /\
  (forall j job o,
     jobs c !! j = Some job ->
     objectives (think c) !! job_objective job = Some o ->
     status o = IN_PROGRESS -> length (steps o) < MIN_STEPS ->
     job_pc job = RAwaitStep /\
     (job_raised job = false ->
      forall st u, exists c' o',
        step status_str c (StepReply j st u) = Some c' /\
        objectives (think c') !! job_objective job = Some o' /\
        steps o' = steps o ++ [st]) /\
     (job_raised job = true ->
      forall st u, step status_str c (StepReply j st u) = None)).
Proof.
  intros Hrun. apply session_reachable in Hrun.
  pose proof (reachable_inv _ _ _ _ Hrun) as Hc.
  pose proof (reachable_log _ _ _ _ Hrun) as HL.
  split; [|split; [|split]].
  - intros i n Hin.
    pose proof (proj1 (List.Forall_forall _ _) (log_ok _ HL) _ Hin) as Hok.
    simpl in Hok. lia.
  - intros j job o Hjob Hpc Ho.
    destruct (store_inv_lookup _ _ _ (inv_store _ Hc) Hjob) as (Hidx & o0 & Ho0 & Hinv).
    rewrite Hidx, Ho0 in Ho. injection Ho as <-. rewrite Hpc in Hinv.
    destruct Hinv as (_ & Hl & _). lia.
  - intros o Hs Hl. unfold loop_head, after_stop_check. rewrite Hs.
    destruct (Nat.leb_spec MIN_STEPS (length (steps o))); [lia|].
    destruct (Nat.leb_spec MAX_STEPS (length (steps o))); [|reflexivity].
    unfold MIN_STEPS, MAX_STEPS in *. lia.
  - intros j job o Hjob Ho Hs Hl.
    destruct (store_inv_lookup _ _ _ (inv_store _ Hc) Hjob) as (Hidx & o0 & Ho0 & Hinv).
    rewrite Hidx in Ho. rewrite Ho0 in Ho. injection Ho as ->.
    assert (Hpc : job_pc job = RAwaitStep).
    { destruct (job_pc job); simpl in Hinv.
      - destruct Hinv as (Hp & _). congruence.
      - destruct Hinv as (_ & Hlen & _). lia.
      - reflexivity.
      - destruct Hinv as [(Hp & _) | (Hp & _)]; congruence. }
    split; [exact Hpc|]. split.
    + intros Hr st u. rewrite Hpc in Hinv.
      simpl. unfold resume_runner. simpl. rewrite Hjob. simpl.
      destruct (decide (job_pc job = RAwaitStep /\ job_raised job = false)) as [_|Hn];
        [|tauto].
      rewrite Hidx, Ho0. simpl.
      destruct (runner_on_step st o) as [o' pc'] eqn:E.
      eexists. exists o'. split; [reflexivity|]. simpl.
      split; [apply list_lookup_insert_eq; eapply lookup_lt_Some, Ho0|].
      pose proof (runner_on_step_fst st o Hinv) as Hfst.
      rewrite E in Hfst. simpl in Hfst. now rewrite Hfst.
    + intros Hr st u. simpl. unfold resume_runner. simpl. rewrite Hjob. simpl.
      destruct (decide (job_pc job = RAwaitStep /\ job_raised job = false)) as [[_ Hf]|_];
        [congruence | reflexivity].
Qed.

Lemma C5_witness :
  exists c,
    run Sample.status_str Sample.start Sample.never_answered = Some c /\
    In (CallStop 0 3) (calls c) /\ MIN_STEPS <= 3.
Proof.
  eexists. split; [vm_compute; reflexivity|].
  assert (Hin : In (CallStop 0 3)
                  [CallStep 0 0; CallStep 0 1; CallStep 0 2; CallStop 0 3; CallStep 0 3;
                   CallStop 0 4; CallStep 0 4; CallStop 0 5])
    by (simpl; auto).
  split; [exact Hin|].
  exact (proj1 (C5_no_stop_check_before_min_steps
                  Sample.status_str "model" "What is the capital of France?"
                  Sample.never_answered _ ltac:(vm_compute; reflexivity)) 0 3 Hin).
Defined.

(** ** The driver and its calls *)

Lemma resume_runner_polling j expect segment say c c' :
  expect <> RDone -> core_inv c ->
  resume_runner j expect segment say c = Some c' ->
  driver c = DPoll /\ driver c' = DPoll.
Proof.
  intros Hne [Hc Hd] H.
  destruct (resume_runner_running _ _ _ _ _ _ H) as (job1 & Hjob1 & _ & Hr).
  apply resume_runner_Some in H as (job & o & Hjob & Hpc & Ho & ->). simpl.
  rewrite Hjob in Hjob1. injection Hjob1 as <-.
  destruct (decide (driver c = DPoll)) as [E|E]; [auto|].
  pose proof (all_ended_lookup _ _ _ (Hd E) Hjob) as Hact.
  rewrite (job_active_running job Hr) in Hact; [discriminate | congruence].
Qed.

Lemma runner_raises_polling j expect c c' :
  expect <> RDone -> core_inv c -> runner_raises j expect c = Some c' ->
  driver c = DPoll /\ driver c' = DPoll.
Proof.
  intros Hne [Hc Hd] H.
  apply runner_raises_Some in H as (job & Hjob & Hpc & Hr & ->). simpl.
  destruct (decide (driver c = DPoll)) as [E|E]; [auto|].
  pose proof (all_ended_lookup _ _ _ (Hd E) Hjob) as Hact.
  rewrite (job_active_running job Hr) in Hact; [discriminate | congruence].
Qed.

Lemma tool_call_polling j k c c' :
  core_inv c -> tool_call j k c = Some c' -> driver c = DPoll /\ driver c' = DPoll.
Proof.
  intros [Hc Hd] H.
  destruct (tool_call_running _ _ _ _ H) as (job1 & Hjob1 & _ & Hr).
  apply tool_call_Some in H as (job & o & Hjob & Hpc & Ho & ->). simpl.
  rewrite Hjob in Hjob1. injection Hjob1 as <-.
  destruct (decide (driver c = DPoll)) as [E|E]; [auto|].
  pose proof (all_ended_lookup _ _ _ (Hd E) Hjob) as Hact.
  rewrite (job_active_running job Hr) in Hact; [discriminate | congruence].
Qed.

(** A runner is resumed only while the driver polls. *)
Ltac runner_polls H Hc :=
  match type of H with
  | resume_runner ?j ?e ?s ?say ?c = Some ?c' =>
      let E0 := fresh "E0" in
      assert (e <> RDone) as E0 by discriminate;
      destruct (resume_runner_polling j e s say c c' E0 Hc H) as [? E]
  | runner_raises ?j ?e ?c = Some ?c' =>
      let E0 := fresh "E0" in
      assert (e <> RDone) as E0 by discriminate;
      destruct (runner_raises_polling j e c c' E0 Hc H) as [? E]
  end.

Lemma poll_driver status_str c : driver_inv status_str (poll status_str c).
Proof.
  unfold poll, driver_inv. destruct (0 <? active_count (jobs c)); simpl; [trivial|].
  apply last_snoc.
Qed.

Lemma leave_loop_driver status_str c : driver_inv status_str (leave_loop c).
Proof. unfold driver_inv. simpl. apply last_snoc. Qed.

Lemma while_head_driver status_str c : driver_inv status_str (while_head status_str c).
Proof.
  unfold while_head. destruct (any_unfinished _);
    [apply poll_driver | apply leave_loop_driver].
Qed.

Lemma on_detect_driver status_str proposed c :
  driver_inv status_str (on_detect status_str proposed c).
Proof.
  unfold on_detect. destruct (admission proposed _) as [new objs].
  destruct new; [destruct (_ =? 0)|];
    first [apply leave_loop_driver | apply while_head_driver].
Qed.

Lemma step_driver status_str c e c' :
  core_inv c -> driver_inv status_str c -> step status_str c e = Some c' ->
  driver_inv status_str c'.
Proof.
  intros Hc HD H.
  destruct e as [j|j k|j st u|j out u| |out u|out u|q|q|j|j]; simpl in H.
  - runner_polls H Hc.
    unfold driver_inv. now rewrite E.
  - destruct (tool_call_polling _ _ _ _ Hc H) as [_ E].
    unfold driver_inv. now rewrite E.
  - runner_polls H (charge_inv u _ Hc).
    unfold driver_inv. now rewrite E.
  - destruct (non_empty_completion out) as [res|]; simpl in H;
      runner_polls H (charge_inv u _ Hc); unfold driver_inv; now rewrite E.
  - destruct (decide (driver c = DPoll)); [|discriminate].
    injection H as <-. apply poll_driver.
  - destruct (decide (driver c = DAwaitDetect)); [|discriminate].
    destruct (_detect_new_objectives out); simpl in H; [|discriminate].
    injection H as <-. apply on_detect_driver.
  - destruct (decide (driver c = DAwaitAnswer)); [|discriminate].
    destruct (non_empty_completion out); simpl in H; [|discriminate].
    injection H as <-. exact I.
  - destruct (queue_get (get_queue q c)) as [[x v]|]; simpl in H; [|discriminate].
    injection H as <-. exact HD.
  - destruct (queue_task_done (get_queue q c)) as [v|]; simpl in H; [|discriminate].
    injection H as <-. exact HD.
  - runner_polls H Hc. unfold driver_inv. now rewrite E.
  - runner_polls H Hc. unfold driver_inv. now rewrite E.
Qed.

Lemma reachable_driver status_str model_id question c :
  reachable status_str model_id question c -> driver_inv status_str c.
Proof.
  induction 1 as [|c e c' Hr IH Hstep].
  - apply while_head_driver.
  - eapply step_driver; [eapply reachable_inv, Hr | exact IH | exact Hstep].
Qed.

Lemma any_unfinished_false objs :
  any_unfinished objs = false <-> Forall (fun o => is_terminal (status o) = true) objs.
Proof.
  induction objs as [|o objs IH]; simpl.
  - split; [constructor | reflexivity].
  - rewrite orb_false_iff, IH. split.
    + intros [Ho H]. constructor; [now destruct (status o) | exact H].
    + inversion 1 as [|? ? Ho H']; subst. split; [now destruct (status o) | exact H'].
Qed.

Lemma any_unfinished_app objs new :
  any_unfinished (objs ++ new) = any_unfinished objs || any_unfinished new.
Proof. unfold any_unfinished. apply existsb_app. Qed.

Lemma poll_not_answer status_str c : driver (poll status_str c) <> DAwaitAnswer.
Proof. unfold poll. destruct (0 <? _); simpl; discriminate. Qed.

(** C8: the claim does not hold of the code.  When the first step call
    of the root objective raises, the job of its runner ends and the
    objective stays IN_PROGRESS; the detector, asked with no active job,
    proposes nothing, and the loop is left by its [break]: the synthesizer
    is called, with an empty context, while an objective is IN_PROGRESS. *)
Theorem C8_loop_exit_while_in_progress :
  exists c o,
    run Sample.status_str Sample.start Sample.step_call_raises = Some c /\
    driver c = DAwaitAnswer /\
    objectives (think c) = [o] /\ status o = IN_PROGRESS /\
    any_unfinished (objectives (think c)) = true /\
    active_count (jobs c) = 0 /\
    last (calls c) = Some (CallAnswer "").
Proof.
  do 2 eexists. split; [vm_compute; reflexivity|].
  split; [reflexivity|]. split; [reflexivity|]. split; [reflexivity|].
  split; [reflexivity|]. split; reflexivity.
Qed.

(** ** Synthesizer and detector *)

Lemma answer_context_skip objs1 o objs2 :
  status o <> COMPLETED ->
  answer_context (objs1 ++ o :: objs2) = answer_context (objs1 ++ objs2).
Proof.
  intros Hs. unfold answer_context. rewrite !List.filter_app. simpl.
  unfold is_completed at 2. now rewrite bool_decide_eq_false_2.
Qed.

Lemma answer_context_none objs :
  Forall (fun o => status o <> COMPLETED) objs -> answer_context objs = "".
Proof.
  intros H. unfold answer_context.
  replace (List.filter is_completed objs) with (@nil ObjectiveState); [reflexivity|].
  induction H as [|o objs Ho _ IH]; simpl; [reflexivity|].
  unfold is_completed at 1. now rewrite bool_decide_eq_false_2.
Qed.

(** C6: the knowledge context of the synthesizer is made of one entry per
    COMPLETED objective, in order, a heading with its short name and then
    its answer, the entries joined by a line feed; objectives of any other
    status add nothing.  The call of the synthesizer is issued when the
    loop is left, with that context, which is empty when no objective is
    COMPLETED.  Of four objectives of which the first and the last are
    COMPLETED, the context holds those two, heading and answer. *)
Theorem C6_synthesis_context status_str model_id question es c :
  run status_str (think_start status_str model_id question) es = Some c ->
  answer_context (objectives (think c)) =
    Text.join nl
      (map (fun o => "## " +:+ short_name o +:+ nl +:+ fmt_answer (answer o))
         (List.filter (fun o => bool_decide (status o = COMPLETED))
            (objectives (think c)))) /\
  (forall o, In o (objectives (think c)) -> status o = COMPLETED ->
     exists a, answer o = Some a /\ fmt_answer (answer o) = a) /\
  (forall objs1 o objs2, status o <> COMPLETED ->
     answer_context (objs1 ++ o :: objs2) = answer_context (objs1 ++ objs2)) /\
  (driver c = DAwaitAnswer ->
   last (calls c) = Some (CallAnswer (answer_context (objectives (think c))))) /\
  (driver c = DAwaitAnswer ->
   Forall (fun o => status o <> COMPLETED) (objectives (think c)) ->
   last (calls c) = Some (CallAnswer "")) /\
  (forall out u c',
     step status_str c (DetectReply out u) = Some c' ->
     fst (admission (default [] (_detect_new_objectives out)) (objectives (think c))) = [] ->
     driver c' = DAwaitAnswer /\
     last (calls c') = Some (CallAnswer (answer_context (objectives (think c'))))) /\
  answer_context
    [Sample.an_objective "first" COMPLETED (Some "one");
     Sample.an_objective "second" FAILED None;
     Sample.an_objective "third" IN_PROGRESS None;
     Sample.an_objective "fourth" COMPLETED (Some "four")] =
    "## first" +:+ nl +:+ "one" +:+ nl +:+ "## fourth" +:+ nl +:+ "four".
Proof.
  intros Hrun. apply session_reachable in Hrun.
  pose proof (reachable_inv _ _ _ _ Hrun) as Hc.
  pose proof (reachable_driver _ _ _ _ Hrun) as HD.
  split; [reflexivity|]. split; [|split; [|split; [|split]]].
  - intros o Hin Hs. apply list_elem_of_In, list_elem_of_lookup in Hin as [i Ho].
    destruct (core_inv_objective _ _ _ Hc Ho) as (_ & H1 & _).
    destruct (proj1 H1 Hs) as [a Ha]. exists a. now rewrite Ha.
  - apply answer_context_skip.
  - intros E. unfold driver_inv in HD. now rewrite E in HD.
  - intros E HF. unfold driver_inv in HD. rewrite E in HD.
    now rewrite (answer_context_none _ HF) in HD.
  - split; [|reflexivity].
    intros out u c' Hstep Hnone.
    assert (HD' : driver_inv status_str c')
      by (eapply reachable_driver, reach_step; eassumption).
    assert (E : driver c' = DAwaitAnswer).
    { simpl in Hstep.
      destruct (decide (driver c = DAwaitDetect)) as [Hd|]; [|discriminate].
      destruct (_detect_new_objectives out) as [proposed|]; simpl in Hstep, Hnone;
        [|discriminate].
      injection Hstep as <-. unfold on_detect. simpl.
      destruct (admission proposed (objectives (think c))) as [new objs]. simpl in Hnone.
      subst new.
      assert (Hdone : all_ended (jobs c)) by (apply Hc; congruence).
      apply active_count_0 in Hdone. now rewrite Hdone. }
    split; [exact E|]. unfold driver_inv in HD'. now rewrite E in HD'.
Qed.

Lemma C6_witness :
  exists c,
    run Sample.status_str Sample.start Sample.nothing_completed = Some c /\
    driver c = DAwaitAnswer /\
    last (calls c) = Some (CallAnswer "").
Proof.
  eexists. split; [vm_compute; reflexivity|]. split; [reflexivity|].
  apply (proj1 (proj2 (proj2 (proj2 (proj2 (C6_synthesis_context
           Sample.status_str "model" "What is the capital of France?"
           Sample.nothing_completed _ ltac:(vm_compute; reflexivity))))))).
  - reflexivity.
  - apply Forall_cons. split; [discriminate | apply Forall_nil_2].
Defined.





(** C10: an objective made from a proposal of the detector is PENDING and
    has no knowledge, no step, an empty history and no answer, and so is
    every objective that a session appends; the root objective alone is
    created with a knowledge item, which wraps the question of the user. *)
Theorem C10_created_objectives status_str step_turns model_id question es c :
  run status_str (think_start status_str model_id question) es = Some c ->
  (forall out proposed o,
     _detect_new_objectives out = Some proposed -> In o proposed ->
     status o = PENDING /\ knowledges o = [] /\ steps o = [] /\
     history step_turns o = [] /\ answer o = None) /\
  (forall e c' i o',
     step status_str c e = Some c' ->
     objectives (think c) !! i = None ->
     objectives (think c') !! i = Some o' ->
     0 < i /\ (exists out u, e = DetectReply out u) /\
     status o' = PENDING /\ knowledges o' = [] /\ steps o' = [] /\
     history step_turns o' = [] /\ answer o' = None) /\
  objectives (think (think_start status_str model_id question)) =
    [seed_objective question] /\
  knowledges (seed_objective question) =
    [{| k_description := question; k_short_name := "User question";
        k_source := "User message" |}] /\
  status (seed_objective question) = PENDING /\
  steps (seed_objective question) = [] /\
  answer (seed_objective question) = None.
Proof.
  intros Hrun. apply session_reachable in Hrun.
  pose proof (reachable_inv _ _ _ _ Hrun) as Hc.
  assert (Hnew : forall out proposed o,
            _detect_new_objectives out = Some proposed -> In o proposed ->
            status o = PENDING /\ knowledges o = [] /\ steps o = [] /\
            history step_turns o = [] /\ answer o = None).
  { intros out proposed o. unfold _detect_new_objectives, _Res_validate.
    destruct (length out <=? 3); simpl; [|discriminate].
    intros [= <-] Hin. apply in_map_iff in Hin as (t & <- & _).
    repeat split. }
  split; [exact Hnew|]. split; [|repeat split].
  intros e c' i o' Hstep Hnone Ho'.
  destruct (step_change _ _ _ _ Hc Hstep)
    as [_ _ Hsame | out u proposed He _ Hp Happ | j pc o1 o1' _ Ho1 _ _ Hins].
  - rewrite Hsame, Hnone in Ho'. discriminate.
  - apply lookup_ge_None in Hnone.
    pose proof (inv_count _ (inv_store _ Hc)) as Hcount.
    split; [lia|]. split; [eauto|].
    rewrite Happ in Ho'. apply lookup_app_Some in Ho' as [Ho' | [_ Ho']].
    + apply lookup_lt_Some in Ho'. lia.
    + apply list_elem_of_lookup_2, elem_of_take in Ho' as (k & Ho' & _).
      apply (Hnew out proposed); [exact Hp|].
      apply list_elem_of_In. eapply list_elem_of_lookup_2, Ho'.
  - rewrite Hins in Ho'. apply lookup_lt_Some in Ho'. rewrite length_insert in Ho'.
    apply lookup_ge_None in Hnone. lia.
Qed.

Lemma C10_witness :
  exists c o,
    run Sample.status_str Sample.start Sample.three_proposals = Some c /\
    objectives (think c) !! 2 = Some o /\
    short_name o = "second" /\
    forall out proposed o,
      _detect_new_objectives out = Some proposed -> In o proposed ->
      status o = PENDING /\ knowledges o = [] /\ steps o = [] /\
      history (fun _ => []) o = [] /\ answer o = None.
Proof.
  eexists. eexists. split; [vm_compute; reflexivity|]. split; [reflexivity|].
  split; [reflexivity|].
  exact (proj1 (C10_created_objectives
           Sample.status_str (fun _ => []) "model" "What is the capital of France?"
           Sample.three_proposals _ ltac:(vm_compute; reflexivity))).
Defined.

(** ** The end of [_think] *)

Lemma while_head_think status_str c :
  think (while_head status_str c) = think c /\
  thinking_queue (while_head status_str c) = thinking_queue c /\
  content_queue (while_head status_str c) = content_queue c.
Proof.
  unfold while_head, poll, leave_loop.
  destruct (any_unfinished _); [destruct (0 <? _)|]; simpl; auto.
Qed.

Lemma on_detect_think status_str proposed c :
  req_model (think (on_detect status_str proposed c)) = req_model (think c) /\
  think_usage (think (on_detect status_str proposed c)) = think_usage (think c) /\
  thinking_queue (on_detect status_str proposed c) = thinking_queue c /\
  content_queue (on_detect status_str proposed c) = content_queue c /\
  exists d, driver (on_detect status_str proposed c) = d /\ forall u, d <> DReturned u.
Proof.
  unfold on_detect. destruct (admission proposed _) as [new objs].
  destruct new as [|o new]; [destruct (_ =? 0)|];
    unfold while_head, poll, leave_loop;
    repeat match goal with |- context [if ?b then _ else _] => destruct b end;
    simpl; repeat split; eexists; split; try reflexivity; discriminate.
Qed.

Lemma step_model status_str c e c' :
  step status_str c e = Some c' -> req_model (think c') = req_model (think c).
Proof.
  intros H. destruct e as [j|j k|j st u|j out u| |out u|out u|q|q|j|j]; simpl in H.
  - apply resume_runner_Some in H as (job & o & _ & _ & _ & ->). reflexivity.
  - apply tool_call_Some in H as (job & o & _ & _ & _ & ->). reflexivity.
  - apply resume_runner_Some in H as (job & o & _ & _ & _ & ->). reflexivity.
  - destruct (non_empty_completion out); simpl in H.
    + apply resume_runner_Some in H as (job & o & _ & _ & _ & ->). reflexivity.
    + apply runner_raises_Some in H as (job & _ & _ & _ & ->). reflexivity.
  - destruct (decide (driver c = DPoll)); [|discriminate].
    injection H as <-. unfold poll. now destruct (0 <? _).
  - destruct (decide (driver c = DAwaitDetect)); [|discriminate].
    destruct (_detect_new_objectives out) as [proposed|]; simpl in H; [|discriminate].
    injection H as <-. now destruct (on_detect_think status_str proposed (charge u c)) as (-> & _).
  - destruct (decide (driver c = DAwaitAnswer)); [|discriminate].
    destruct (non_empty_completion out); simpl in H; [|discriminate].
    injection H as <-. reflexivity.
  - destruct (queue_get (get_queue q c)) as [[x v]|]; simpl in H; [|discriminate].
    injection H as <-. reflexivity.
  - destruct (queue_task_done (get_queue q c)) as [v|]; simpl in H; [|discriminate].
    injection H as <-. reflexivity.
  - apply runner_raises_Some in H as (job & _ & _ & _ & ->). reflexivity.
  - apply runner_raises_Some in H as (job & _ & _ & _ & ->). reflexivity.
Qed.

Lemma reachable_model status_str model_id question c :
  reachable status_str model_id question c -> req_model (think c) = model_id.
Proof.
  induction 1 as [|c e c' _ IH Hstep].
  - unfold think_start. now destruct (while_head_think status_str
      {| think := {| req_model := model_id; user_question := question;
                     objectives := [seed_objective question];
                     think_usage := usage_zero |};
         jobs := spawn 0 []; driver := DPoll; thinking_queue := queue_empty;
         content_queue := queue_empty; calls := [] |}) as (-> & _).
  - now rewrite (step_model _ _ _ _ Hstep).
Qed.

(** Once [_think] returned, only the owner of the queues can act. *)
Lemma returned_stuck status_str c e u :
  core_inv c -> driver c = DReturned u -> inner_event e = true ->
  step status_str c e = None.
Proof.
  intros Hc Hd He.
  destruct (step status_str c e) as [c'|] eqn:H; [exfalso|reflexivity].
  destruct e as [j|j k|j st u0|j out u0| |out u0|out u0|q|q|j|j]; simpl in H, He;
    try discriminate.
  - runner_polls H Hc. congruence.
  - destruct (tool_call_polling _ _ _ _ Hc H). congruence.
  - runner_polls H (charge_inv u0 _ Hc). simpl in *. congruence.
  - destruct (non_empty_completion out); simpl in H;
      runner_polls H (charge_inv u0 _ Hc); simpl in *; congruence.
  - destruct (decide (driver c = DPoll)); [congruence | discriminate].
  - destruct (decide (driver c = DAwaitDetect)); [congruence | discriminate].
  - destruct (decide (driver c = DAwaitAnswer)); [congruence | discriminate].
  - runner_polls H Hc. congruence.
  - runner_polls H Hc. congruence.
Qed.

(** What [_think] returns is the accumulator as it stays. *)
Lemma step_returned status_str c e c' :
  core_inv c ->
  (forall u, driver c = DReturned u -> u = think_usage (think c)) ->
  step status_str c e = Some c' ->
  forall u, driver c' = DReturned u -> u = think_usage (think c').
Proof.
  intros Hc IH H u Hd.
  destruct e as [j|j k|j st u0|j out u0| |out u0|out u0|q|q|j|j]; simpl in H.
  - runner_polls H Hc. congruence.
  - destruct (tool_call_polling _ _ _ _ Hc H). congruence.
  - runner_polls H (charge_inv u0 _ Hc). congruence.
  - destruct (non_empty_completion out); simpl in H;
      runner_polls H (charge_inv u0 _ Hc); congruence.
  - destruct (decide (driver c = DPoll)); [|discriminate].
    injection H as <-. unfold poll in Hd. destruct (0 <? _); discriminate.
  - destruct (decide (driver c = DAwaitDetect)); [|discriminate].
    destruct (_detect_new_objectives out) as [proposed|]; simpl in H; [|discriminate].
    injection H as <-.
    destruct (on_detect_think status_str proposed (charge u0 c))
      as (_ & _ & _ & _ & d & Ed & Hn).
    rewrite Ed in Hd. now apply Hn in Hd.
  - destruct (decide (driver c = DAwaitAnswer)); [|discriminate].
    destruct (non_empty_completion out); simpl in H; [|discriminate].
    injection H as <-. simpl in Hd. now injection Hd as <-.
  - destruct (queue_get (get_queue q c)) as [[x v]|]; simpl in H; [|discriminate].
    injection H as <-. destruct q; apply IH, Hd.
  - destruct (queue_task_done (get_queue q c)) as [v|]; simpl in H; [|discriminate].
    injection H as <-. destruct q; apply IH, Hd.
  - runner_polls H Hc. congruence.
  - runner_polls H Hc. congruence.
Qed.

Lemma reachable_returned status_str model_id question c u :
  reachable status_str model_id question c ->
  driver c = DReturned u -> u = think_usage (think c).
Proof.
  intros H. revert u. induction H as [|c e c' Hr IH Hstep]; intros u Hd.
  - unfold think_start, while_head, poll in Hd. simpl in Hd. discriminate.
  - eapply step_returned; [eapply reachable_inv, Hr | exact IH | exact Hstep | exact Hd].
Qed.

(** ** The streaming driver *)

Lemma inner_step_queue status_str c e c' q :
  inner_event e = true -> step status_str c e = Some c' ->
  get_queue q c' = get_queue q c \/ exists x, get_queue q c' = queue_put x (get_queue q c).
Proof.
  intros He H.
  destruct e as [j|j k|j st u|j out u| |out u|out u|q0|q0|j|j]; simpl in H, He;
    try discriminate.
  - apply resume_runner_Some in H as (job & o & _ & _ & _ & ->). destruct q; auto.
  - apply tool_call_Some in H as (job & o & _ & _ & _ & ->). destruct q; auto.
  - apply resume_runner_Some in H as (job & o & _ & _ & _ & ->).
    destruct q; simpl; eauto.
  - destruct (non_empty_completion out); simpl in H.
    + apply resume_runner_Some in H as (job & o & _ & _ & _ & ->). destruct q; auto.
    + apply runner_raises_Some in H as (job & _ & _ & _ & ->). destruct q; auto.
  - destruct (decide (driver c = DPoll)); [|discriminate].
    injection H as <-. left. unfold poll. destruct (0 <? _); destruct q; reflexivity.
  - destruct (decide (driver c = DAwaitDetect)); [|discriminate].
    destruct (_detect_new_objectives out) as [proposed|]; simpl in H; [|discriminate].
    injection H as <-. left.
    destruct (on_detect_think status_str proposed (charge u c)) as (_ & _ & H1 & H2 & _).
    destruct q; simpl; [exact H1 | exact H2].
  - destruct (decide (driver c = DAwaitAnswer)); [|discriminate].
    destruct (non_empty_completion out) as [res|]; simpl in H; [|discriminate].
    injection H as <-. destruct q; simpl; eauto.
  - apply runner_raises_Some in H as (job & _ & _ & _ & ->). destruct q; auto.
  - apply runner_raises_Some in H as (job & _ & _ & _ & ->). destruct q; auto.
Qed.

Lemma inner_step_items status_str c e c' q :
  inner_event e = true -> step status_str c e = Some c' ->
  items (get_queue q c') = items (get_queue q c) ++ stream_put q (Inner e).
Proof.
  intros He H.
  destruct e as [j|j k|j st u|j out u| |out u|out u|q0|q0|j|j]; simpl in H, He;
    try discriminate.
  - apply resume_runner_Some in H as (job & o & _ & _ & _ & ->).
    destruct q; simpl; now rewrite app_nil_r.
  - apply tool_call_Some in H as (job & o & _ & _ & _ & ->).
    destruct q; simpl; now rewrite app_nil_r.
  - apply resume_runner_Some in H as (job & o & _ & _ & _ & ->).
    destruct q; simpl; [reflexivity | now rewrite app_nil_r].
  - destruct (non_empty_completion out); simpl in H.
    + apply resume_runner_Some in H as (job & o & _ & _ & _ & ->).
      destruct q; simpl; now rewrite app_nil_r.
    + apply runner_raises_Some in H as (job & _ & _ & _ & ->).
      destruct q; simpl; now rewrite app_nil_r.
  - destruct (decide (driver c = DPoll)); [|discriminate].
    injection H as <-. unfold poll. destruct (0 <? _); destruct q; simpl;
      now rewrite app_nil_r.
  - destruct (decide (driver c = DAwaitDetect)); [|discriminate].
    destruct (_detect_new_objectives out) as [proposed|]; simpl in H; [|discriminate].
    injection H as <-.
    destruct (on_detect_think status_str proposed (charge u c)) as (_ & _ & H1 & H2 & _).
    destruct q; simpl; rewrite ?H1, ?H2; simpl; now rewrite app_nil_r.
  - destruct (decide (driver c = DAwaitAnswer)); [|discriminate].
    unfold non_empty_completion in H.
    destruct (Text.truthy out); simpl in H; [|discriminate].
    injection H as <-. destruct q; simpl; [now rewrite app_nil_r | reflexivity].
  - apply runner_raises_Some in H as (job & _ & _ & _ & ->).
    destruct q; simpl; now rewrite app_nil_r.
  - apply runner_raises_Some in H as (job & _ & _ & _ & ->).
    destruct q; simpl; now rewrite app_nil_r.
Qed.

Lemma consumer_chunk_nonterminal q model_id x : nonterminal (consumer_chunk q model_id x).
Proof. destruct q; split; simpl; auto. Qed.

Lemma terminal_chunk_terminal model_id u : ~ nonterminal (terminal_chunk model_id u).
Proof. intros [H _]. discriminate. Qed.

Lemma stream_start_inv status_str model_id question :
  stream_inv status_str model_id question (stream_start status_str model_id question).
Proof.
  split.
  - constructor.
  - intros q. destruct q; reflexivity.
  - unfold main_inv. simpl. repeat split; [constructor | discriminate | discriminate].
Qed.

Lemma stream_step_inv status_str model_id question s e s' :
  stream_inv status_str model_id question s ->
  stream_step status_str s e = Some s' ->
  stream_inv status_str model_id question s'.
Proof.
  intros [Hcore Hbal Hmain] H.
  pose proof (reachable_inv _ _ _ _ Hcore) as Hc.
  destruct e as [e|q|q| | |]; simpl in H.
  - destruct (inner_event e) eqn:He; [|discriminate].
    destruct (step status_str (core s) e) as [c'|] eqn:Hstep; simpl in H; [|discriminate].
    injection H as <-. split; simpl.
    + eapply reach_step; eassumption.
    + intros q. unfold consumer. simpl. fold (consumer q s).
      destruct (inner_step_queue _ _ _ _ q He Hstep) as [-> | [x ->]]; [apply Hbal|].
      simpl. rewrite length_app, Hbal. simpl. lia.
    + unfold main_inv in *. simpl.
      destruct (main s) as [|u|u|]; [exact Hmain | | |].
      * destruct Hmain as (Hd & _).
        rewrite (returned_stuck _ _ _ _ Hc Hd He) in Hstep. discriminate.
      * destruct Hmain as (Hd & _).
        rewrite (returned_stuck _ _ _ _ Hc Hd He) in Hstep. discriminate.
      * destruct Hmain as ((body & u & _ & _ & Hd) & _).
        rewrite (returned_stuck _ _ _ _ Hc Hd He) in Hstep. discriminate.
  - destruct (decide (consumer q s = CIdle)) as [Hidle|]; [|discriminate].
    destruct (queue_get (get_queue q (core s))) as [[x v]|] eqn:Hget; simpl in H;
      [|discriminate].
    injection H as <-.
    unfold queue_get in Hget. destruct (items (get_queue q (core s))) as [|y rest] eqn:Hi;
      [discriminate|]. injection Hget as <- <-.
    pose proof (Hbal q) as Hq. rewrite Hi, Hidle in Hq. simpl in Hq.
    split; simpl.
    + apply (reach_step _ _ _ (core s) (QueueGet q)); [exact Hcore|].
      cbn [step]. unfold queue_get. rewrite Hi. reflexivity.
    + intros q'. specialize (Hbal q'). destruct q, q'; simpl in *; lia.
    + unfold main_inv in *. simpl.
      destruct (main s) as [|u|u|]; destruct q; simpl in *;
        intuition (try discriminate; try congruence).
  - destruct (consumer q s) as [|x|] eqn:Hcons; try discriminate.
    destruct (queue_task_done (get_queue q (core s))) as [v|] eqn:Hdone; simpl in H;
      [|discriminate].
    injection H as <-.
    unfold queue_task_done in Hdone.
    destruct (unfinished (get_queue q (core s))) as [|n] eqn:Hu; [discriminate|].
    injection Hdone as <-.
    pose proof (Hbal q) as Hq. rewrite Hu, Hcons in Hq. simpl in Hq.
    split; simpl.
    + apply (reach_step _ _ _ (core s) (QueueTaskDone q)); [exact Hcore|].
      cbn [step]. unfold queue_task_done. rewrite Hu. reflexivity.
    + intros q'. specialize (Hbal q'). destruct q, q'; simpl in *; try lia;
        rewrite ?Hcons in *; simpl in *; lia.
    + unfold main_inv in *. simpl.
      pose proof (consumer_chunk_nonterminal q (req_model (think (core s))) x) as Hnt.
      destruct (main s) as [|u|u|]; destruct q; simpl in *;
        repeat match goal with
               | H : _ /\ _ |- _ => destruct H
               end;
        try congruence;
        repeat split; try assumption; try discriminate;
        apply Forall_app; split; try assumption; repeat constructor; apply Hnt.
  - destruct (main s) eqn:Hm; try discriminate.
    destruct (driver (core s)) as [| | |u] eqn:Hd; try discriminate.
    injection H as <-. split; simpl; [exact Hcore | exact Hbal |].
    unfold main_inv in *. rewrite Hm in Hmain. simpl. tauto.
  - destruct (main s) as [|u|u|] eqn:Hm; try discriminate.
    destruct (queue_joined (content_queue (core s)) &&
              queue_joined (thinking_queue (core s))) eqn:Hj; [|discriminate].
    injection H as <-.
    apply andb_true_iff in Hj as [Hjc Hjt]. unfold queue_joined in *.
    apply Nat.eqb_eq in Hjc, Hjt.
    pose proof (Hbal Content) as Hbc. pose proof (Hbal Thinking) as Hbt.
    simpl in Hbc, Hbt. rewrite Hjc in Hbc. rewrite Hjt in Hbt.
    split; simpl; [exact Hcore | |].
    + intros q. destruct q; simpl; lia.
    + unfold main_inv in *. rewrite Hm in Hmain. simpl.
      destruct Hmain as (Hd & Hnt & _).
      repeat split; auto.
      * destruct (items (content_queue (core s))); [reflexivity | simpl in Hbc; lia].
      * destruct (items (thinking_queue (core s))); [reflexivity | simpl in Hbt; lia].
  - destruct (main s) as [|u|u|] eqn:Hm; try discriminate.
    injection H as <-. split; simpl; [exact Hcore | exact Hbal |].
    unfold main_inv in *. rewrite Hm in Hmain. simpl.
    destruct Hmain as (Hd & Hnt & Hc1 & Hc2 & Hd1 & Hd2).
    split; [|tauto].
    exists (completions_queue s), u.
    rewrite (reachable_model _ _ _ _ Hcore). auto.
Qed.

Lemma stream_reachable_inv status_str model_id question s :
  stream_reachable status_str model_id question s ->
  stream_inv status_str model_id question s.
Proof.
  induction 1 as [|s e s' _ IH Hstep].
  - apply stream_start_inv.
  - eapply stream_step_inv; eassumption.
Qed.

Lemma stream_run_reachable status_str model_id question es s s' :
  stream_reachable status_str model_id question s ->
  stream_run status_str s es = Some s' ->
  stream_reachable status_str model_id question s'.
Proof.
  revert s. induction es as [|e es IH]; intros s Hs H; simpl in H.
  - now injection H as <-.
  - destruct (stream_step status_str s e) as [s1|] eqn:E; simpl in H; [|discriminate].
    eapply IH; [eapply sreach_step; eassumption | exact H].
Qed.

Lemma stream_session_inv status_str model_id question es s :
  stream_run status_str (stream_start status_str model_id question) es = Some s ->
  stream_inv status_str model_id question s.
Proof.
  intros H. eapply stream_reachable_inv, stream_run_reachable; [constructor | exact H].
Qed.

Lemma returned_stream_stuck status_str model_id question s e :
  stream_inv status_str model_id question s -> main s = MReturned ->
  stream_step status_str s e = None.
Proof.
  intros [Hcore _ Hmain] Hm. unfold main_inv in Hmain. rewrite Hm in Hmain.
  destruct Hmain as ((body & u & _ & _ & Hd) & Hc1 & Hc2 & _).
  destruct e as [e|q|q| | |]; simpl; rewrite ?Hm; try reflexivity.
  - destruct (inner_event e) eqn:He; [|reflexivity].
    now rewrite (returned_stuck _ _ _ _ (reachable_inv _ _ _ _ Hcore) Hd He).
  - destruct q; simpl; rewrite ?Hc1, ?Hc2; reflexivity.
  - destruct q; simpl; rewrite ?Hc1, ?Hc2; reflexivity.
Qed.

Lemma stream_step_chunks status_str model_id question s e s' :
  stream_inv status_str model_id question s ->
  stream_step status_str s e = Some s' ->
  (completions_queue s' = completions_queue s /\ e <> TerminalPut /\
   forall q, e <> ConsumerPut q) \/
  (exists q x, e = ConsumerPut q /\ consumer q s = CHolding x /\
     completions_queue s' = completions_queue s ++ [consumer_chunk q model_id x]) \/
  (e = TerminalPut /\ main s' = MReturned /\
   completions_queue s' =
     completions_queue s ++ [terminal_chunk model_id (think_usage (think (core s)))]).
Proof.
  intros [Hcore _ Hmain] H.
  pose proof (reachable_model _ _ _ _ Hcore) as Hmodel.
  destruct e as [e|q|q| | |]; simpl in H.
  - destruct (inner_event e); [|discriminate].
    destruct (step status_str (core s) e); simpl in H; [|discriminate].
    injection H as <-. left. repeat split; discriminate.
  - destruct (decide (consumer q s = CIdle)); [|discriminate].
    destruct (queue_get (get_queue q (core s))) as [[x v]|]; simpl in H; [|discriminate].
    injection H as <-. left. repeat split; discriminate.
  - destruct (consumer q s) as [|x|] eqn:Hcons; try discriminate.
    destruct (queue_task_done (get_queue q (core s))); simpl in H; [|discriminate].
    injection H as <-. right. left. exists q, x. rewrite <- Hmodel. auto.
  - destruct (main s); try discriminate.
    destruct (driver (core s)); try discriminate.
    injection H as <-. left. repeat split; discriminate.
  - destruct (main s); try discriminate.
    destruct (_ && _); [|discriminate].
    injection H as <-. left. repeat split; discriminate.
  - destruct (main s) as [|u|u|] eqn:Hm; try discriminate.
    injection H as <-. right. right. unfold main_inv in Hmain. rewrite Hm in Hmain.
    destruct Hmain as (Hd & _).
    rewrite <- (reachable_returned _ _ _ _ _ Hcore Hd), Hmodel. auto.
Qed.

(** *** Progress *)

Lemma zip_with_insert_sum {A B} (f : A -> B -> nat) l k j a b a0 b0 :
  l !! j = Some a0 -> k !! j = Some b0 ->
  list_sum (zip_with f (<[j:=a]> l) (<[j:=b]> k)) + f a0 b0 =
  list_sum (zip_with f l k) + f a b.
Proof.
  revert k j. induction l as [|x l IH]; intros k j Hl Hk; [discriminate|].
  destruct k as [|y k]; [discriminate|].
  destruct j as [|j]; simpl in *.
  - injection Hl as ->. injection Hk as ->. lia.
  - specialize (IH k j Hl Hk). lia.
Qed.

Lemma not_all_ended js :
  active_count js <> 0 -> exists j job, js !! j = Some job /\ job_active job = true.
Proof.
  unfold active_count. induction js as [|x js IH]; simpl; [congruence|].
  destruct (job_active x) eqn:E; simpl.
  - intros _. exists 0, x. auto.
  - intros H. destruct (IH H) as (j & job & Hj & Hpc). exists (S j), job. auto.
Qed.

Lemma all_ended_distance js objs :
  all_ended js -> list_sum (zip_with job_distance js objs) = 0.
Proof.
  intros H. revert objs. induction H as [|j js Hj _ IH]; intros objs; [reflexivity|].
  destruct objs as [|o objs]; [reflexivity|]. simpl. rewrite IH.
  unfold job_distance, job_active in *.
  destruct (job_raised j); [reflexivity|]. simpl in Hj.
  apply negb_false_iff, bool_decide_eq_true_1 in Hj. now rewrite Hj.
Qed.

Lemma runner_progress status_str c j job :
  core_inv c -> jobs c !! j = Some job -> job_active job = true ->
  exists c', step status_str c (runner_event j (job_pc job)) = Some c' /\
             distance c' < distance c.
Proof.
  intros [Hc Hd] Hjob Hact.
  assert (Hr : job_raised job = false).
  { unfold job_active in Hact. now destruct (job_raised job). }
  assert (Hpc : job_pc job <> RDone).
  { intros E. now rewrite (job_active_done job E) in Hact. }
  destruct (store_inv_lookup _ _ _ Hc Hjob) as (Hidx & o & Ho & Hinv).
  assert (Hpoll : driver c = DPoll).
  { destruct (decide (driver c = DPoll)) as [|E]; [assumption|].
    pose proof (all_ended_lookup _ _ _ (Hd E) Hjob). congruence. }
  assert (Hgen : forall segment say c0,
            jobs c0 = jobs c -> objectives (think c0) = objectives (think c) ->
            driver c0 = driver c ->
            runner_distance (snd (segment o)) (length (steps (fst (segment o)))) <
            runner_distance (job_pc job) (length (steps o)) ->
            exists c', resume_runner j (job_pc job) segment say c0 = Some c' /\
                       distance c' < distance c).
  { intros segment say c0 Hj0 Ho0 Hd0 Hlt. unfold resume_runner.
    rewrite Hj0, Hjob. simpl.
    destruct (decide (job_pc job = job_pc job /\ job_raised job = false)) as [_|Hn];
      [|tauto].
    rewrite Ho0, Hidx, Ho. simpl. destruct (segment o) as [o' pc'] eqn:Es. simpl in Hlt.
    eexists. split; [reflexivity|]. unfold distance. simpl. rewrite Hd0.
    pose proof (zip_with_insert_sum job_distance (jobs c) (objectives (think c)) j
                  {| job_objective := j; job_pc := pc'; job_raised := false |}
                  o' job o Hjob Ho) as Hsum.
    assert (E2 : job_distance job o = runner_distance (job_pc job) (length (steps o)))
      by (unfold job_distance; now rewrite Hr).
    assert (E1 : job_distance {| job_objective := j; job_pc := pc'; job_raised := false |} o'
                 = runner_distance pc' (length (steps o'))) by reflexivity.
    rewrite E1, E2 in Hsum. lia. }
  destruct (job_pc job) eqn:Epc; simpl in Hinv |- *.
  - apply (Hgen runner_start None c); auto.
    rewrite (runner_start_eq o); [|exact Hinv].
    simpl. destruct Hinv as (_ & -> & _). simpl. unfold MIN_STEPS. lia.
  - destruct Hinv as (Hs & Hl & Ha).
    apply (Hgen (runner_on_stop "answer") None (charge usage_zero c)); auto.
  - pose proof (runner_on_step_fst {| s_short_name := "step"; s_fields := "" |} o Hinv)
      as Hfst.
    destruct Hinv as (Hs & Hl & Ha).
    apply (Hgen (runner_on_step {| s_short_name := "step"; s_fields := "" |})
             (Some "step") (charge usage_zero c)); auto.
    rewrite Hfst, length_append_step.
    unfold runner_on_step, loop_head, after_stop_check. cbn [status append_step].
    rewrite Hs, length_append_step.
    destruct (Nat.leb_spec MIN_STEPS (S (length (steps o)))); cbn [snd runner_distance].
    + lia.
    + destruct (Nat.leb_spec MAX_STEPS (S (length (steps o)))); cbn [snd runner_distance];
        unfold MIN_STEPS, MAX_STEPS in *; lia.
  - congruence.
Qed.

Lemma driver_progress status_str c :
  core_inv c -> active_count (jobs c) = 0 -> (forall u, driver c <> DReturned u) ->
  exists c', step status_str c (driver_event (driver c)) = Some c' /\
             distance c' < distance c.
Proof.
  intros [Hc Hd] Hact Hnot.
  pose proof (proj1 (active_count_0 _) Hact) as Hdone.
  assert (Hsum : forall objs, list_sum (zip_with job_distance (jobs c) objs) = 0)
    by (intros objs; now apply all_ended_distance).
  destruct (driver c) as [| | |u] eqn:Ed; simpl.
  - rewrite Ed. simpl. eexists. split; [reflexivity|].
    unfold poll, distance. rewrite Hact. simpl. rewrite Ed, !Hsum. simpl. lia.
  - rewrite Ed. simpl. eexists. split; [reflexivity|].
    unfold on_detect, distance. simpl. rewrite Hact. simpl.
    rewrite Ed, !Hsum. simpl. lia.
  - rewrite Ed. simpl. eexists. split; [reflexivity|].
    unfold distance. simpl. rewrite Ed, !Hsum. simpl. lia.
  - now destruct (Hnot u).
Qed.

Lemma can_end status_str n c :
  distance c <= n -> core_inv c ->
  exists es c' u, run status_str c es = Some c' /\ driver c' = DReturned u.
Proof.
  revert c. induction n as [|n IH]; intros c Hn Hc.
  - destruct (driver c) as [| | |u] eqn:Ed;
      try (unfold distance in Hn; rewrite Ed in Hn; simpl in Hn; lia).
    exists [], c, u. auto.
  - destruct (driver c) as [| | |u] eqn:Ed; [| | |exists [], c, u; auto].
    all: assert (Hnot : forall u, driver c <> DReturned u) by (rewrite Ed; discriminate).
    all: destruct (Nat.eq_dec (active_count (jobs c)) 0) as [Hact|Hact];
      [ destruct (driver_progress status_str c Hc Hact Hnot) as (c1 & Hstep & Hlt)
      | destruct (not_all_ended _ Hact) as (j & job & Hjob & Hpc);
        destruct (runner_progress status_str c j job Hc Hjob Hpc) as (c1 & Hstep & Hlt) ].
    all: destruct (IH c1 ltac:(lia) (step_inv _ _ _ _ Hc Hstep)) as (es & c' & u & Hrun & Hd).
    all: eexists (_ :: es), c', u; simpl; rewrite Hstep; simpl; auto.
Qed.

Lemma core_progress status_str c :
  core_inv c -> (forall u, driver c <> DReturned u) ->
  exists e c', inner_event e = true /\ step status_str c e = Some c' /\
               distance c' < distance c.
Proof.
  intros Hc Hnot.
  destruct (Nat.eq_dec (active_count (jobs c)) 0) as [Hact|Hact].
  - destruct (driver_progress status_str c Hc Hact Hnot) as (c' & Hstep & Hlt).
    exists (driver_event (driver c)), c'. split; [now destruct (driver c)|]. auto.
  - destruct (not_all_ended _ Hact) as (j & job & Hjob & Hpc).
    destruct (runner_progress status_str c j job Hc Hjob Hpc) as (c' & Hstep & Hlt).
    exists (runner_event j (job_pc job)), c'. split; [now destruct (job_pc job)|]. auto.
Qed.

Lemma distance_set_queue q v c : distance (set_queue q v c) = distance c.
Proof. reflexivity. Qed.

Lemma stream_put_one e :
  length (stream_put Thinking e) + length (stream_put Content e) <= 1.
Proof.
  destruct e as [[]| | | | |]; simpl; lia.
Qed.

(** Unfolds the measure of a state that an event of the consumers or of
    the main task has produced. *)
Ltac stream_measure :=
  split; [reflexivity|]; unfold stream_distance; simpl; rewrite ?distance_set_queue.

Lemma stream_progress status_str model_id question s :
  stream_inv status_str model_id question s -> main s <> MReturned ->
  exists e s', stream_step status_str s e = Some s' /\
               stream_distance s' < stream_distance s.
Proof.
  intros [Hcore Hbal Hmain] Hm.
  pose proof (reachable_inv _ _ _ _ Hcore) as Hc.
  destruct (driver (core s)) as [| | |u] eqn:Ed.
  1-3: assert (Hnot : forall u, driver (core s) <> DReturned u)
         by (rewrite Ed; discriminate);
       destruct (core_progress status_str (core s) Hc Hnot) as (e & c' & He & Hstep & Hlt);
       exists (Inner e), (set_core c' s); simpl; rewrite He, Hstep; simpl;
       (split; [reflexivity|]);
       pose proof (inner_step_items _ _ _ _ Thinking He Hstep) as Hit;
       pose proof (inner_step_items _ _ _ _ Content He Hstep) as Hic;
       simpl in Hit, Hic; unfold stream_distance; simpl; rewrite Hit, Hic, !length_app;
       pose proof (stream_put_one (Inner e)) as Hone; simpl in Hone; lia.
  unfold main_inv in Hmain.
  destruct (main s) as [|u'|u'|] eqn:Em; [| | |contradiction].
  - exists ThinkReturned. eexists. simpl. rewrite Em, Ed.
    stream_measure. rewrite Em. simpl. lia.
  - destruct Hmain as (_ & _ & Hn1 & Hn2).
    pose proof (Hbal Content) as Hbc. pose proof (Hbal Thinking) as Hbt.
    simpl in Hbc, Hbt.
    destruct (content_task s) as [|x|] eqn:Ec; [| |contradiction].
    + destruct (items (content_queue (core s))) as [|y rest] eqn:Eic.
      * destruct (thinking_task s) as [|x|] eqn:Et; [| |contradiction].
        -- destruct (items (thinking_queue (core s))) as [|y rest] eqn:Eit.
           ++ exists Joined. eexists. simpl. rewrite Em. unfold queue_joined.
              simpl in Hbc, Hbt. rewrite Hbc, Hbt. simpl.
              stream_measure. rewrite Em, Eic, Eit, Ec, Et. simpl. lia.
           ++ exists (ConsumerGet Thinking). eexists. simpl. rewrite Et.
              unfold queue_get. simpl. rewrite Eit. simpl.
              stream_measure. rewrite ?Em, ?Eic, ?Eit, ?Ec, ?Et. simpl. lia.
        -- exists (ConsumerPut Thinking). eexists. simpl. rewrite Et.
           unfold queue_task_done. simpl. rewrite Hbt. simpl.
           rewrite Nat.add_1_r. simpl.
           stream_measure. rewrite ?Em, ?Ec, ?Et. simpl. lia.
      * exists (ConsumerGet Content). eexists. simpl. rewrite Ec.
        unfold queue_get. simpl. rewrite Eic. simpl.
        stream_measure. rewrite ?Em, ?Eic, ?Ec, ?Et. simpl. lia.
    + exists (ConsumerPut Content). eexists. simpl. rewrite Ec.
      unfold queue_task_done. simpl. rewrite Hbc. simpl.
      rewrite Nat.add_1_r. simpl.
      stream_measure. rewrite ?Em, ?Ec. simpl. lia.
  - exists TerminalPut. eexists. simpl. rewrite Em.
    stream_measure. rewrite Em. simpl. lia.
Qed.

Lemma stream_can_end status_str model_id question n s :
  stream_distance s <= n -> stream_inv status_str model_id question s ->
  exists es s', stream_run status_str s es = Some s' /\ main s' = MReturned.
Proof.
  revert s. induction n as [|n IH]; intros s Hn Hs;
    (destruct (decide (main s = MReturned)) as [Hm|Hm]; [exists [], s; auto|]).
  - destruct (stream_progress _ _ _ _ Hs Hm) as (e & s' & _ & Hlt). lia.
  - destruct (stream_progress _ _ _ _ Hs Hm) as (e & s1 & Hstep & Hlt).
    destruct (IH s1 ltac:(lia) (stream_step_inv _ _ _ _ _ _ Hs Hstep))
      as (es & s' & Hrun & Hend).
    exists (e :: es), s'. simpl. rewrite Hstep. auto.
Qed.

(** C7: under [think_stream] the consumers are cancelled in one
    transition only, the return of the joins, and then both queues hold
    nothing and have every item acknowledged, both consumers waiting in
    [get].  Until the driver returns, every chunk put has no usage and no
    finish reason; once it has returned, the chunks are those followed by
    one end-of-stream chunk, which carries the usage of the session and
    the reason "stop", and no transition is left that could put another.
    From every state of a session there are replies of the model and
    turns of the tasks that bring the driver to its return. *)
Theorem C7_stream_drain_then_terminal status_str model_id question es s :
  stream_run status_str (stream_start status_str model_id question) es = Some s ->
  (forall e s',
     stream_step status_str s e = Some s' ->
     content_task s <> CCancelled \/ thinking_task s <> CCancelled ->
     content_task s' = CCancelled \/ thinking_task s' = CCancelled ->
     e = Joined /\
     content_task s' = CCancelled /\ thinking_task s' = CCancelled /\
     content_task s = CIdle /\ thinking_task s = CIdle /\
     drained (content_queue (core s)) /\ drained (thinking_queue (core s)) /\
     completions_queue s' = completions_queue s) /\
  (main s <> MReturned -> Forall nonterminal (completions_queue s)) /\
  (main s = MReturned ->
   exists body,
     completions_queue s =
       body ++ [terminal_chunk model_id (think_usage (think (core s)))] /\
     Forall nonterminal body /\
     forall e, stream_step status_str s e = None) /\
  (forall e s',
     stream_step status_str s e = Some s' ->
     completions_queue s' = completions_queue s \/
     (exists q x, e = ConsumerPut q /\
        completions_queue s' = completions_queue s ++ [consumer_chunk q model_id x]) \/
     (e = TerminalPut /\ main s' = MReturned /\
      completions_queue s' =
        completions_queue s ++
        [terminal_chunk model_id (think_usage (think (core s)))])) /\
  (forall u,
     usage (terminal_chunk model_id u) = Some u /\
     map finish_reason (choices (terminal_chunk model_id u)) = [Some "stop"] /\
     ~ nonterminal (terminal_chunk model_id u)) /\
  (exists es' s', stream_run status_str s es' = Some s' /\ main s' = MReturned).
Proof.
  intros Hrun. pose proof (stream_session_inv _ _ _ _ _ Hrun) as Hs.
  split; [|split; [|split; [|split; [|split]]]].
  - intros e s' Hstep Hbefore Hafter.
    pose proof (stream_step_inv _ _ _ _ _ _ Hs Hstep) as Hs'.
    destruct Hs as [Hcore Hbal Hmain]. destruct Hs' as [_ _ Hmain'].
    unfold main_inv in Hmain, Hmain'.
    destruct (main s) as [|u|u|] eqn:Hm;
      [| | destruct Hmain as (_ & _ & H1 & H2 & _); tauto
       | destruct Hmain as (_ & H1 & H2 & _); tauto].
    + exfalso.
      destruct e as [e|q|q| | |]; simpl in Hstep; rewrite ?Hm in Hstep;
        try discriminate.
      * destruct (inner_event e); [|discriminate].
        destruct (step status_str (core s) e); simpl in Hstep; [|discriminate].
        injection Hstep as <-. simpl in *. rewrite Hm in Hmain'. tauto.
      * destruct (decide (consumer q s = CIdle)); [|discriminate].
        destruct (queue_get (get_queue q (core s))) as [[x v]|]; simpl in Hstep;
          [|discriminate].
        injection Hstep as <-. simpl in *. rewrite Hm in Hmain'. tauto.
      * destruct (consumer q s); try discriminate.
        destruct (queue_task_done (get_queue q (core s))); simpl in Hstep;
          [|discriminate].
        injection Hstep as <-. simpl in *. rewrite Hm in Hmain'. tauto.
      * destruct (driver (core s)); try discriminate.
        injection Hstep as <-. simpl in *. tauto.
    + destruct e as [e|q|q| | |]; simpl in Hstep; rewrite ?Hm in Hstep;
        try discriminate.
      * exfalso. destruct (inner_event e); [|discriminate].
        destruct (step status_str (core s) e); simpl in Hstep; [|discriminate].
        injection Hstep as <-. simpl in *. rewrite Hm in Hmain'. tauto.
      * exfalso. destruct (decide (consumer q s = CIdle)); [|discriminate].
        destruct (queue_get (get_queue q (core s))) as [[x v]|]; simpl in Hstep;
          [|discriminate].
        injection Hstep as <-. simpl in *. rewrite Hm in Hmain'. tauto.
      * exfalso. destruct (consumer q s); try discriminate.
        destruct (queue_task_done (get_queue q (core s))); simpl in Hstep;
          [|discriminate].
        injection Hstep as <-. simpl in *. rewrite Hm in Hmain'. tauto.
      * destruct (queue_joined (content_queue (core s)) &&
                  queue_joined (thinking_queue (core s))) eqn:Hj; [|discriminate].
        injection Hstep as <-. simpl in *.
        apply andb_true_iff in Hj as [Hjc Hjt]. unfold queue_joined in *.
        apply Nat.eqb_eq in Hjc, Hjt.
        pose proof (Hbal Content) as Hbc. pose proof (Hbal Thinking) as Hbt.
        simpl in Hbc, Hbt. rewrite Hjc in Hbc. rewrite Hjt in Hbt.
        destruct Hmain as (_ & _ & Hn1 & Hn2).
        assert (content_task s = CIdle)
          by (destruct (content_task s); simpl in Hbc; [reflexivity | lia | tauto]).
        assert (thinking_task s = CIdle)
          by (destruct (thinking_task s); simpl in Hbt; [reflexivity | lia | tauto]).
        assert (items (content_queue (core s)) = [])
          by (destruct (items (content_queue (core s)));
              [reflexivity | simpl in Hbc; lia]).
        assert (items (thinking_queue (core s)) = [])
          by (destruct (items (thinking_queue (core s)));
              [reflexivity | simpl in Hbt; lia]).
        unfold drained. repeat split; first [assumption | reflexivity].
  - intros Hm. destruct Hs as [_ _ Hmain]. unfold main_inv in Hmain.
    destruct (main s); [tauto | tauto | tauto | contradiction].
  - intros Hm. pose proof Hs as [Hcore _ Hmain]. unfold main_inv in Hmain.
    rewrite Hm in Hmain. destruct Hmain as ((body & u & Hq & Hnt & Hd) & _).
    exists body. rewrite <- (reachable_returned _ _ _ _ _ Hcore Hd).
    split; [exact Hq|]. split; [exact Hnt|].
    intros e. eapply returned_stream_stuck; eassumption.
  - intros e s' Hstep.
    destruct (stream_step_chunks _ _ _ _ _ _ Hs Hstep)
      as [(H & _) | [(q & x & He & _ & H) | H]]; eauto 10.
  - intros u. split; [reflexivity|]. split; [reflexivity|].
    apply terminal_chunk_terminal.
  - exact (stream_can_end _ _ _ (stream_distance s) s (Nat.le_refl _) Hs).
Qed.

Lemma C7_witness :
  exists s body,
    stream_run Sample.status_str StreamSample.start StreamSample.session = Some s /\
    main s = MReturned /\
    completions_queue s =
      body ++ [terminal_chunk "model" (think_usage (think (core s)))] /\
    length body = 4 /\
    Forall nonterminal body.
Proof.
  assert (H := proj1 (proj2 (proj2 (C7_stream_drain_then_terminal
             Sample.status_str "model" "What is the capital of France?"
             StreamSample.session _ ltac:(vm_compute; reflexivity)))) eq_refl).
  destruct H as (body & Hq & Hnt & _).
  eexists. exists body. split; [vm_compute; reflexivity|]. split; [reflexivity|].
  split; [exact Hq|]. split; [|exact Hnt].
  apply (f_equal (@length _)) in Hq. rewrite length_app in Hq.
  simpl in Hq. lia.
Defined.

(** * Further properties of the code *)

(** ** Objectives are append-only and frozen once terminal *)

Lemma runner_move_fields e j pc o o' :
  runner_inv pc o -> runner_move e j pc o o' ->
  short_name o' = short_name o /\ description o' = description o /\
  completion_criteria o' = completion_criteria o /\
  steps o `prefix_of` steps o' /\ knowledges o `prefix_of` knowledges o' /\
  status o <> COMPLETED /\ status o <> FAILED /\
  (knowledges o' <> knowledges o ->
   exists k, e = KnowledgeTool j k /\ pc = RAwaitStep /\
             knowledges o' = knowledges o ++ [k]).
Proof.
  intros Hinv Hm.
  destruct Hm as [j o|j k o|j st u o|j out u o Hout]; simpl in Hinv;
    destruct Hinv as (Hs & Hinv); rewrite Hs.
  - simpl. repeat split; try reflexivity; try discriminate. congruence.
  - simpl. repeat split; try reflexivity; try discriminate.
    + now exists [k].
    + intros _. eauto.
  - simpl. repeat split; try reflexivity; try discriminate.
    + now exists [st].
    + congruence.
  - unfold runner_on_stop, after_stop_check.
    destruct (_should_stop_objective out);
      [|destruct (MAX_STEPS <=? length (steps o))];
      simpl; repeat split; try reflexivity; try discriminate; congruence.
Qed.

(** X1: a transition leaves the names and texts of every objective as
    they are and only appends to its steps and knowledge items; an
    objective that is COMPLETED or FAILED is not changed at all, and a
    knowledge item is appended only by the knowledge tool, to the
    objective of the runner whose step call runs the tool. *)
Theorem X1_objectives_append_only status_str model_id question es c e c' i o :
  run status_str (think_start status_str model_id question) es = Some c ->
  step status_str c e = Some c' ->
  objectives (think c) !! i = Some o ->
  exists o',
    objectives (think c') !! i = Some o' /\
    short_name o' = short_name o /\ description o' = description o /\
    completion_criteria o' = completion_criteria o /\
    steps o `prefix_of` steps o' /\ knowledges o `prefix_of` knowledges o' /\
    (is_terminal (status o) = true -> o' = o) /\
    (knowledges o' <> knowledges o ->
     exists k, e = KnowledgeTool i k /\
               jobs c !! i =
                 Some {| job_objective := i; job_pc := RAwaitStep;
                         job_raised := false |} /\
               knowledges o' = knowledges o ++ [k]).
Proof.
  intros Hrun Hstep Ho. apply session_reachable in Hrun.
  pose proof (reachable_inv _ _ _ _ Hrun) as Hc.
  assert (Hsame : objectives (think c') !! i = Some o ->
          exists o',
            objectives (think c') !! i = Some o' /\
            short_name o' = short_name o /\ description o' = description o /\
            completion_criteria o' = completion_criteria o /\
            steps o `prefix_of` steps o' /\ knowledges o `prefix_of` knowledges o' /\
            (is_terminal (status o) = true -> o' = o) /\
            (knowledges o' <> knowledges o ->
             exists k, e = KnowledgeTool i k /\
               jobs c !! i =
                 Some {| job_objective := i; job_pc := RAwaitStep;
                         job_raised := false |} /\
               knowledges o' = knowledges o ++ [k])).
  { intros H. exists o. repeat split; auto. congruence. }
  destruct (step_change _ _ _ _ Hc Hstep)
    as [_ _ Heq | out u proposed _ _ _ Happ | j pc o1 o1' Hjob Ho1 Hinv Hm Hins].
  - apply Hsame. now rewrite Heq.
  - apply Hsame. rewrite Happ. now apply lookup_app_l_Some.
  - destruct (decide (j = i)) as [-> | Hne].
    + rewrite Ho in Ho1. injection Ho1 as <-.
      destruct (runner_move_fields _ _ _ _ _ Hinv Hm)
        as (H1 & H2 & H3 & H4 & H5 & H6 & H7 & H8).
      exists o1'. rewrite Hins.
      split; [apply list_lookup_insert_eq; eapply lookup_lt_Some, Ho|].
      repeat split; auto.
      * intros Ht. destruct (status o); simpl in Ht; congruence.
      * intros Hk. destruct (H8 Hk) as (k & -> & -> & Hk'). eauto.
    + apply Hsame. rewrite Hins. now rewrite list_lookup_insert_ne.
Qed.

Lemma X1_witness :
  exists c c' o',
    run Sample.status_str Sample.start Sample.never_answered = Some c /\
    step Sample.status_str c PollWake = Some c' /\
    objectives (think c') !! 0 = Some o' /\
    objectives (think c) !! 0 = Some o'.
Proof.
  destruct (X1_objectives_append_only
              Sample.status_str "model" "What is the capital of France?"
              Sample.never_answered _ PollWake _ 0 _
              ltac:(vm_compute; reflexivity) ltac:(vm_compute; reflexivity)
              ltac:(vm_compute; reflexivity))
    as (o' & Ho' & _ & _ & _ & _ & _ & Hfrozen & _).
  eexists. eexists. exists o'.
  split; [vm_compute; reflexivity|]. split; [vm_compute; reflexivity|].
  split; [exact Ho'|]. rewrite (Hfrozen eq_refl). vm_compute. reflexivity.
Defined.

(** ** One runner per objective *)

Lemma active_count_unfinished js objs :
  Forall2 job_inv js objs ->
  Forall (fun j => job_raised j = true ->
                   job_pc j = RAwaitStep \/ job_pc j = RAwaitStop) js ->
  active_count js + length (List.filter job_raised js) =
  length (List.filter (fun o => negb (is_terminal (status o))) objs).
Proof.
  unfold active_count.
  induction 1 as [|j o js objs HR _ IH]; intros HF; simpl; [reflexivity|].
  inversion HF as [|? ? Hj HF']; subst. specialize (IH HF').
  unfold job_inv in HR. unfold job_active at 1.
  destruct (job_raised j) eqn:Hr; simpl.
  - destruct (Hj eq_refl) as [E | E]; rewrite E in HR;
      destruct HR as (-> & _); simpl; lia.
  - destruct (job_pc j); simpl in HR.
    + destruct HR as (-> & _). simpl. lia.
    + destruct HR as (-> & _). simpl. lia.
    + destruct HR as (-> & _). simpl. lia.
    + destruct HR as [(-> & _) | (-> & _)]; simpl; exact IH.
Qed.

(** X2: every objective of the session has one job of the scheduler, the
    job at its position.  The runner of the job has not started exactly
    when the objective is PENDING and has returned exactly when it is
    COMPLETED or FAILED; otherwise the objective is IN_PROGRESS and the
    runner awaits a completion call, or was ended by the failure of that
    call.  So the objectives that are not terminal are those of the
    active jobs and those of the jobs that raised. *)
Theorem X2_one_runner_per_objective status_str model_id question es c :
  run status_str (think_start status_str model_id question) es = Some c ->
  length (jobs c) = length (objectives (think c)) /\
  (forall k job,
     jobs c !! k = Some job ->
     job_objective job = k /\
     exists o,
       objectives (think c) !! k = Some o /\
       (job_pc job = RSpawned <-> status o = PENDING) /\
       (job_pc job = RAwaitStep \/ job_pc job = RAwaitStop <-> status o = IN_PROGRESS) /\
       (job_pc job = RDone <-> is_terminal (status o) = true) /\
       (job_raised job = true -> status o = IN_PROGRESS) /\
       (job_active job = false <->
        is_terminal (status o) = true \/ job_raised job = true)) /\
  active_count (jobs c) + length (List.filter job_raised (jobs c)) =
    length (List.filter (fun o => negb (is_terminal (status o))) (objectives (think c))).
Proof.
  intros Hrun. apply session_reachable in Hrun.
  pose proof (reachable_inv _ _ _ _ Hrun) as [Hs _].
  split; [apply (Forall2_length _ _ _ (inv_jobs _ Hs))|]. split.
  - intros k job Hjob.
    destruct (store_inv_lookup _ _ _ Hs Hjob) as (Hidx & o & Ho & Hinv).
    split; [exact Hidx|]. exists o. split; [exact Ho|].
    pose proof (inv_raised _ Hs k job Hjob) as Hraised.
    unfold job_active.
    destruct (job_pc job); simpl in Hinv.
    + destruct Hinv as (-> & _). destruct (job_raised job).
      * destruct (Hraised eq_refl); discriminate.
      * simpl. repeat split; try discriminate; try tauto;
          intros [|]; discriminate.
    + destruct Hinv as (-> & _).
      destruct (job_raised job); simpl;
        repeat split; try discriminate; try tauto; auto;
        intros [|]; discriminate.
    + destruct Hinv as (-> & _).
      destruct (job_raised job); simpl;
        repeat split; try discriminate; try tauto; auto;
        intros [|]; discriminate.
    + destruct (job_raised job).
      * destruct (Hraised eq_refl); discriminate.
      * destruct Hinv as [(-> & _) | (-> & _)]; simpl;
          repeat split; try discriminate; try tauto; auto;
          intros [|]; discriminate.
  - apply active_count_unfinished; [apply Hs|].
    apply Forall_lookup. intros k j Hk. exact (inv_raised _ Hs k j Hk).
Qed.

Lemma X2_witness :
  exists c,
    run Sample.status_str Sample.start Sample.step_call_raises = Some c /\
    active_count (jobs c) = 0 /\ length (List.filter job_raised (jobs c)) = 1 /\
    length (jobs c) = length (objectives (think c)).
Proof.
  eexists. split; [vm_compute; reflexivity|]. split; [reflexivity|].
  split; [reflexivity|].
  exact (proj1 (X2_one_runner_per_objective
                  Sample.status_str "model" "What is the capital of France?"
                  Sample.step_call_raises _ ltac:(vm_compute; reflexivity))).
Defined.

(** ** The script of a runner *)

Lemma runner_start_script : segment_script RSpawned runner_start.
Proof.
  intros i o Ho. rewrite (runner_start_eq o Ho). destruct Ho as (_ & Hl & _).
  simpl. rewrite Hl. reflexivity.
Qed.

Lemma runner_on_step_script st : segment_script RAwaitStep (runner_on_step st).
Proof.
  intros i o Ho. pose proof (runner_on_step_fst st o Ho) as Hfst.
  destruct Ho as (Hs & Hl & Ha).
  unfold runner_on_step, loop_head, after_stop_check in *.
  cbn [status append_step] in *. rewrite Hs in *.
  rewrite length_append_step in *.
  destruct (Nat.leb_spec MIN_STEPS (S (length (steps o)))) as [H|H]; cbn [fst snd].
  - cbn [script_at runner_call]. rewrite !length_append_step. reflexivity.
  - destruct (Nat.leb_spec MAX_STEPS (S (length (steps o)))) as [H'|H']; cbn [fst snd].
    + unfold MIN_STEPS, MAX_STEPS in *. lia.
    + cbn [script_at runner_call]. rewrite !length_append_step.
      change (runner_script i (S (S (length (steps o)))))
        with (runner_script i (S (length (steps o))) ++
              (if MIN_STEPS <=? S (length (steps o))
               then [CallStop i (S (length (steps o)))] else []) ++
              [CallStep i (S (length (steps o)))]).
      destruct (Nat.leb_spec MIN_STEPS (S (length (steps o)))); [lia | reflexivity].
Qed.

Lemma runner_on_stop_script res : segment_script RAwaitStop (runner_on_stop res).
Proof.
  intros i o (Hs & Hl & Ha). unfold runner_on_stop, after_stop_check.
  destruct (_should_stop_objective res); [simpl; now rewrite app_nil_r|].
  destruct (Nat.leb_spec MAX_STEPS (length (steps o))); cbn [fst snd].
  - simpl. now rewrite app_nil_r.
  - cbn [script_at runner_call runner_script].
    destruct (Nat.leb_spec MIN_STEPS (length (steps o))); [|lia].
    now rewrite <- !app_assoc.
Qed.

Lemma resume_runner_script j expect segment say c c' :
  segment_script expect segment ->
  core_inv c -> script_inv c -> resume_runner j expect segment say c = Some c' ->
  script_inv c'.
Proof.
  intros Hseg [Hc Hd] HS H.
  apply resume_runner_Some in H as (job & o & Hjob & Hpc & Ho & ->).
  destruct (store_inv_lookup _ _ _ Hc Hjob) as (Hidx & o0 & Ho0 & Hinv).
  rewrite Hidx in *. rewrite Ho in Ho0. injection Ho0 as <-. rewrite Hpc in Hinv.
  pose proof (lookup_lt_Some _ _ _ Hjob) as Hlt.
  pose proof (lookup_lt_Some _ _ _ Ho) as Hlt'.
  intros i job' o' Hj' Ho'. simpl in *.
  rewrite calls_of_app, calls_of_runner_call.
  destruct (decide (j = i)) as [<- | Hne].
  - rewrite list_lookup_insert_eq in Hj' by assumption.
    rewrite list_lookup_insert_eq in Ho' by assumption.
    injection Hj' as <-. injection Ho' as <-. simpl.
    rewrite (Hseg j o Hinv). f_equal.
    rewrite (HS j job o Hjob Ho), Hpc. reflexivity.
  - rewrite list_lookup_insert_ne in Hj' by congruence.
    rewrite list_lookup_insert_ne in Ho' by congruence.
    rewrite app_nil_r. now apply HS.
Qed.

Lemma script_inv_extend c c' new_objs extra :
  jobs c' =
    jobs c ++ map (fun k => {| job_objective := k; job_pc := RSpawned; job_raised := false |})
                (seq (length (jobs c)) (length new_objs)) ->
  objectives (think c') = objectives (think c) ++ new_objs ->
  calls c' = calls c ++ extra ->
  (forall k, In k extra -> call_runner k = None) ->
  store_inv c -> log_inv c -> script_inv c -> script_inv c'.
Proof.
  intros Hj Ho Hk Hextra [H1 H2 H3] [L1 L2 L3] HS.
  pose proof (Forall2_length _ _ _ H1) as HL.
  assert (Hcalls : forall i, calls_of i (calls c') = calls_of i (calls c)).
  { intros i. rewrite Hk, calls_of_app. rewrite (calls_of_nil i extra), app_nil_r; [reflexivity|].
    intros k Hin. rewrite (Hextra k Hin). discriminate. }
  intros i job o Hjob Hobj. rewrite Hj in Hjob. rewrite Ho in Hobj. rewrite Hcalls.
  apply lookup_app_Some in Hjob as [Hjob | [Hge Hjob]].
  - pose proof (lookup_lt_Some _ _ _ Hjob) as Hlt.
    rewrite lookup_app_l in Hobj by lia. now apply HS.
  - rewrite list_lookup_fmap in Hjob.
    destruct (seq _ _ !! _) as [n|]; simpl in Hjob; [|discriminate].
    injection Hjob as <-. simpl.
    apply calls_of_nil. intros k Hin Hr. pose proof (L2 i k Hin Hr). lia.
Qed.

Lemma driver_frame_script c c' :
  driver_frame c c' -> store_inv c -> log_inv c -> script_inv c -> script_inv c'.
Proof.
  intros (Hj & Ht & extra & Hk & Hextra).
  apply (script_inv_extend c c' [] extra); simpl; rewrite ?app_nil_r; auto.
Qed.

Lemma runner_raises_script j expect c c' :
  script_inv c -> runner_raises j expect c = Some c' -> script_inv c'.
Proof.
  intros HS H. apply runner_raises_Some in H as (job & Hjob & Hpc & Hr & ->).
  intros i job' o Hi Ho. simpl in *.
  destruct (raised_lookup _ _ _ _ _ Hjob Hi) as (job0 & Hi0 & _ & -> & _).
  now apply HS.
Qed.

Lemma step_script status_str c e c' :
  core_inv c -> log_inv c -> script_inv c -> step status_str c e = Some c' ->
  script_inv c'.
Proof.
  intros Hc HL HS H.
  assert (Hcharge : forall u, script_inv (charge u c)).
  { intros u. apply (driver_frame_script c); [| apply Hc | exact HL | exact HS].
    now apply driver_frame_same. }
  destruct e as [j|j k|j st u|j out u| |out u|out u|q|q|j|j]; simpl in H.
  - eapply resume_runner_script; [apply runner_start_script | exact Hc | exact HS | exact H].
  - apply tool_call_Some in H as (job & o & Hjob & Hpc & Ho & ->).
    destruct (store_inv_lookup _ _ _ (inv_store _ Hc) Hjob) as (Hidx & _).
    rewrite Hidx in *. intros i job' o' Hj' Ho'. simpl in *.
    apply list_lookup_insert_Some in Ho' as [(-> & <- & _) | (Hne & Ho')].
    + apply (HS i job' o Hj' Ho).
    + now apply HS.
  - eapply resume_runner_script;
      [apply runner_on_step_script | apply charge_inv, Hc | apply Hcharge | exact H].
  - destruct (non_empty_completion out) as [res|]; simpl in H;
      [|eapply runner_raises_script; [apply Hcharge | exact H]].
    eapply resume_runner_script;
      [apply runner_on_stop_script | apply charge_inv, Hc | apply Hcharge | exact H].
  - destruct (decide (driver c = DPoll)); [|discriminate].
    injection H as <-.
    eapply driver_frame_script; [apply poll_frame | apply Hc | exact HL | exact HS].
  - destruct (decide (driver c = DAwaitDetect)) as [Hd|]; [|discriminate].
    destruct (_detect_new_objectives out) as [proposed|] eqn:Hp; simpl in H; [|discriminate].
    injection H as <-.
    pose proof (charge_inv u _ Hc) as [Hc1 _].
    assert (HL1 : log_inv (charge u c)).
    { apply (driver_frame_log c); [now apply driver_frame_same | apply Hc | exact HL]. }
    specialize (Hcharge u). revert Hc1 HL1 Hcharge. generalize (charge u c) as c1.
    intros c1 Hc1 HL1 HS1. unfold on_detect. rewrite admission_firstn.
    set (new := firstn (MAX_OBJECTIVES - length (objectives (think c1))) proposed).
    pose proof (Forall2_length _ _ _ (inv_jobs _ Hc1)) as Hlen.
    destruct new as [|o new'] eqn:Enew.
    + set (c2 := set_think _ c1).
      assert (H2 : store_inv c2).
      { apply (store_inv_ext c1); simpl; [reflexivity | apply app_nil_r | assumption]. }
      assert (L2 : log_inv c2).
      { apply (log_inv_extend c1 c2 [] []); simpl; rewrite ?app_nil_r; auto.
        intros k []. }
      assert (S2 : script_inv c2).
      { apply (script_inv_extend c1 c2 [] []); simpl; rewrite ?app_nil_r; auto.
        intros k []. }
      destruct (_ =? 0).
      * eapply driver_frame_script; [apply leave_loop_frame | exact H2 | exact L2 | exact S2].
      * eapply driver_frame_script; [apply while_head_frame | exact H2 | exact L2 | exact S2].
    + rewrite <- Enew. set (c2 := set_jobs _ _).
      destruct (while_head_frame status_str c2) as (Hj & Ht & extra & Hk & Hextra).
      apply (script_inv_extend c1 (while_head status_str c2) new extra);
        [ | | exact Hk | exact Hextra | exact Hc1 | exact HL1 | exact HS1].
      * rewrite Hj. unfold c2. simpl. rewrite spawn_new_app, Hlen. reflexivity.
      * rewrite Ht. reflexivity.
  - destruct (decide (driver c = DAwaitAnswer)) as [Hd|]; [|discriminate].
    destruct (non_empty_completion out); simpl in H; [|discriminate].
    injection H as <-.
    apply (driver_frame_script c); [now apply driver_frame_same | apply Hc | exact HL | exact HS].
  - destruct (queue_get (get_queue q c)) as [[x v]|]; simpl in H; [|discriminate].
    injection H as <-.
    apply (driver_frame_script c); [now apply driver_frame_same | apply Hc | exact HL | exact HS].
  - destruct (queue_task_done (get_queue q c)) as [v|]; simpl in H; [|discriminate].
    injection H as <-.
    apply (driver_frame_script c); [now apply driver_frame_same | apply Hc | exact HL | exact HS].
  - eapply runner_raises_script; eassumption.
  - eapply runner_raises_script; eassumption.
Qed.

Lemma reachable_script status_str model_id question c :
  reachable status_str model_id question c -> script_inv c.
Proof.
  induction 1 as [|c e c' Hr IH Hstep].
  - intros [|i] job o; simpl; [|destruct i; discriminate].
    intros [= <-] _. reflexivity.
  - eapply step_script;
      [eapply reachable_inv, Hr | eapply reachable_log, Hr | exact IH | exact Hstep].
Qed.

Lemma script_at_prefix i pc o :
  runner_inv pc o -> script_at i pc (length (steps o)) `prefix_of` full_script i.
Proof.
  unfold full_script.
  destruct pc; simpl; intros H; unfold MIN_STEPS, MAX_STEPS in *.
  - eexists. reflexivity.
  - destruct H as (_ & Hl & _).
    destruct (length (steps o)) as [|[|[|[|[|[|n]]]]]]; try lia;
      simpl; eexists; reflexivity.
  - destruct H as (_ & Hl & _).
    destruct (length (steps o)) as [|[|[|[|[|n]]]]]; try lia;
      simpl; eexists; reflexivity.
  - assert (Hl : 3 <= length (steps o) <= 5)
      by (destruct H as [(_ & Hl & _) | (_ & Hl & _)]; lia).
    destruct (length (steps o)) as [|[|[|[|[|[|n]]]]]]; try lia;
      simpl; eexists; reflexivity.
Qed.

(** X3: the completion calls of the runner of an objective follow one
    script: three step calls, then a stop-check before each further step
    call, the last stop-check at MAX_STEPS steps.  So an objective costs
    at most five step calls and three stop-checks, no stop-check is asked
    twice for the same number of steps, and a completed objective was
    answered by the latest of them. *)
Theorem X3_runner_call_script status_str model_id question es c i o :
  run status_str (think_start status_str model_id question) es = Some c ->
  objectives (think c) !! i = Some o ->
  calls_of i (calls c) `prefix_of`
    [CallStep i 0; CallStep i 1; CallStep i 2; CallStop i 3; CallStep i 3;
     CallStop i 4; CallStep i 4; CallStop i 5] /\
  length (calls_of i (calls c)) <= 8 /\
  (is_terminal (status o) = true ->
   calls_of i (calls c) =
     runner_script i (length (steps o)) ++ [CallStop i (length (steps o))]) /\
  (status o = PENDING -> calls_of i (calls c) = []).
Proof.
  intros Hrun Ho. apply session_reachable in Hrun.
  pose proof (reachable_inv _ _ _ _ Hrun) as Hc.
  pose proof (reachable_script _ _ _ _ Hrun) as HS.
  destruct (store_inv_lookup_obj _ _ _ (inv_store _ Hc) Ho) as (job & Hjob & _ & Hinv).
  pose proof (HS i job o Hjob Ho) as Hscript.
  pose proof (script_at_prefix i _ _ Hinv) as Hpre.
  rewrite <- Hscript in Hpre.
  split; [exact Hpre|]. split; [|split].
  - apply prefix_length in Hpre. exact Hpre.
  - intros Ht. rewrite Hscript. destruct (job_pc job); simpl in Hinv; try reflexivity;
      destruct Hinv as (Hs & _); rewrite Hs in Ht; discriminate.
  - intros Hp. rewrite Hscript.
    destruct (job_pc job); simpl in Hinv; try reflexivity.
    + destruct Hinv as (Hs & _); congruence.
    + destruct Hinv as (Hs & _); congruence.
    + destruct Hinv as [(Hs & _) | (Hs & _)]; congruence.
Qed.

Lemma X3_witness :
  exists c,
    run Sample.status_str Sample.start Sample.never_answered = Some c /\
    calls_of 0 (calls c) =
      [CallStep 0 0; CallStep 0 1; CallStep 0 2; CallStop 0 3; CallStep 0 3;
       CallStop 0 4; CallStep 0 4; CallStop 0 5] /\
    length (calls_of 0 (calls c)) <= 8.
Proof.
  eexists. split; [vm_compute; reflexivity|]. split; [reflexivity|].
  exact (proj1 (proj2 (X3_runner_call_script
           Sample.status_str "model" "What is the capital of France?"
           Sample.never_answered _ 0 _
           ltac:(vm_compute; reflexivity) ltac:(vm_compute; reflexivity)))).
Defined.

(** ** The calls of a session *)

Lemma runner_call_classes i o pc :
  List.filter is_detect (runner_call i o pc) = [] /\
  List.filter is_answer (runner_call i o pc) = [].
Proof. destruct pc; simpl; auto. Qed.

Lemma budget_inv_ext c c' :
  driver c' = driver c ->
  length (objectives (think c')) = length (objectives (think c)) ->
  List.filter is_detect (calls c') = List.filter is_detect (calls c) ->
  List.filter is_answer (calls c') = List.filter is_answer (calls c) ->
  budget_inv c -> budget_inv c'.
Proof. unfold budget_inv. intros -> -> -> ->. trivial. Qed.

Lemma resume_runner_budget j expect segment say c c' :
  expect <> RDone -> core_inv c -> budget_inv c ->
  resume_runner j expect segment say c = Some c' -> budget_inv c'.
Proof.
  intros Hne Hc HB H.
  destruct (resume_runner_polling _ _ _ _ _ _ Hne Hc H) as [E E'].
  apply resume_runner_Some in H as (job & o & Hjob & Hpc & Ho & ->).
  apply (budget_inv_ext c); simpl.
  - reflexivity.
  - apply length_insert.
  - rewrite List.filter_app.
    rewrite (proj1 (runner_call_classes _ _ _)). apply app_nil_r.
  - rewrite List.filter_app.
    rewrite (proj2 (runner_call_classes _ _ _)). apply app_nil_r.
  - exact HB.
Qed.

Lemma poll_budget status_str c :
  let detects := length (List.filter is_detect (calls c)) in
  detects + 1 <= length (objectives (think c)) ->
  List.filter is_answer (calls c) = [] ->
  budget_inv (poll status_str c).
Proof.
  simpl. intros Hd Ha. unfold poll, budget_inv.
  destruct (0 <? active_count (jobs c)); simpl.
  - rewrite Ha. auto.
  - rewrite !List.filter_app. simpl. rewrite Ha, length_app. simpl. split; [lia | reflexivity].
Qed.

Lemma leave_loop_budget c :
  length (List.filter is_detect (calls c)) <= length (objectives (think c)) ->
  List.filter is_answer (calls c) = [] ->
  budget_inv (leave_loop c).
Proof.
  intros Hd Ha. unfold budget_inv. simpl.
  rewrite !List.filter_app. simpl. rewrite Ha, app_nil_r. auto.
Qed.

Lemma while_head_budget status_str c :
  length (List.filter is_detect (calls c)) + 1 <= length (objectives (think c)) ->
  List.filter is_answer (calls c) = [] ->
  budget_inv (while_head status_str c).
Proof.
  intros Hd Ha. unfold while_head. destruct (any_unfinished _).
  - now apply poll_budget.
  - apply leave_loop_budget; [lia | exact Ha].
Qed.

Lemma step_budget status_str c e c' :
  core_inv c -> budget_inv c -> step status_str c e = Some c' -> budget_inv c'.
Proof.
  intros Hc HB H.
  assert (Hcharge : forall u, budget_inv (charge u c))
    by (intros u; now apply (budget_inv_ext c)).
  destruct e as [j|j k|j st u|j out u| |out u|out u|q|q|j|j]; simpl in H.
  - eapply resume_runner_budget; [| exact Hc | exact HB | exact H]. discriminate.
  - apply tool_call_Some in H as (job & o & Hjob & Hpc & Ho & ->).
    apply (budget_inv_ext c); simpl; auto using length_insert.
  - eapply resume_runner_budget; [| apply charge_inv, Hc | apply Hcharge | exact H].
    discriminate.
  - destruct (non_empty_completion out) as [res|]; simpl in H.
    + eapply resume_runner_budget; [| apply charge_inv, Hc | apply Hcharge | exact H].
      discriminate.
    + apply runner_raises_Some in H as (job & _ & _ & _ & ->).
      now apply (budget_inv_ext c).
  - destruct (decide (driver c = DPoll)) as [Hd|]; [|discriminate].
    injection H as <-. unfold budget_inv in HB. rewrite Hd in HB.
    destruct HB as [H1 H2]. apply poll_budget; [exact H1|].
    now apply length_zero_iff_nil.
  - destruct (decide (driver c = DAwaitDetect)) as [Hd|]; [|discriminate].
    destruct (_detect_new_objectives out) as [proposed|] eqn:Hp; simpl in H; [|discriminate].
    injection H as <-.
    unfold budget_inv in HB. rewrite Hd in HB. destruct HB as [H1 H2].
    apply length_zero_iff_nil in H2.
    assert (Hdone : all_ended (jobs c)) by (apply Hc; congruence).
    apply active_count_0 in Hdone.
    unfold on_detect. rewrite admission_firstn. simpl.
    destruct (firstn _ proposed) as [|o new].
    + rewrite Hdone. simpl. apply leave_loop_budget; simpl; [|exact H2].
      rewrite length_app. simpl. lia.
    + apply while_head_budget; simpl; [|exact H2].
      rewrite length_app. simpl. lia.
  - destruct (decide (driver c = DAwaitAnswer)) as [Hd|]; [|discriminate].
    destruct (non_empty_completion out); simpl in H; [|discriminate].
    injection H as <-. unfold budget_inv in *. rewrite Hd in HB. simpl. exact HB.
  - destruct (queue_get (get_queue q c)) as [[x v]|]; simpl in H; [|discriminate].
    injection H as <-. now apply (budget_inv_ext c).
  - destruct (queue_task_done (get_queue q c)) as [v|]; simpl in H; [|discriminate].
    injection H as <-. now apply (budget_inv_ext c).
  - apply runner_raises_Some in H as (job & _ & _ & _ & ->).
    now apply (budget_inv_ext c).
  - apply runner_raises_Some in H as (job & _ & _ & _ & ->).
    now apply (budget_inv_ext c).
Qed.

Lemma reachable_budget status_str model_id question c :
  reachable status_str model_id question c -> budget_inv c.
Proof.
  induction 1 as [|c e c' Hr IH Hstep].
  - unfold budget_inv. simpl. auto.
  - eapply step_budget; [eapply reachable_inv, Hr | exact IH | exact Hstep].
Qed.

Lemma calls_classes ks :
  length ks =
  length (List.filter is_runner_call ks) + length (List.filter is_detect ks) +
  length (List.filter is_answer ks).
Proof.
  induction ks as [|k ks IH]; simpl; [reflexivity|].
  destruct k; simpl; lia.
Qed.

Lemma runner_calls_three ks :
  (forall i k, In k ks -> call_runner k = Some i -> i < 3) ->
  length (List.filter is_runner_call ks) =
  length (calls_of 0 ks) + length (calls_of 1 ks) + length (calls_of 2 ks).
Proof.
  unfold calls_of. induction ks as [|k ks IH]; simpl; intros H; [reflexivity|].
  assert (IH' := IH (fun i k' Hin => H i k' (or_intror Hin))).
  unfold is_runner_call at 1.
  destruct (call_runner k) as [j|] eqn:E.
  - pose proof (H j k (or_introl eq_refl) E) as Hj.
    destruct j as [|[|[|j]]]; [| | |lia];
      repeat case_bool_decide; try congruence; simpl; lia.
  - repeat case_bool_decide; try congruence; simpl; lia.
Qed.

(** X4: a session calls the detector at most three times and the
    synthesizer at most once, and with at most eight calls for each of at
    most three objectives it issues at most 28 completion calls: the
    process is bounded whatever the model replies. *)
Theorem X4_session_call_budget status_str model_id question es c :
  run status_str (think_start status_str model_id question) es = Some c ->
  length (List.filter is_detect (calls c)) <= MAX_OBJECTIVES /\
  length (List.filter is_answer (calls c)) <= 1 /\
  (driver c = DPoll \/ driver c = DAwaitDetect <->
   length (List.filter is_answer (calls c)) = 0) /\
  length (calls c) <= 28.
Proof.
  intros Hrun. apply session_reachable in Hrun.
  pose proof (reachable_inv _ _ _ _ Hrun) as Hc.
  pose proof (reachable_log _ _ _ _ Hrun) as HL.
  pose proof (reachable_script _ _ _ _ Hrun) as HS.
  pose proof (reachable_budget _ _ _ _ Hrun) as HB.
  pose proof (inv_count _ (inv_store _ Hc)) as Hcount.
  pose proof (Forall2_length _ _ _ (inv_jobs _ (inv_store _ Hc))) as Hlen.
  assert (Hd : length (List.filter is_detect (calls c)) <= MAX_OBJECTIVES /\
               length (List.filter is_answer (calls c)) <= 1 /\
               (driver c = DPoll \/ driver c = DAwaitDetect <->
                length (List.filter is_answer (calls c)) = 0)).
  { unfold budget_inv in HB. destruct (driver c); destruct HB as [H1 H2];
      rewrite H2; (split; [lia|]); (split; [lia|]); split;
        try (intros [|]; discriminate); try discriminate; auto. }
  destruct Hd as (Hd1 & Hd2 & Hd3). split; [exact Hd1|]. split; [exact Hd2|].
  split; [exact Hd3|].
  assert (Hrunner : forall i, length (calls_of i (calls c)) <= 8).
  { intros i. destruct (objectives (think c) !! i) as [o|] eqn:Ho.
    - destruct (store_inv_lookup_obj _ _ _ (inv_store _ Hc) Ho) as (job & Hjob & _ & Hinv).
      rewrite (HS i job o Hjob Ho).
      apply (prefix_length _ (full_script i)), script_at_prefix, Hinv.
    - rewrite calls_of_nil; [simpl; lia|].
      intros k Hin Hr. pose proof (log_jobs _ HL i k Hin Hr).
      apply lookup_ge_None in Ho. lia. }
  rewrite calls_classes, runner_calls_three.
  - pose proof (Hrunner 0). pose proof (Hrunner 1). pose proof (Hrunner 2).
    unfold MAX_OBJECTIVES in *. lia.
  - intros i k Hin Hr. pose proof (log_jobs _ HL i k Hin Hr).
    unfold MAX_OBJECTIVES in *. lia.
Qed.

Lemma X4_witness :
  exists c,
    run Sample.status_str Sample.start Sample.nothing_completed = Some c /\
    length (calls c) = 10 /\ length (calls c) <= 28.
Proof.
  eexists. split; [vm_compute; reflexivity|]. split; [reflexivity|].
  exact (proj2 (proj2 (proj2 (X4_session_call_budget
           Sample.status_str "model" "What is the capital of France?"
           Sample.nothing_completed _ ltac:(vm_compute; reflexivity))))).
Defined.

(** ** Nothing is lost between the queues and the stream *)

Lemma stream_run_snoc status_str s es e :
  stream_run status_str s (es ++ [e]) =
  s' ← stream_run status_str s es; stream_step status_str s' e.
Proof.
  revert s. induction es as [|e0 es IH]; intros s; simpl.
  - now destruct (stream_step status_str s e).
  - destruct (stream_step status_str s e0) as [s1|]; simpl; [apply IH | reflexivity].
Qed.

Lemma stream_puts_snoc q es e :
  stream_puts q (es ++ [e]) = stream_puts q es ++ stream_put q e.
Proof. unfold stream_puts. rewrite flat_map_app. simpl. now rewrite app_nil_r. Qed.

Lemma inner_step_answer status_str c e c' :
  core_inv c -> inner_event e = true -> step status_str c e = Some c' ->
  match driver c' with
  | DReturned _ =>
      (forall u, driver c <> DReturned u) /\ exists a, stream_put Content (Inner e) = [a]
  | _ => (forall u, driver c <> DReturned u) /\ stream_put Content (Inner e) = []
  end.
Proof.
  intros Hc He H.
  assert (Hnot : forall u, driver c <> DReturned u).
  { intros u Hd. now rewrite (returned_stuck _ _ _ _ Hc Hd He) in H. }
  destruct e as [j|j k|j st u|j out u| |out u|out u|q0|q0|j|j]; simpl in H, He;
    try discriminate.
  - runner_polls H Hc. rewrite E. auto.
  - destruct (tool_call_polling _ _ _ _ Hc H) as [_ E]. rewrite E. auto.
  - runner_polls H (charge_inv u _ Hc). rewrite E. auto.
  - destruct (non_empty_completion out); simpl in H;
      runner_polls H (charge_inv u _ Hc); rewrite E; auto.
  - destruct (decide (driver c = DPoll)); [|discriminate].
    injection H as <-. unfold poll. destruct (0 <? _); simpl; auto.
  - destruct (decide (driver c = DAwaitDetect)); [|discriminate].
    destruct (_detect_new_objectives out) as [proposed|]; simpl in H; [|discriminate].
    injection H as <-.
    destruct (on_detect_think status_str proposed (charge u c))
      as (_ & _ & _ & _ & d & -> & Hn).
    destruct d; auto. now destruct (Hn u0).
  - destruct (decide (driver c = DAwaitAnswer)); [|discriminate].
    destruct (non_empty_completion out); simpl in H; [|discriminate].
    injection H as <-. simpl. eauto.
  - runner_polls H Hc. rewrite E. auto.
  - runner_polls H Hc. rewrite E. auto.
Qed.

Lemma stream_step_fifo status_str model_id question es s e s' :
  stream_inv status_str model_id question s ->
  fifo_inv model_id es s ->
  stream_step status_str s e = Some s' ->
  fifo_inv model_id (es ++ [e]) s'.
Proof.
  intros Hs (ct & th & body & Hil & Hq & Hc & Ht & Hd) H.
  pose proof Hs as [Hcore Hbal Hmain].
  pose proof (reachable_inv _ _ _ _ Hcore) as Hci.
  pose proof (reachable_model _ _ _ _ Hcore) as Hmodel.
  unfold fifo_inv. rewrite !stream_puts_snoc.
  destruct e as [e|q|q| | |]; simpl in H.
  - destruct (inner_event e) eqn:He; [|discriminate].
    destruct (step status_str (core s) e) as [c'|] eqn:Hstep; simpl in H; [|discriminate].
    injection H as <-. simpl.
    pose proof (inner_step_items _ _ _ _ Content He Hstep) as Hic.
    pose proof (inner_step_items _ _ _ _ Thinking He Hstep) as Hit.
    pose proof (inner_step_answer _ _ _ _ Hci He Hstep) as Hans.
    simpl in Hic, Hit.
    assert (Hm : main s <> MReturned).
    { intros Hm. pose proof (returned_stream_stuck _ _ _ _ (Inner e) Hs Hm) as Hstuck.
      simpl in Hstuck. rewrite He, Hstep in Hstuck. discriminate. }
    exists ct, th, body. split; [exact Hil|].
    destruct (decide (main s = MReturned)) as [|_]; [contradiction|].
    split; [exact Hq|].
    rewrite Hic, Hit, !app_assoc, <- (app_assoc ct), <- (app_assoc th), Hc, Ht.
    split; [reflexivity|]. split; [reflexivity|].
    assert (Hnot : forall u, driver (core s) <> DReturned u)
      by (destruct (driver c'); tauto).
    assert (Hputs : stream_puts Content es = []).
    { destruct (driver (core s)) as [| | |u]; try exact Hd. now destruct (Hnot u). }
    rewrite Hputs. simpl.
    destruct (driver c'); destruct Hans as [_ Hput]; exact Hput.
  - destruct (decide (consumer q s = CIdle)) as [Hidle|]; [|discriminate].
    destruct (queue_get (get_queue q (core s))) as [[x v]|] eqn:Hget; simpl in H;
      [|discriminate].
    injection H as <-.
    unfold queue_get in Hget. destruct (items (get_queue q (core s))) as [|y rest] eqn:Hi;
      [discriminate|]. injection Hget as <- <-.
    exists ct, th, body. simpl. split; [exact Hil|]. split; [exact Hq|].
    rewrite !app_nil_r.
    destruct q; simpl in *; rewrite ?Hidle, ?Hi in *; simpl in *; auto.
  - destruct (consumer q s) as [|x|] eqn:Hcons; try discriminate.
    destruct (queue_task_done (get_queue q (core s))) as [v|] eqn:Hdone; simpl in H;
      [|discriminate].
    injection H as <-.
    unfold queue_task_done in Hdone.
    destruct (unfinished (get_queue q (core s))) as [|n] eqn:Hu; [discriminate|].
    injection Hdone as <-.
    assert (Hm : main s <> MReturned).
    { intros Hm. unfold main_inv in Hmain. rewrite Hm in Hmain.
      destruct Hmain as (_ & H1 & H2 & _). destruct q; simpl in Hcons; congruence. }
    destruct (decide (main s = MReturned)) as [|_]; [contradiction|].
    rewrite app_nil_r in Hq. rewrite !app_nil_r.
    destruct q; simpl in Hcons.
    + exists ct, (th ++ [x]), (body ++ [consumer_chunk Thinking model_id x]).
      simpl. destruct (decide (main s = MReturned)) as [|_]; [contradiction|].
      rewrite map_app. simpl. split; [now apply il_right|].
      rewrite Hq, Hmodel, app_nil_r. split; [reflexivity|].
      rewrite Hcons in Ht. simpl in Ht. rewrite <- app_assoc. simpl. auto.
    + exists (ct ++ [x]), th, (body ++ [consumer_chunk Content model_id x]).
      simpl. destruct (decide (main s = MReturned)) as [|_]; [contradiction|].
      rewrite map_app. simpl. split; [now apply il_left|].
      rewrite Hq, Hmodel, app_nil_r. split; [reflexivity|].
      rewrite Hcons in Hc. simpl in Hc. rewrite <- app_assoc. simpl. auto.
  - destruct (main s) eqn:Hm; try discriminate.
    destruct (driver (core s)) as [| | |u] eqn:Ed; try discriminate.
    injection H as <-. exists ct, th, body. simpl. rewrite !app_nil_r.
    rewrite ?Hm in Hq. simpl in Hq. rewrite ?app_nil_r in Hq. rewrite Ed. auto 10.
  - destruct (main s) as [|u|u|] eqn:Hm; try discriminate.
    destruct (_ && _) eqn:Hj; [|discriminate].
    injection H as <-.
    apply andb_true_iff in Hj as [Hjc Hjt]. unfold queue_joined in *.
    apply Nat.eqb_eq in Hjc, Hjt.
    pose proof (Hbal Content) as Hbc. pose proof (Hbal Thinking) as Hbt.
    simpl in Hbc, Hbt. rewrite Hjc in Hbc. rewrite Hjt in Hbt.
    assert (held (content_task s) = [])
      by (destruct (content_task s); simpl in *; [reflexivity | lia | reflexivity]).
    assert (held (thinking_task s) = [])
      by (destruct (thinking_task s); simpl in *; [reflexivity | lia | reflexivity]).
    exists ct, th, body. simpl. rewrite !app_nil_r.
    rewrite ?Hm in Hq. simpl in Hq. rewrite ?app_nil_r in Hq.
    rewrite H, H0 in *. auto 10.
  - destruct (main s) as [|u|u|] eqn:Hm; try discriminate.
    injection H as <-. exists ct, th, body. simpl. rewrite !app_nil_r.
    rewrite ?Hm in Hq. simpl in Hq. rewrite ?app_nil_r in Hq.
    unfold main_inv in Hmain. rewrite Hm in Hmain. destruct Hmain as (Hdr & _).
    rewrite <- (reachable_returned _ _ _ _ _ Hcore Hdr), Hmodel, Hq. auto 10.
Qed.

Lemma stream_session_fifo status_str model_id question es s :
  stream_run status_str (stream_start status_str model_id question) es = Some s ->
  fifo_inv model_id es s.
Proof.
  revert s. induction es as [|e es IH] using rev_ind; intros s H.
  - injection H as <-. exists [], [], []. simpl. repeat split; constructor.
  - rewrite stream_run_snoc in H.
    destruct (stream_run _ _ es) as [s0|] eqn:E; simpl in H; [|discriminate].
    eapply stream_step_fifo; [eapply stream_session_inv, E | apply IH; reflexivity | exact H].
Qed.

(** X6: under [think_stream] the chunks put before the end of stream are
    an interleaving of the content chunks and of the narration chunks,
    each kind in the order in which its items were put on its queue: no
    item is emitted twice or out of order.  When the stream has ended,
    every short name of a step that was put has its narration chunk and
    the one content chunk is the answer of the synthesizer, verbatim. *)
Theorem X6_stream_loses_nothing status_str model_id question es s :
  stream_run status_str (stream_start status_str model_id question) es = Some s ->
  exists ct th body,
    interleaved (map (consumer_chunk Content model_id) ct)
      (map (consumer_chunk Thinking model_id) th) body /\
    completions_queue s =
      body ++
      (if decide (main s = MReturned)
       then [terminal_chunk model_id (think_usage (think (core s)))] else []) /\
    ct `prefix_of` stream_puts Content es /\
    th `prefix_of` stream_puts Thinking es /\
    (main s = MReturned ->
     th = stream_puts Thinking es /\
     exists answer, ct = [answer] /\ stream_puts Content es = [answer]).
Proof.
  intros Hrun.
  destruct (stream_session_fifo _ _ _ _ _ Hrun) as (ct & th & body & Hil & Hq & Hc & Ht & Hd).
  pose proof (stream_session_inv _ _ _ _ _ Hrun) as [_ _ Hmain].
  exists ct, th, body. split; [exact Hil|]. split; [exact Hq|].
  split; [eexists; symmetry; exact Hc|]. split; [eexists; symmetry; exact Ht|].
  intros Hm. unfold main_inv in Hmain. rewrite Hm in Hmain.
  destruct Hmain as ((b & u & _ & _ & Hdr) & Hc1 & Hc2 & (Hi1 & _) & (Hi2 & _)).
  rewrite Hc1, Hi1 in Hc. rewrite Hc2, Hi2 in Ht. simpl in Hc, Ht.
  rewrite app_nil_r in Hc, Ht. split; [exact Ht|].
  rewrite Hdr in Hd. destruct Hd as [a Ha]. exists a. split; congruence.
Qed.

Lemma X6_witness :
  exists s,
    stream_run Sample.status_str StreamSample.start StreamSample.session = Some s /\
    map (fun r => map (fun ch => content (delta ch)) (choices r)) (completions_queue s) =
      [[Some "<think>read</think>"]; [Some "<think>search</think>"]; [Some "Paris."];
       [Some "<think>check</think>"]; [None]] /\
    exists ct th body,
      interleaved (map (consumer_chunk Content "model") ct)
        (map (consumer_chunk Thinking "model") th) body /\
      ct `prefix_of` stream_puts Content StreamSample.session /\
      th `prefix_of` stream_puts Thinking StreamSample.session.
Proof.
  eexists. split; [vm_compute; reflexivity|]. split; [reflexivity|].
  destruct (X6_stream_loses_nothing
              Sample.status_str "model" "What is the capital of France?"
              StreamSample.session _ ltac:(vm_compute; reflexivity))
    as (ct & th & body & H1 & _ & H3 & H4 & _).
  exists ct, th, body. auto.
Defined.

(** ** The synchronous driver *)

Lemma drain_all render q acc :
  unfinished q = length (items q) ->
  drain render (length (items q)) q acc =
  Some (rendered render acc (items q), queue_empty).
Proof.
  destruct q as [its unf]. simpl. intros ->. revert acc.
  induction its as [|x its IH]; intros acc; simpl; [reflexivity|].
  unfold queue_get, queue_task_done. simpl. apply IH.
Qed.

Lemma drain_underflow render q acc :
  unfinished q < length (items q) ->
  drain render (length (items q)) q acc = None.
Proof.
  destruct q as [its unf]. simpl. revert unf acc.
  induction its as [|x its IH]; intros unf acc; simpl; [lia|].
  intros H. unfold queue_get, queue_task_done. simpl.
  destruct unf as [|unf]; [reflexivity|]. simpl. apply IH. lia.
Qed.

Lemma sync_as_stream status_str s es c' :
  Forall (fun e => inner_event e = true) es ->
  run status_str (core s) es = Some c' ->
  stream_run status_str s (map Inner es) = Some (set_core c' s).
Proof.
  intros HF. revert s. induction HF as [|e es He _ IH]; intros s H; simpl in H |- *.
  - injection H as <-. now destruct s.
  - rewrite He. destruct (step status_str (core s) e) as [c1|]; simpl in H |- *;
      [|discriminate].
    now rewrite (IH (set_core c1 s) H).
Qed.

Lemma stream_puts_inner q es :
  stream_puts q (map Inner es) =
  match q with Thinking => narrations es | Content => answers_put es end.
Proof.
  unfold stream_puts, narrations, answers_put.
  induction es as [|e es IH]; simpl; [now destruct q|].
  rewrite IH. destruct q, e; reflexivity.
Qed.

Lemma interleaved_nil {A} (l1 l2 : list A) : interleaved l1 l2 [] -> l1 = [] /\ l2 = [].
Proof.
  intros H. remember [] as l eqn:El in H.
  destruct H as [|l1 l2 l x _|l1 l2 l x _]; auto; now destruct l.
Qed.

Lemma sync_queues status_str model_id question es c :
  Forall (fun e => inner_event e = true) es ->
  run status_str (think_start status_str model_id question) es = Some c ->
  items (thinking_queue c) = narrations es /\
  unfinished (thinking_queue c) = length (narrations es) /\
  items (content_queue c) = answers_put es /\
  unfinished (content_queue c) = length (answers_put es) /\
  match driver c with
  | DReturned _ => exists a, answers_put es = [a]
  | _ => answers_put es = []
  end.
Proof.
  intros HF Hrun.
  pose proof (sync_as_stream status_str (stream_start status_str model_id question)
                es c HF Hrun) as Hs.
  destruct (stream_session_fifo _ _ _ _ _ Hs) as (ct & th & body & Hil & Hq & Hc & Ht & Hd).
  pose proof (stream_session_inv _ _ _ _ _ Hs) as [_ Hbal _].
  simpl in *. destruct body; [|discriminate].
  apply interleaved_nil in Hil as [H1 H2].
  apply map_eq_nil in H1, H2. subst ct th. simpl in *.
  rewrite (stream_puts_inner Thinking) in Ht. rewrite (stream_puts_inner Content) in Hc, Hd.
  pose proof (Hbal Thinking) as Hbt. pose proof (Hbal Content) as Hbc. simpl in Hbt, Hbc.
  rewrite Hbt, Hbc, Ht, Hc, !Nat.add_0_r. auto.
Qed.

(** *** Strip *)

Lemma string_app_nil_r (s : string) : s +:+ "" = s.
Proof.
  induction s as [|c s IH]; [reflexivity|].
  change (String c (s +:+ "") = String c s). now f_equal.
Qed.

Lemma string_app_assoc (a b c : string) : a +:+ (b +:+ c) = (a +:+ b) +:+ c.
Proof.
  induction a as [|x a IH]; [reflexivity|].
  change (String x (a +:+ (b +:+ c)) = String x ((a +:+ b) +:+ c)). now f_equal.
Qed.

Lemma rev_string_app (a b : string) : Text.rev (a +:+ b) = Text.rev b +:+ Text.rev a.
Proof.
  induction a as [|x a IH].
  - change (Text.rev b = Text.rev b +:+ ""). now rewrite string_app_nil_r.
  - change (Text.rev (a +:+ b) +:+ String x "" =
            Text.rev b +:+ (Text.rev a +:+ String x "")).
    now rewrite IH, string_app_assoc.
Qed.

Lemma rev_string_involutive (s : string) : Text.rev (Text.rev s) = s.
Proof.
  induction s as [|c s IH]; [reflexivity|].
  change (Text.rev (Text.rev s +:+ String c "") = String c s).
  rewrite rev_string_app, IH. reflexivity.
Qed.

Lemma strip_line_feed (s : string) : Text.strip (s +:+ nl) = Text.strip s.
Proof. unfold Text.strip, Text.rstrip. now rewrite rev_string_app. Qed.

Lemma visible_first a s :
  Text.visible a = true -> Text.drop_space false (String a s) = String a s.
Proof.
  unfold Text.visible. intros H. apply andb_true_iff in H as [Hlt Hsp].
  apply Nat.ltb_lt in Hlt. apply negb_true_iff in Hsp.
  cbn [Text.drop_space]. rewrite Hsp.
  destruct s as [|b s2]; [reflexivity|].
  assert (H2 : Text.space2 a b = false).
  { unfold Text.space2. destruct (Nat.eqb_spec (nat_of_ascii a) 194); [lia | reflexivity]. }
  rewrite H2. destruct s2 as [|c s3]; [reflexivity|].
  assert (H3 : Text.space3 a b c = false).
  { unfold Text.space3.
    destruct (Nat.eqb_spec (nat_of_ascii a) 225); [lia|].
    destruct (Nat.eqb_spec (nat_of_ascii a) 226); [lia|].
    destruct (Nat.eqb_spec (nat_of_ascii a) 227); [lia|]. reflexivity. }
  now rewrite H3.
Qed.

Lemma visible_last a s :
  Text.visible a = true -> Text.drop_space true (String a s) = String a s.
Proof.
  unfold Text.visible. intros H. apply andb_true_iff in H as [Hlt Hsp].
  apply Nat.ltb_lt in Hlt. apply negb_true_iff in Hsp.
  cbn [Text.drop_space]. rewrite Hsp.
  destruct s as [|b s2]; [reflexivity|].
  assert (H2 : Text.space2 b a = false).
  { unfold Text.space2.
    destruct (Nat.eqb_spec (nat_of_ascii a) 133); [lia|].
    destruct (Nat.eqb_spec (nat_of_ascii a) 160); [lia|]. apply andb_false_r. }
  rewrite H2. destruct s2 as [|c s3]; [reflexivity|].
  assert (H3 : Text.space3 c b a = false).
  { unfold Text.space3.
    destruct (Nat.eqb_spec (nat_of_ascii a) 128); [lia|].
    destruct (Nat.eqb_spec (nat_of_ascii a) 159); [lia|].
    destruct (Nat.eqb_spec (nat_of_ascii a) 168); [lia|].
    destruct (Nat.eqb_spec (nat_of_ascii a) 169); [lia|].
    destruct (Nat.eqb_spec (nat_of_ascii a) 175); [lia|].
    destruct (Nat.leb_spec 128 (nat_of_ascii a)); [lia|].
    simpl. now rewrite !andb_false_r. }
  now rewrite H3.
Qed.

(** A text that begins and ends with visible characters has nothing to
    strip. *)
Lemma strip_visible a s b :
  Text.visible a = true -> Text.visible b = true ->
  Text.strip (String a (s +:+ String b "")) = String a (s +:+ String b "").
Proof.
  intros Ha Hb. unfold Text.strip, Text.rstrip, Text.lstrip.
  assert (Hrev : Text.rev (String a (s +:+ String b "")) =
                 String b (Text.rev (String a s))).
  { change (String a (s +:+ String b "")) with (String a s +:+ String b "").
    now rewrite rev_string_app. }
  rewrite Hrev, (visible_last b _ Hb), <- Hrev, rev_string_involutive.
  now apply visible_first.
Qed.

Lemma rendered_acc render acc its :
  rendered render acc its = acc +:+ rendered render "" its.
Proof.
  unfold rendered. revert acc. induction its as [|x its IH]; intros acc; cbn [fold_left].
  - now rewrite string_app_nil_r.
  - rewrite (IH (acc +:+ render x)), (IH ("" +:+ render x)).
    change ("" +:+ render x) with (render x). now rewrite string_app_assoc.
Qed.

(** The text that the first loop of [think_sync] builds is the bulleted
    lines, each closed by a line feed. *)
Lemma rendered_bullets its :
  rendered (fun x => "- " +:+ x +:+ nl) "" its =
  match its with
  | [] => ""
  | _ :: _ => Text.join nl (map (fun x => "- " +:+ x) its) +:+ nl
  end.
Proof.
  induction its as [|x its IH]; [reflexivity|].
  unfold rendered. cbn [fold_left].
  fold (rendered (fun x => "- " +:+ x +:+ nl) ("" +:+ ("- " +:+ x +:+ nl)) its).
  rewrite rendered_acc, IH.
  change ("" +:+ ("- " +:+ x +:+ nl)) with ("- " +:+ (x +:+ nl)).
  destruct its as [|y its].
  - rewrite string_app_nil_r. apply (string_app_assoc "- " x nl).
  - unfold Text.join. cbn [map]. set (rest := map _ its).
    change (String.concat nl (("- " +:+ x) :: ("- " +:+ y) :: rest))
      with (("- " +:+ x) +:+ nl +:+ String.concat nl (("- " +:+ y) :: rest)).
    now rewrite <- !string_app_assoc.
Qed.

(** X7: when [_think] has returned under [think_sync], the two loops
    take every item and leave both queues empty with nothing left to
    acknowledge, and the one message returned is the narration of the
    steps, one bulleted line per step in the order of their creation,
    stripped, between the think tags, followed by the answer of the
    synthesizer, stripped: the line feed that the loops add after the
    last item is dropped, and an answer that begins and ends with visible
    characters is returned as it is.  The message has the finish reason
    "stop" and the usage that [_think] returned. *)
Theorem X7_think_sync_message status_str model_id question es c u :
  Forall (fun e => inner_event e = true) es ->
  run status_str (think_start status_str model_id question) es = Some c ->
  driver c = DReturned u ->
  exists answer c',
    answers_put es = [answer] /\
    think_sync c =
      Some ({| c_model := model_id;
               c_object := "chat.completion";
               c_usage := Some u;
               c_choices :=
                 [{| m_index := 0;
                     message :=
                       {| content :=
                            Some ("<think>" +:+
                                  Text.strip
                                    (Text.join nl
                                       (map (fun x => "- " +:+ x) (narrations es))) +:+
                                  "</think>" +:+ Text.strip answer);
                          role := "assistant" |};
                     m_finish_reason := Some "stop" |}] |}, c') /\
    thinking_queue c' = queue_empty /\ content_queue c' = queue_empty /\
    think c' = think c /\
    (forall a s b,
       Text.visible a = true -> Text.visible b = true ->
       answer = String a (s +:+ String b "") -> Text.strip answer = answer).
Proof.
  intros HF Hrun Hd.
  destruct (sync_queues _ _ _ _ _ HF Hrun) as (Hit & Hut & Hic & Huc & Hans).
  rewrite Hd in Hans. destruct Hans as [a Ha]. exists a.
  pose proof (session_reachable _ _ _ _ _ Hrun) as Hreach.
  unfold think_sync. rewrite Hd.
  rewrite (drain_all _ (thinking_queue c)) by (rewrite Hut, Hit; reflexivity). simpl.
  rewrite (drain_all _ (content_queue c)) by (rewrite Huc, Hic; reflexivity). simpl.
  eexists. split; [exact Ha|].
  rewrite Hit, Hic, Ha, (reachable_model _ _ _ _ Hreach).
  assert (Hthink : Text.strip (rendered (fun x => "- " +:+ x +:+ nl) "" (narrations es)) =
                   Text.strip (Text.join nl (map (fun x => "- " +:+ x) (narrations es)))).
  { rewrite rendered_bullets. destruct (narrations es); [reflexivity|].
    apply strip_line_feed. }
  assert (Hans : Text.strip (rendered (fun x => x +:+ nl) "" [a]) = Text.strip a)
    by apply strip_line_feed.
  rewrite Hthink, Hans.
  split; [reflexivity|]. simpl. repeat split.
  intros x s y Hx Hy ->. now apply strip_visible.
Qed.

Lemma X7_witness :
  exists c c',
    run Sample.status_str Sample.start Sample.capital_of_france = Some c /\
    option_map (fun r => map (fun ch => content (message ch)) (c_choices (fst r)))
      (think_sync c) =
      Some [Some ("<think>- read" +:+ nl +:+ "- search" +:+ nl +:+ "- check" +:+
                  "</think>Paris.")] /\
    option_map snd (think_sync c) = Some c' /\
    thinking_queue c' = queue_empty.
Proof.
  destruct (X7_think_sync_message
              Sample.status_str "model" "What is the capital of France?"
              Sample.capital_of_france _ _
              ltac:(repeat constructor)
              ltac:(vm_compute; reflexivity) ltac:(vm_compute; reflexivity))
    as (answer & c' & _ & Hsync & Hq & _).
  eexists. exists c'. split; [vm_compute; reflexivity|].
  split; [vm_compute; reflexivity|]. split; [|exact Hq].
  rewrite Hsync. reflexivity.
Defined.

(** ** The sentinel in any casing *)

Lemma lower_app_inv s a b :
  Text.lower s = a +:+ b ->
  exists s1 s2, s = s1 +:+ s2 /\ Text.lower s1 = a /\ Text.lower s2 = b.
Proof.
  revert s. induction a as [|c a IH]; intros s H.
  - exists "", s. auto.
  - destruct s as [|d s]; simpl in H; [discriminate|].
    injection H as Hc Hs. destruct (IH s Hs) as (s1 & s2 & -> & H1 & H2).
    exists (String d s1), s2. simpl. rewrite H1, Hc. auto.
Qed.

(** X8: the stop-check declines exactly when the text holds, somewhere,
    a piece whose lowercase is the sentinel, whatever its casing; when it
    does not decline, the answer is the text with its own casing, not the
    lowercased text that was tested. *)
Theorem X8_sentinel_any_casing (res : string) :
  (_should_stop_objective res = None <->
   exists pre mid post,
     res = pre +:+ mid +:+ post /\ Text.lower mid = "can't answer") /\
  (forall a, _should_stop_objective res = Some a -> a = res) /\
  (_should_stop_objective (Text.lower res) = None <-> _should_stop_objective res = None).
Proof.
  assert (Hchar : forall r, _should_stop_objective r = None <->
            exists pre mid post,
              r = pre +:+ mid +:+ post /\ Text.lower mid = "can't answer").
  { intros r. unfold _should_stop_objective. split.
    - destruct (Text.contains _ _) eqn:E; [intros _ | discriminate].
      apply TextFacts.contains_app in E as (a & b & E).
      destruct (lower_app_inv _ _ _ E) as (pre & rest & -> & H1 & H2).
      destruct (lower_app_inv _ _ _ H2) as (mid & post & -> & H3 & H4).
      eauto.
    - intros (pre & mid & post & -> & Hmid).
      rewrite !TextFacts.lower_app, Hmid.
      replace (Text.contains _ _) with true; [reflexivity|].
      symmetry. apply TextFacts.contains_app. eauto. }
  split; [apply Hchar|]. split.
  - intros a. unfold _should_stop_objective.
    destruct (Text.contains _ _); [discriminate | now intros [= <-]].
  - rewrite !Hchar. split.
    + intros (pre & mid & post & E & Hmid).
      destruct (lower_app_inv _ _ _ E) as (pre' & rest & -> & H1 & H2).
      destruct (lower_app_inv _ _ _ H2) as (mid' & post' & -> & H3 & H4).
      exists pre', mid', post'. split; [reflexivity|].
      assert (Hidem : forall t, Text.lower t = "can't answer" ->
                Text.lower (Text.lower t) = "can't answer")
        by (intros t ->; reflexivity).
      rewrite <- H3 in Hmid.
      clear - Hmid.
      assert (Hll : forall t, Text.lower (Text.lower t) = Text.lower t).
      { induction t as [|c t IHt]; simpl; [reflexivity|]. rewrite IHt. f_equal.
        unfold Text.lower_ascii.
        destruct ((65 <=? nat_of_ascii c) && (nat_of_ascii c <=? 90)) eqn:E;
          [|now rewrite E].
        apply andb_true_iff in E as [E1 E2].
        apply Nat.leb_le in E1, E2.
        rewrite nat_ascii_embedding by lia.
        destruct (Nat.leb_spec (nat_of_ascii c + 32) 90); [lia|].
        now rewrite andb_false_r. }
      now rewrite Hll in Hmid.
    + intros (pre & mid & post & -> & Hmid).
      exists (Text.lower pre), (Text.lower mid), (Text.lower post).
      rewrite !TextFacts.lower_app. split; [reflexivity|]. now rewrite Hmid.
Qed.

(** ** One narration per step *)






(** ** A session can always end *)

(** X10: from every state of a session there are replies of the model
    that bring [_think] to its return: the poll loop, the admission loop
    and the runners never leave the session in a state that no reply can
    end.  At most [distance c] such events are needed. *)
Theorem X10_session_can_end status_str model_id question es c :
  run status_str (think_start status_str model_id question) es = Some c ->
  exists es' c' u,
    run status_str c es' = Some c' /\ driver c' = DReturned u /\
    run status_str (think_start status_str model_id question) (es ++ es') = Some c'.
Proof.
  intros Hrun.
  pose proof (reachable_inv _ _ _ _ (session_reachable _ _ _ _ _ Hrun)) as Hc.
  destruct (can_end status_str (distance c) c (Nat.le_refl _) Hc) as (es' & c' & u & H1 & H2).
  exists es', c', u. split; [exact H1|]. split; [exact H2|].
  clear - Hrun H1. revert Hrun. generalize (think_start status_str model_id question).
  induction es as [|e es IH]; intros c0 Hrun; simpl in *.
  - now injection Hrun as ->.
  - destruct (step status_str c0 e) as [c1|]; simpl in *; [now apply IH | discriminate].
Qed.

Lemma X10_witness :
  exists c es' c' u,
    run Sample.status_str Sample.start Sample.three_proposals = Some c /\
    run Sample.status_str c es' = Some c' /\ driver c' = DReturned u.
Proof.
  destruct (X10_session_can_end
              Sample.status_str "model" "What is the capital of France?"
              Sample.three_proposals _ ltac:(vm_compute; reflexivity))
    as (es' & c' & u & H1 & H2 & _).
  eexists. exists es', c', u. split; [vm_compute; reflexivity|]. auto.
Defined.


(** ** Leaving the loop *)

(** X11: the loop of [_think] is left, towards the synthesis, only by
    its [break], in the segment that receives a reply of the detector of
    which no objective is admitted, with no active job.  Past the loop no
    job is active and no objective is PENDING; each objective is COMPLETED
    or FAILED unless the call that its runner awaited raised, which left
    it IN_PROGRESS.  In a session in which no runner raised, every
    objective is terminal past the loop. *)
Theorem X11_loop_exit status_str model_id question es c :
  run status_str (think_start status_str model_id question) es = Some c ->
  (driver c = DAwaitAnswer \/ (exists u, driver c = DReturned u) ->
   active_count (jobs c) = 0 /\
   (forall k job o,
      jobs c !! k = Some job -> objectives (think c) !! k = Some o ->
      (job_raised job = false /\ (status o = COMPLETED \/ status o = FAILED)) \/
      (job_raised job = true /\ status o = IN_PROGRESS)) /\
   Forall (fun o => status o <> PENDING) (objectives (think c)) /\
   (Forall (fun job => job_raised job = false) (jobs c) ->
    any_unfinished (objectives (think c)) = false)) /\
  (forall e c',
     step status_str c e = Some c' ->
     driver c <> DAwaitAnswer -> driver c' = DAwaitAnswer ->
     exists out u proposed,
       e = DetectReply out u /\
       _detect_new_objectives out = Some proposed /\
       fst (admission proposed (objectives (think c))) = [] /\
       active_count (jobs c) = 0 /\
       objectives (think c') = objectives (think c)).
Proof.
  intros Hrun. apply session_reachable in Hrun.
  pose proof (reachable_inv _ _ _ _ Hrun) as Hc.
  split.
  - intros Hd.
    assert (Hne : driver c <> DPoll) by (destruct Hd as [E | [u E]]; rewrite E; discriminate).
    pose proof (inv_driver _ Hc Hne) as Hended.
    assert (Hobj : forall k job o,
              jobs c !! k = Some job -> objectives (think c) !! k = Some o ->
              (job_raised job = false /\ (status o = COMPLETED \/ status o = FAILED)) \/
              (job_raised job = true /\ status o = IN_PROGRESS)).
    { intros k job o Hjob Ho.
      destruct (ended_objective c k job o (inv_store _ Hc) Hended Hjob Ho)
        as [(Hr & _ & Ht) | (Hr & Hs)]; [left | right; auto].
      split; [exact Hr|]. destruct (status o); simpl in Ht; auto; discriminate. }
    split; [now apply active_count_0|]. split; [exact Hobj|]. split.
    + apply Forall_lookup. intros k o Ho.
      destruct (store_inv_lookup_obj _ _ _ (inv_store _ Hc) Ho) as (job & Hjob & _).
      destruct (Hobj k job o Hjob Ho) as [(_ & [E | E]) | (_ & E)]; rewrite E; discriminate.
    + intros Hnone. apply any_unfinished_false, Forall_lookup. intros k o Ho.
      destruct (store_inv_lookup_obj _ _ _ (inv_store _ Hc) Ho) as (job & Hjob & _).
      pose proof (proj1 (Forall_lookup _ _) Hnone k job Hjob) as Hr. simpl in Hr.
      destruct (Hobj k job o Hjob Ho) as [(_ & [E | E]) | (Hr' & _)];
        [now rewrite E | now rewrite E | congruence].
  - intros e c' Hstep Hbefore Hafter.
    destruct e as [j|j k|j st u|j out u| |out u|out u|q|q|j|j]; simpl in Hstep.
    + runner_polls Hstep Hc. congruence.
    + destruct (tool_call_polling _ _ _ _ Hc Hstep). congruence.
    + runner_polls Hstep (charge_inv u _ Hc). congruence.
    + destruct (non_empty_completion out) as [res|]; simpl in Hstep;
        runner_polls Hstep (charge_inv u _ Hc); congruence.
    + destruct (decide (driver c = DPoll)); [|discriminate].
      injection Hstep as <-. now apply poll_not_answer in Hafter.
    + destruct (decide (driver c = DAwaitDetect)) as [Hd|]; [|discriminate].
      destruct (_detect_new_objectives out) as [proposed|] eqn:Hp; simpl in Hstep;
        [|discriminate].
      injection Hstep as <-. exists out, u, proposed.
      assert (Hended : all_ended (jobs c)) by (apply Hc; congruence).
      assert (Hcount : active_count (jobs c) = 0) by now apply active_count_0.
      unfold on_detect in *. simpl in *. rewrite admission_firstn in *. cbn [fst].
      destruct (firstn _ proposed) as [|o new] eqn:Enew.
      * rewrite Hcount in *. simpl in *. rewrite app_nil_r in *. auto 10.
      * exfalso. unfold while_head in Hafter. simpl in Hafter.
        rewrite any_unfinished_app in Hafter.
        assert (Ho : status o = PENDING).
        { pose proof (Forall_take _ (MAX_OBJECTIVES - length (objectives (think c))) _
                        (detected_spawned _ _ Hp)) as HF.
          rewrite Enew in HF. inversion HF as [|? ? (Hs & _) _]. exact Hs. }
        simpl in Hafter. rewrite Ho in Hafter. simpl in Hafter.
        rewrite orb_true_r in Hafter. now apply poll_not_answer in Hafter.
    + destruct (decide (driver c = DAwaitAnswer)); [contradiction | discriminate].
    + destruct (queue_get (get_queue q c)) as [[x v]|]; simpl in Hstep; [|discriminate].
      injection Hstep as <-. simpl in Hafter. contradiction.
    + destruct (queue_task_done (get_queue q c)) as [v|]; simpl in Hstep; [|discriminate].
      injection Hstep as <-. simpl in Hafter. contradiction.
    + runner_polls Hstep Hc. congruence.
    + runner_polls Hstep Hc. congruence.
Qed.

Lemma X11_witness :
  exists c,
    run Sample.status_str Sample.start Sample.nothing_completed = Some c /\
    driver c = DAwaitAnswer /\
    active_count (jobs c) = 0 /\
    any_unfinished (objectives (think c)) = false.
Proof.
  destruct (proj1 (X11_loop_exit
              Sample.status_str "model" "What is the capital of France?"
              Sample.nothing_completed _ ltac:(vm_compute; reflexivity))
              (or_introl eq_refl)) as (Hact & _ & _ & Hany).
  eexists. split; [vm_compute; reflexivity|]. split; [reflexivity|].
  split; [exact Hact|]. apply Hany. repeat constructor.
Defined.
